(** * pymarthe.mfield: field tables, masking, grid conversion, field series

    A shallow embedding of [src/pymarthe/mfield.py] and the properties of
    its specification.

    Conventions of the embedding.
    - A numpy record array is the list of its records, in storage order.
    - Integer columns (layer, inest, i, j) and timestep numbers are [nat]:
      they are array indices and identifiers, never negative.
    - Float columns (x, y, value) hold integral values, in [Z]: the code
      only compares, copies and sorts them.  Spacings and origins, which
      the code derives by halving differences, are rationals ([Q]).  The
      missing-value marker appears only in the frames of [get_tseries],
      through the type [cell].
    - A Python exception is the [Raise] outcome of the result type [res].
    - Record arrays are mutable and shared by reference: they live in a
      [heap], and objects hold locations. *)

From Stdlib Require Import String Ascii DecimalString.
From Stdlib Require Import ZArith QArith Qabs.
From Stdlib Require Import Bool Arith PeanoNat Lia.
From Stdlib Require Import List Sorted FinFun.
Import ListNotations.

Local Open Scope nat_scope.
Local Open Scope list_scope.

(* ================================================================== *)
(** ** Exceptions *)

Inductive exn : Type :=
| ValueError | IndexError | AssertionError | AttributeError | TypeError
| KeyError.

Inductive res (A : Type) : Type :=
| Ok (a : A)
| Raise (e : exn).

Arguments Ok {A} a.
Arguments Raise {A} e.

Definition bind {A B : Type} (c : res A) (k : A -> res B) : res B :=
  match c with
  | Ok a => k a
  | Raise e => Raise e
  end.

Declare Scope res_scope.
Delimit Scope res_scope with res.
Notation "x <- c ;; k" := (bind c (fun x => k))
  (at level 61, c at next level, right associativity) : res_scope.
Notation "' p <- c ;; k" := (bind c (fun x => let p := x in k))
  (at level 61, p pattern, c at next level, right associativity) : res_scope.
Local Open Scope res_scope.

Fixpoint mapM {A B : Type} (f : A -> res B) (l : list A) : res (list B) :=
  match l with
  | [] => Ok []
  | a :: l' => b <- f a ;; bs <- mapM f l' ;; Ok (b :: bs)
  end.

Definition assert (b : bool) : res unit :=
  if b then Ok tt else Raise AssertionError.

Definition is_ok {A : Type} (c : res A) : bool :=
  match c with Ok _ => true | Raise _ => false end.

(* ================================================================== *)
(** ** The numpy and pandas operations the module uses *)

(** A two-dimensional array: its shape and its elements in C order,
    which is what [ravel] returns. *)
Record array2d : Type := mk_array2d
  { a_nrow : nat; a_ncol : nat; ravel : list Z }.

(** An n-dimensional array of floats that is not a record array. *)
Record ndarray : Type := mk_ndarray
  { shape : list nat; flat : list Z }.

Module np.

(** [np.isin(col, vals)] *)
Definition isin {A : Type} (eqb : A -> A -> bool) (col vals : list A)
  : list bool :=
  map (fun v => existsb (eqb v) vals) col.

Definition logical_and (a b : list bool) : list bool :=
  map (fun p => fst p && snd p) (combine a b).

Definition logical_not (a : list bool) : list bool := map negb a.

(** [np.logical_and.reduce(masks)] over masks of one length *)
Definition logical_and_reduce (masks : list (list bool)) : list bool :=
  match masks with
  | [] => []
  | m :: ms => fold_left logical_and ms m
  end.

Fixpoint insert_unique {A : Type} (ltb : A -> A -> bool) (a : A)
  (l : list A) : list A :=
  match l with
  | [] => [a]
  | b :: l' =>
      if ltb a b then a :: l
      else if ltb b a then b :: insert_unique ltb a l'
      else l
  end.

(** [np.unique(col)]: the distinct elements, ascending *)
Definition unique {A : Type} (ltb : A -> A -> bool) (col : list A)
  : list A :=
  fold_right (insert_unique ltb) [] col.

Definition flip {A : Type} (l : list A) : list A := rev l.

(** [np.max(col)]: no maximum of an empty array *)
Definition max (col : list nat) : res nat :=
  match col with
  | [] => Raise ValueError
  | a :: l => Ok (fold_left Nat.max l a)
  end.

(** [col.reshape(nrow, ncol)] of a one-dimensional array *)
Definition reshape (col : list Z) (nrow ncol : nat) : res array2d :=
  if length col =? nrow * ncol then Ok (mk_array2d nrow ncol col)
  else Raise ValueError.

(** [a[mask]] with a boolean mask *)
Fixpoint select {A : Type} (l : list A) (mask : list bool) : list A :=
  match l, mask with
  | a :: l', b :: mask' =>
      if b then a :: select l' mask' else select l' mask'
  | _, _ => []
  end.

Definition getitem_mask {A : Type} (l : list A) (mask : list bool)
  : res (list A) :=
  if length l =? length mask then Ok (select l mask)
  else Raise IndexError.

Definition count_true (mask : list bool) : nat :=
  length (filter (fun b => b) mask).

(** the positions where [mask] is true receive [vs] in order *)
Fixpoint put {A : Type} (l : list A) (mask : list bool) (vs : list A)
  : list A :=
  match l, mask with
  | a :: l', true :: mask' =>
      match vs with
      | v :: vs' => v :: put l' mask' vs'
      | [] => a :: put l' mask' []
      end
  | a :: l', false :: mask' => a :: put l' mask' vs
  | _, _ => l
  end.

(** [a[mask] = v] with a scalar [v] *)
Definition setitem_mask_scalar {A : Type} (l : list A) (mask : list bool)
  (v : A) : res (list A) :=
  if length l =? length mask
  then Ok (map (fun p : A * bool => if snd p then v else fst p) (combine l mask))
  else Raise IndexError.

(** [a[mask] = vs] with an array [vs]: one value per true position, or a
    single value for all of them *)
Definition setitem_mask {A : Type} (l : list A) (mask : list bool)
  (vs : list A) : res (list A) :=
  if negb (length l =? length mask) then Raise IndexError
  else if length vs =? count_true mask then Ok (put l mask vs)
  else match vs with
       | [v] => setitem_mask_scalar l mask v
       | _ => Raise ValueError
       end.

(** [a[nodes]] with a list of integer positions *)
Definition take {A : Type} (l : list A) (nodes : list nat)
  : res (list A) :=
  mapM (fun n => match nth_error l n with
                 | Some a => Ok a
                 | None => Raise IndexError
                 end) nodes.

(** [a[:] = vs] for a whole column: same length, or one value for all *)
Definition setitem_all {A : Type} (l vs : list A) : res (list A) :=
  if length vs =? length l then Ok vs
  else match vs with
       | [v] => Ok (map (fun _ => v) l)
       | _ => Raise ValueError
       end.

Fixpoint central (l : list Z) : list Q :=
  match l with
  | a :: l' =>
      match l' with
      | _ :: c :: _ => ((c - a)%Z # 2) :: central l'
      | _ => []
      end
  | [] => []
  end.

(** [np.gradient(col)] with unit spacing: one-sided differences at both
    ends, central differences inside; at least two elements *)
Definition gradient (col : list Z) : res (list Q) :=
  match col, rev col with
  | a :: b :: _, z :: w :: _ =>
      Ok (inject_Z (b - a) :: central col ++ [inject_Z (z - w)])
  | _, _ => Raise ValueError
  end.

(** [np.array(arrays)] of a list of two-dimensional arrays: the arrays
    are stacked along a new first axis, and a list of arrays that do not
    all have one shape raises ValueError. *)
Definition array (arrays : list array2d) : res (list array2d) :=
  match arrays with
  | [] => Ok []
  | a :: rest =>
      if forallb (fun b => (a_nrow b =? a_nrow a) && (a_ncol b =? a_ncol a))
           rest
      then Ok arrays
      else Raise ValueError
  end.

End np.

Module pd.

Fixpoint unique {A : Type} (eqb : A -> A -> bool) (seen col : list A)
  : list A :=
  match col with
  | [] => []
  | a :: l =>
      if existsb (eqb a) seen then unique eqb seen l
      else a :: unique eqb (a :: seen) l
  end.

End pd.

(** [pd.DataFrame.loc[mask, col] = vs] on one column: nothing to set when
    no row is selected, otherwise one value per selected row. *)
Definition loc_setitem (col : list Z) (mask : list bool) (vs : list Z)
  : res (list Z) :=
  if np.count_true mask =? 0 then Ok col
  else if length vs =? np.count_true mask then Ok (np.put col mask vs)
  else Raise ValueError.

Fixpoint foldM {A B : Type} (f : B -> A -> res B) (l : list A) (b : B)
  : res B :=
  match l with
  | [] => Ok b
  | a :: l' => b' <- f b a ;; foldM f l' b'
  end.

Definition enumerate {A : Type} (l : list A) : list (nat * A) :=
  combine (seq 0 (length l)) l.

Fixpoint chunks {A : Type} (n size : nat) (l : list A) : list (list A) :=
  match n with
  | 0 => []
  | S n' => firstn size l :: chunks n' size (skipn size l)
  end.

(** Iterating an array of rank three along its first axis yields its
    two-dimensional slabs, each given here by its [ravel]. *)
Definition slabs (a : ndarray) : list (list Z) :=
  match shape a with
  | [d0; d1; d2] => chunks d0 (d1 * d2) (flat a)
  | _ => []
  end.

(* ================================================================== *)
(** ** Record arrays: the flat field table *)

Module Rec.

(** One record of the field table; the columns are named as in the
    record arrays of the module.  The coordinates and the value, which
    are floats in the source, are given by integers: the tables
    considered hold whole numbers, and no missing-value marker. *)
Record t : Type := mk
  { layer : nat; inest : nat; i : nat; j : nat; x : Z; y : Z; value : Z }.

Definition set_value (r : t) (v : Z) : t :=
  mk (layer r) (inest r) (i r) (j r) (x r) (y r) v.

(** The geometry columns of a record: everything but the value. *)
Definition geometry (r : t) : nat * nat * nat * nat * Z * Z :=
  (layer r, inest r, i r, j r, x r, y r).

End Rec.

Definition recarray : Type := list Rec.t.

(** [rec['value'] = col], column and table of one length *)
Definition set_values (rec : recarray) (col : list Z) : recarray :=
  map (fun p : Rec.t * Z => Rec.set_value (fst p) (snd p)) (combine rec col).

Definition geometry (rec : recarray) : list (nat * nat * nat * nat * Z * Z) :=
  map Rec.geometry rec.

(** Default field masked values *)
Definition dmv : list Z := [-9999; 0; 9999]%Z.

(* ================================================================== *)
(** ** Grids *)

Module MartheGrid.

(** The arguments [MartheField._rec2grid] passes to the constructor of
    [MartheGrid], kept as attributes. *)
Record t : Type := mk
  { istep : Z; layer : nat; inest : nat; nrow : nat; ncol : nat;
    xl : Q; yl : Q; dx : list Q; dy : list Q;
    xcc : list Z; ycc : list Z; array : array2d; field : string }.

(** Modelled from the spec: [MartheGrid.to_records], of
    [pymarthe/utils/grid_utils.py], which is not among the sources.  A
    grid descriptor expands to row-count x col-count records, one per
    cell, with columns layer, inest, row, col, x, y, value; x and y are
    the cell-centre coordinates of the column and of the row, and the
    value array has shape (row count, col count).  Records follow the
    C order of the array, the order [load_field] relies on when it lays
    [array.ravel()] over the value column; [records] is that expansion,
    and [to_records] refuses a grid whose array or coordinate vectors do
    not have the shape its row and column counts announce. *)
Definition records (mg : t) : recarray :=
  flat_map (fun r =>
              map (fun c =>
                     Rec.mk (layer mg) (inest mg) r c
                       (nth c (xcc mg) 0%Z) (nth r (ycc mg) 0%Z)
                       (nth (r * ncol mg + c) (ravel (array mg)) 0%Z))
                  (seq 0 (ncol mg)))
           (seq 0 (nrow mg)).

Definition to_records (mg : t) : res recarray :=
  if (a_nrow (array mg) =? nrow mg) && (a_ncol (array mg) =? ncol mg)
     && (length (ravel (array mg)) =? nrow mg * ncol mg)
     && (length (xcc mg) =? ncol mg) && (length (ycc mg) =? nrow mg)
  then Ok (records mg)
  else Raise ValueError.

End MartheGrid.

(* ================================================================== *)
(** ** The heap of record arrays *)

Definition loc : Type := nat.
Definition heap : Type := list recarray.

Definition load (h : heap) (l : loc) : res recarray :=
  match nth_error h l with
  | Some rec => Ok rec
  | None => Raise AttributeError
  end.

Fixpoint store (h : heap) (l : loc) (rec : recarray) : heap :=
  match h, l with
  | [], _ => []
  | _ :: h', 0 => rec :: h'
  | a :: h', S l' => a :: store h' l' rec
  end.

(** A new array object holding [rec]. *)
Definition alloc (h : heap) (rec : recarray) : heap * loc :=
  (h ++ [rec], length h).

(** [deepcopy(rec)] *)
Definition deepcopy (h : heap) (rec : recarray) : heap * loc := alloc h rec.

(** [s.casefold()], as far as the comparison with ['imask'] can tell:
    the ASCII capitals, and the two other characters that fold to an
    ASCII letter, the Kelvin sign (to k) and the long s (to s), in
    their UTF-8 encodings. *)
Fixpoint casefold (s : string) : string :=
  match s with
  | EmptyString => EmptyString
  | String c s' =>
      let n := nat_of_ascii c in
      if (65 <=? n) && (n <=? 90)
      then String (ascii_of_nat (n + 32)) (casefold s')
      else
        match n, s' with
        | 226, String c1 (String c2 s'') =>
            if (nat_of_ascii c1 =? 132) && (nat_of_ascii c2 =? 170)
            then String "k"%char (casefold s'')
            else String c (casefold s')
        | 197, String c1 s'' =>
            if nat_of_ascii c1 =? 191
            then String "s"%char (casefold s'')
            else String c (casefold s')
        | _, _ => String c (casefold s')
        end
  end.

(* ================================================================== *)
(** ** MartheField *)

(** What [get_data] returns, by its flags. *)
Inductive selection : Type :=
| AsMask (mask : list bool)
| AsArray (arrays : list array2d)
| AsRec (rec : recarray).

(** The kinds of [data] that [set_data] tells apart. *)
Inductive data_arg : Type :=
| DStr (filename : string)
| DNum (v : Z)
| DRec (rec : loc)
| DArr (arr : ndarray)
| DList (grids : list MartheGrid.t).

Definition is_none {A : Type} (o : option A) : bool :=
  match o with None => true | Some _ => false end.

Definition is_nil {A : Type} (l : list A) : bool :=
  match l with [] => true | _ :: _ => false end.

(** An object of the spatial index of the model, as [sample] reads it:
    its first entry, the node of the cell; its second, the layer of the
    cell; and its last entry. *)
Record hit : Type := mk_hit
  { hit_node : nat; hit_layer : nat; hit_last : Z }.

(** [mm.spatial_index.intersection((x, y), objects='raw')] *)
Definition spatial_index : Type := Z -> Z -> list hit.

(** What [sample] returns, by its flags. *)
Inductive sampled : Type :=
| AsIdx (idx : list nat)
| SampledMask (mask : list bool)
| SampledRec (rec : recarray).

(** [a[k] = v] *)
Fixpoint setitem {A : Type} (l : list A) (k : nat) (v : A) : res (list A) :=
  match l, k with
  | [], _ => Raise IndexError
  | _ :: l', 0 => Ok (v :: l')
  | a :: l', S k' => l'' <- setitem l' k' v ;; Ok (a :: l'')
  end.

(** [a[idx] = v] with a list of integer positions *)
Definition setitem_list {A : Type} (l : list A) (idx : list nat) (v : A)
  : res (list A) :=
  foldM (fun l k => setitem l k v) idx l.

(** What [pest_utils.parse_mgp_parfile] returns: a parameter file of
    zones of piecewise constancy, with its records (layer, zone, value);
    a pilot point file, with its triple of layer, zone and values; or a
    file of another kind. *)
Inductive mgp : Type :=
| Zpc (rec : list (nat * Z * Z))
| Pp (l : list nat) (z : Z) (v : list Z)
| OtherPar.

(** [pest_utils.parse_mgp_parfile(parfile, btrans, fmt_lite)] *)
Definition parser : Type := string -> string -> bool -> res mgp.

(** [np.logical_and.reduce([a, b])] of two masks, which must have one
    shape *)
Definition logical_and_pair (a b : list bool) : res (list bool) :=
  if length a =? length b then Ok (np.logical_and a b)
  else Raise ValueError.

Module MartheField.

(** The module-level [dmv], which the attribute of the same name
    shadows from here on. *)
Definition module_dmv : list Z := dmv.

(** The attributes of an instance; [data] is the reference to its record
    array, absent until [set_data] first assigns it. *)
Record t : Type := mk
  { field : string; use_imask : bool; dmv : list Z;
    data : option loc; maxlayer : nat; maxnest : Z }.

(** The parent model, as far as the module calls it: its active-domain
    field, its node lookup and its timestep dates. *)
Record MartheModel : Type := mk_model
  { imask : t;
    get_node : list Z -> list Z -> list nat -> list nat;
    mldates : nat -> Z }.

(** [marthe_utils.read_grid_file(filename)] *)
Definition reader : Type := string -> res (list MartheGrid.t).

Definition set_data_attr (self : t) (l : loc) : t :=
  mk (field self) (use_imask self) (dmv self) (Some l)
     (maxlayer self) (maxnest self).

Definition data_ref (self : t) : option loc := data self.

(** [self.data] *)
Definition attr_data (h : heap) (self : t) : res recarray :=
  match data self with
  | Some l => load h l
  | None => Raise AttributeError
  end.

(** One (layer, inest) group as a dense array: the body of the inner
    loop of [get_data] with [as_array]. *)
Definition dense (ldata : recarray) (n : nat) : res array2d :=
  let ndata := filter (fun r => Rec.inest r =? n) ldata in
  nrow <- (m <- np.max (map Rec.i ndata) ;; Ok (m + 1)) ;;
  ncol <- (m <- np.max (map Rec.j ndata) ;; Ok (m + 1)) ;;
  np.reshape (map Rec.value ndata) nrow ncol.

(** [self.get_data(layer, inest, as_array, as_mask, masked_values)] on
    the table [self_data].  A scalar [layer] or [inest] is the list of
    that one id, as [make_iterable] makes it.  The array of an
    [as_array] call is given by the list of its two-dimensional
    arrays. *)
Definition get_data (self_data : recarray) (layer inest : option (list nat))
  (as_array as_mask : bool) (masked_values : list Z) : res selection :=
  let layers := match layer with
                | None => np.unique Nat.ltb (map Rec.layer self_data)
                | Some l => l
                end in
  let inests := match inest with
                | None => np.unique Nat.ltb (map Rec.inest self_data)
                | Some n => n
                end in
  let mv := masked_values in
  let mask := np.logical_and_reduce
                [ np.isin Nat.eqb (map Rec.layer self_data) layers;
                  np.isin Nat.eqb (map Rec.inest self_data) inests;
                  np.logical_not
                    (np.isin Z.eqb (map Rec.value self_data) mv) ] in
  if as_mask then Ok (AsMask mask)
  else if as_array then
    arrays <- mapM (fun l =>
                let ldata := filter (fun r => Rec.layer r =? l) self_data in
                mapM (fun n => dense ldata n) inests) layers ;;
    stacked <- np.array (concat arrays) ;;
    Ok (AsArray stacked)
  else
    rec <- np.getitem_mask self_data mask ;;
    Ok (AsRec rec).

(** [MartheField.grids2rec(grids)]: the records of the grids, stacked *)
Definition grids2rec (grids : list MartheGrid.t) : res recarray :=
  match grids with
  | [] => Raise IndexError
  | _ => recs <- mapM MartheGrid.to_records grids ;; Ok (concat recs)
  end.

(** [self._rec2grid(layer, inest)] *)
Definition _rec2grid (self_field : string) (self_data : recarray)
  (layer inest : nat) : res MartheGrid.t :=
  sel <- get_data self_data (Some [layer]) (Some [inest]) true false [] ;;
  match sel with
  | AsArray (array :: _) =>
      let nrow := a_nrow array in
      let ncol := a_ncol array in
      sel' <- get_data self_data (Some [layer]) (Some [inest])
                false false [] ;;
      match sel' with
      | AsRec rec =>
          let xcc := np.unique Z.ltb (map Rec.x rec) in
          let ycc := np.flip (np.unique Z.ltb (map Rec.y rec)) in
          gx <- np.gradient xcc ;;
          gy <- np.gradient ycc ;;
          let dx := map Qabs gx in
          let dy := map Qabs gy in
          let xl := (inject_Z (hd 0%Z xcc) - hd 0%Q dx / 2)%Q in
          let yl := (inject_Z (last ycc 0%Z) - last dy 0%Q / 2)%Q in
          let istep := (-9999)%Z in
          Ok (MartheGrid.mk istep layer inest nrow ncol xl yl dx dy
                xcc ycc array self_field)
      | _ => Raise TypeError
      end
  | AsArray [] => Raise IndexError
  | _ => Raise TypeError
  end.

(** [self.to_grids(layer, inest)] *)
Definition to_grids (self_field : string) (self_data : recarray)
  (layer inest : option (list nat)) : res (list MartheGrid.t) :=
  sel <- get_data self_data layer inest false false [] ;;
  match sel with
  | AsRec rec =>
      mgrids <- mapM (fun inest =>
                  mapM (fun layer =>
                          _rec2grid self_field self_data layer inest)
                       (np.unique Nat.ltb (map Rec.layer rec)))
                  (np.unique Nat.ltb (map Rec.inest rec)) ;;
      Ok (concat mgrids)
  | _ => Raise TypeError
  end.

(** The test of [get_masked]: the field is masked by the active domain
    of the model, and is not that domain itself. *)
Definition model_dependent (self : t) : bool :=
  use_imask self && negb (String.eqb (casefold (field self)) "imask").

(** [self.get_masked(rec)].  The result is a reference: to a new array
    for a model dependent field, to [rec] itself otherwise. *)
Definition get_masked (mm : MartheModel) (self : t) (h : heap) (rec : loc)
  : res (heap * loc) :=
  if model_dependent self then
    imask_data <- attr_data h (imask mm) ;;
    let (h1, mrec) := deepcopy h imask_data in
    sel <- get_data imask_data None None false true (dmv self) ;;
    match sel with
    | AsMask mask =>
        rec_data <- load h1 rec ;;
        mrec_data <- load h1 mrec ;;
        vals <- np.getitem_mask (map Rec.value rec_data) mask ;;
        col <- np.setitem_mask (map Rec.value mrec_data) mask vals ;;
        Ok (store h1 mrec (set_values mrec_data col), mrec)
    | _ => Raise TypeError
    end
  else Ok (h, rec).

(** [self._3d2rec(arr3d)]: the active-domain table with the values of
    each layer of the main grid replaced by a slab of the array.  Both
    the deep copy and the table returned are new arrays. *)
Definition _3d2rec (mm : MartheModel) (h : heap) (arr3d : ndarray)
  : res (heap * loc) :=
  _ <- assert (length (shape arr3d) =? 3) ;;
  imask_data <- attr_data h (imask mm) ;;
  let (h1, rec) := deepcopy h imask_data in
  let df := imask_data in
  col <- foldM (fun col (p : nat * list Z) =>
                  let (layer, arr2d) := p in
                  let mask := np.logical_and
                                (map (fun r => Rec.layer r =? layer) df)
                                (map (fun r => Rec.inest r =? 0) df) in
                  loc_setitem col mask arr2d)
               (enumerate (slabs arr3d)) (map Rec.value df) ;;
  Ok (alloc h1 (set_values df col)).

(** [self.set_data(data, layer, inest)] *)
Definition set_data (read_grid_file : reader) (mm : MartheModel) (self : t)
  (h : heap) (data : data_arg) (layer inest : option (list nat))
  : res (heap * t) :=
  let _none := is_none layer && is_none inest in
  match data with
  | DStr filename =>
      if _none then
        grids <- read_grid_file filename ;;
        rec <- grids2rec grids ;;
        let (h1, r) := alloc h rec in
        '(h2, m) <- get_masked mm self h1 r ;;
        Ok (h2, set_data_attr self m)
      else Ok (h, self)
  | DList grids =>
      if _none then
        rec <- grids2rec grids ;;
        let (h1, r) := alloc h rec in
        '(h2, m) <- get_masked mm self h1 r ;;
        Ok (h2, set_data_attr self m)
      else Ok (h, self)
  | DNum v =>
      let on_existing :=
        match data_ref self with
        | None => Raise AttributeError
        | Some l =>
            self_data <- load h l ;;
            sel <- get_data self_data layer inest false true (dmv self) ;;
            match sel with
            | AsMask mask =>
                col <- np.setitem_mask_scalar
                         (map Rec.value self_data) mask v ;;
                Ok (store h l (set_values self_data col), self)
            | _ => Raise TypeError
            end
        end in
      match on_existing with
      | Ok r => Ok r
      | Raise _ =>
          imask_data <- attr_data h (imask mm) ;;
          let (h1, rec) := deepcopy h imask_data in
          sel <- get_data imask_data layer inest false true (dmv self) ;;
          match sel with
          | AsMask mask =>
              col <- np.setitem_mask_scalar
                       (map Rec.value imask_data) mask v ;;
              Ok (store h1 rec (set_values imask_data col),
                  set_data_attr self rec)
          | _ => Raise TypeError
          end
      end
  | DRec rec =>
      '(h1, m) <- get_masked mm self h rec ;;
      Ok (h1, set_data_attr self m)
  | DArr arr =>
      if _none then
        _ <- assert (length (shape arr) =? 3) ;;
        '(h1, r) <- _3d2rec mm h arr ;;
        '(h2, m) <- get_masked mm self h1 r ;;
        Ok (h2, set_data_attr self m)
      else Ok (h, self)
  end.

(** [MartheField(field, data, mm, use_imask)] *)
Definition __init__ (read_grid_file : reader) (mm : MartheModel) (h : heap)
  (field : string) (data : data_arg) (use_imask : bool) : res (heap * t) :=
  let self := mk field use_imask module_dmv None 0 0%Z in
  '(h1, self) <- set_data read_grid_file mm self h data None None ;;
  self_data <- attr_data h1 self ;;
  main <- to_grids field self_data None (Some [0]) ;;
  top <- to_grids field self_data (Some [0]) None ;;
  Ok (h1, mk field use_imask module_dmv (data_ref self)
        (length main) (Z.of_nat (length top) - 1)%Z).

(** [self.sample(x, y, layer, masked_values, as_mask, as_idx)] on the
    table [self_data], with the spatial index of the model. *)
Definition sample (index : spatial_index) (self_data : recarray)
  (x y : list Z) (layer : list nat) (masked_values : option (list Z))
  (as_mask as_idx : bool) : res sampled :=
  let _layer :=
    if (length layer =? 1) && (1 <? length x)
    then concat (repeat layer (length x))
    else layer in
  _ <- assert ((length x =? length y) && (length y =? length _layer)) ;;
  let mv := match masked_values with
            | None => []
            | Some mv => mv
            end in
  let idx :=
    concat
      (map (fun p : Z * Z * nat =>
              map hit_node
                (filter (fun hit =>
                           (hit_layer hit =? snd p)
                           && negb (existsb (Z.eqb (hit_last hit)) mv))
                   (index (fst (fst p)) (snd (fst p)))))
         (combine (combine x y) _layer)) in
  mask <- setitem_list (repeat false (length self_data)) idx true ;;
  if as_idx then Ok (AsIdx idx)
  else if as_mask then Ok (SampledMask mask)
  else rec <- np.getitem_mask self_data mask ;; Ok (SampledRec rec).

(** The mask of [set_data_from_parfile] for a layer and a zone: the
    cells of the layer whose value is not a default masked value and
    whose zone, in the table of [izone], is [z].  It comes with the
    reference and the content of the table of the field. *)
Definition zone_mask (h : heap) (self izone : t) (l : list nat) (z : Z)
  : res (loc * recarray * list bool) :=
  match data_ref self with
  | None => Raise AttributeError
  | Some ref =>
      self_data <- load h ref ;;
      sel <- get_data self_data (Some l) None false true module_dmv ;;
      match sel with
      | AsMask m =>
          izone_data <- attr_data h izone ;;
          mask <- logical_and_pair m
                    (map (fun r => (Rec.value r =? z)%Z) izone_data) ;;
          Ok (ref, self_data, mask)
      | _ => Raise TypeError
      end
  end.

(** [self.set_data_from_parfile(parfile, izone, btrans, fmt_lite)]: the
    table of the field is updated in place. *)
Definition set_data_from_parfile (parse : parser) (self izone : t)
  (h : heap) (parfile btrans : string) (fmt_lite : bool) : res heap :=
  parsed <- parse parfile btrans fmt_lite ;;
  match parsed with
  | Zpc rec =>
      foldM (fun h (e : nat * Z * Z) =>
               '(ref, self_data, mask) <-
                 zone_mask h self izone [fst (fst e)] (snd (fst e)) ;;
               col <- np.setitem_mask_scalar
                        (map Rec.value self_data) mask (snd e) ;;
               Ok (store h ref (set_values self_data col)))
            rec h
  | Pp l z v =>
      '(ref, self_data, mask) <- zone_mask h self izone l z ;;
      col <- np.setitem_mask (map Rec.value self_data) mask v ;;
      Ok (store h ref (set_values self_data col))
  | OtherPar => Ok h
  end.

(** [self.as_3darray()] on the table [self_data]; [nnest] is the number
    of nested grids of the model, and [None] for a field without a
    model. *)
Definition as_3darray (nnest : option nat) (self_data : recarray)
  : res selection :=
  let condition :=
    match nnest with
    | None => forallb (fun n => n =? 0) (map Rec.inest self_data)
    | Some n => n =? 0
    end in
  _ <- assert condition ;;
  get_data self_data None (Some [0]) true false [].

End MartheField.

(* ================================================================== *)
(** ** MartheFieldSeries *)

(** A cell of a frame of floats: a number or the missing-value marker. *)
Inductive cell : Type :=
| Num (v : Z)
| NaN.

(** A Python dictionary, in insertion order. *)
Definition dict (K V : Type) : Type := list (K * V).

Fixpoint dict_get {K V : Type} (eqb : K -> K -> bool) (d : dict K V)
  (k : K) : option V :=
  match d with
  | [] => None
  | (k', v) :: d' => if eqb k k' then Some v else dict_get eqb d' k
  end.

Fixpoint dict_set {K V : Type} (eqb : K -> K -> bool) (d : dict K V)
  (k : K) (v : V) : dict K V :=
  match d with
  | [] => [(k, v)]
  | (k', v') :: d' =>
      if eqb k k' then (k, v) :: d' else (k', v') :: dict_set eqb d' k v
  end.

Definition keys {K V : Type} (d : dict K V) : list K := map fst d.

(** [a[::2]] *)
Fixpoint every_other {A : Type} (l : list A) : list A :=
  match l with
  | a :: l' =>
      a :: match l' with
           | _ :: l'' => every_other l''
           | [] => []
           end
  | [] => []
  end.

(** [str(n)] *)
Definition str (n : nat) : string :=
  DecimalString.NilEmpty.string_of_uint (Nat.to_uint n).

Fixpoint zeros (n : nat) : string :=
  match n with
  | 0 => EmptyString
  | S n' => String "0"%char (zeros n')
  end.

(** [s.zfill(width)] of a string of digits *)
Definition zfill (s : string) (width : nat) : string :=
  (zeros (width - String.length s) ++ s)%string.

Module MartheFieldSeries.

(** A row of the index of a simulated field file: one grid of the file,
    with its field, its timestep and its place in the file. *)
Record index_row : Type := mk_row
  { field : string; istep : nat; start : nat; stop : nat }.

(** The file behind [chasim], as the module reads it:
    [marthe_utils.get_chasim_indexer] and [marthe_utils.read_grid_file]
    between two positions. *)
Record stream : Type := mk_stream
  { get_chasim_indexer : string -> list index_row;
    read_grid_file : string -> nat -> nat -> res MartheGrid.t }.

Record t : Type := mk
  { chasim : string;
    indexer : list index_row;
    fields : list string;
    data : dict string (option (dict nat MartheField.t)) }.

Inductive index_key : Type :=
| ByDate (date : Z)
| ByIstep (istep : nat)
| Combined (istep : nat) (date : Z).

(** The frame [get_tseries] returns: one row per timestep, one column per
    node.  [columns] is [None] when the labels are those the model
    derives from the nodes. *)
Record DataFrame : Type := mk_frame
  { index : list index_key;
    columns : option (list string);
    values : list (list cell) }.

Definition data_of (self : t) : dict string (option (dict nat MartheField.t))
  := data self.

(** [MartheFieldSeries(mm, chasim)] *)
Definition __init__ (file : stream) (chasim : string) : t :=
  let indexer := get_chasim_indexer file chasim in
  let fields := pd.unique String.eqb [] (map field indexer) in
  mk chasim indexer fields (map (fun f => (f, None)) fields).

(** [self.check_fieldname(fieldname, raise_error=False)] *)
Definition check_fieldname (self : t) (fieldname : string)
  : res (bool * bool) :=
  let exist_ := existsb (String.eqb fieldname) (fields self) in
  if exist_ then
    match dict_get String.eqb (data self) fieldname with
    | Some d => Ok (exist_, negb (is_none d))
    | None => Raise KeyError
    end
  else Ok (exist_, false).

(** [self.check_fieldname(fieldname)], which raises *)
Definition check_fieldname_raise (self : t) (fieldname : string)
  : res unit :=
  '(exist_, loaded) <- check_fieldname self fieldname ;;
  _ <- assert exist_ ;;
  assert loaded.

Definition set_field (mf : MartheField.t) (name : string) : MartheField.t :=
  MartheField.mk name (MartheField.use_imask mf) (MartheField.dmv mf)
    (MartheField.data mf) (MartheField.maxlayer mf) (MartheField.maxnest mf).

(** The body of the loop of [load_field], for the timestep [i]: a deep
    copy of the active-domain field whose values are those of the grids
    of the timestep. *)
Definition load_step (mm : MartheField.MartheModel) (field : string)
  (digits : nat) (df : list (index_row * MartheGrid.t))
  (acc : heap * dict nat MartheField.t) (i : nat)
  : res (heap * dict nat MartheField.t) :=
  let (h0, mf_dic) := acc in
  let idf :=
    filter (fun p : index_row * MartheGrid.t =>
              MartheFieldSeries.istep (fst p) =? i) df in
  imask_data <- MartheField.attr_data h0 (MartheField.imask mm) ;;
  let (h1, l) := deepcopy h0 imask_data in
  let mf := MartheField.set_data_attr (MartheField.imask mm) l in
  col <- np.setitem_all (map Rec.value imask_data)
           (concat (map (fun p : index_row * MartheGrid.t =>
                           ravel (MartheGrid.array (snd p))) idf)) ;;
  let h2 := store h1 l (set_values imask_data col) in
  let mf := set_field mf (field ++ "_" ++ zfill (str i) digits) in
  Ok (h2, dict_set Nat.eqb mf_dic i mf).

(** [self.load_field(field, istep)] *)
Definition load_field (file : stream) (mm : MartheField.MartheModel)
  (self : t) (h : heap) (field : string) (istep : option (list nat))
  : res (heap * t) :=
  '(exist_, _) <- check_fieldname self field ;;
  _ <- assert exist_ ;;
  let available_isteps :=
    pd.unique Nat.eqb []
      (map MartheFieldSeries.istep
         (filter (fun r => String.eqb (MartheFieldSeries.field r) field)
            (indexer self))) in
  let isteps :=
    match istep with
    | None => available_isteps
    | Some l => filter (fun i => existsb (Nat.eqb i) available_isteps) l
    end in
  top <- np.max isteps ;;
  let digits := String.length (str top) in
  let df :=
    filter (fun r => String.eqb (MartheFieldSeries.field r) field
                     && existsb (Nat.eqb (MartheFieldSeries.istep r)) isteps)
      (indexer self) in
  mg <- mapM (fun r => read_grid_file file (chasim self) (start r) (stop r))
          df ;;
  let df := combine df mg in
  '(h', mf_dic) <-
    foldM (load_step mm field digits df)
          (np.unique Nat.ltb
             (map (fun p : index_row * MartheGrid.t =>
                     MartheFieldSeries.istep (fst p)) df))
          (h, []) ;;
  Ok (h', mk (chasim self) (indexer self) (fields self)
            (dict_set String.eqb (data self) field (Some mf_dic))).

(** [df.replace(masked_values, np.nan)] on one cell *)
Definition replace (masked_values : list Z) (v : Z) : cell :=
  if existsb (Z.eqb v) masked_values then NaN else Num v.

(** [self.get_tseries(field, x, y, layer, names, index, masked_values)];
    [masked_values] is [None] when the caller leaves the default.  The
    result is [None] for an [index] that is none of the three kinds. *)
Definition get_tseries (mm : MartheField.MartheModel) (self : t) (h : heap)
  (field : string) (x y : list Z) (layer : list nat)
  (names : option (list string)) (index : string)
  (masked_values : option (list Z)) : res (option DataFrame) :=
  let masked_values :=
    match masked_values with
    | None => every_other dmv
    | Some mv => mv
    end in
  _ <- check_fieldname_raise self field ;;
  let _layer :=
    if (length layer =? 1) && (1 <? length x)
    then concat (repeat layer (length x))
    else layer in
  let nodes := MartheField.get_node mm x y _layer in
  match dict_get String.eqb (data self) field with
  | Some (Some loaded) =>
      rows <- mapM (fun p : nat * MartheField.t =>
                      self_data <- MartheField.attr_data h (snd p) ;;
                      recs <- np.take self_data nodes ;;
                      Ok (map Rec.value recs)) loaded ;;
      _ <- match names with
           | Some _names =>
               if negb (is_nil rows) && negb (length _names =? length nodes)
               then Raise ValueError else Ok tt
           | None => Ok tt
           end ;;
      _ <- (if is_nil loaded then Raise TypeError else Ok tt) ;;
      let tuples :=
        map (fun istep => (istep, MartheField.mldates mm istep))
          (keys loaded) in
      let replaced := map (map (replace masked_values)) rows in
      if String.eqb index "date" then
        Ok (Some (mk_frame (map (fun p => ByDate (snd p)) tuples)
                    names replaced))
      else if String.eqb index "istep" then
        Ok (Some (mk_frame (map (fun p => ByIstep (fst p)) tuples)
                    names replaced))
      else if String.eqb index "combined" then
        Ok (Some (mk_frame (map (fun p => Combined (fst p) (snd p)) tuples)
                    names replaced))
      else Ok None
  | _ => Raise KeyError
  end.

End MartheFieldSeries.

(* ================================================================== *)
(** ** Predicates of the statements *)

(** Strictly ascending for the order [ltb]: what [np.unique] returns. *)
Definition ascending {A : Type} (ltb : A -> A -> bool) (l : list A) : Prop :=
  StronglySorted (fun a b => ltb a b = true) l.

(** The layers and nests [get_data] selects for its arguments. *)
Definition selected (col : list nat) (arg : option (list nat)) : list nat :=
  match arg with
  | None => np.unique Nat.ltb col
  | Some l => l
  end.

(** The test of [get_data] on one record: its layer and its nest are
    selected and its value is not masked. *)
Definition keeps (layers inests : list nat) (mv : list Z) (r : Rec.t)
  : bool :=
  existsb (Nat.eqb (Rec.layer r)) layers
  && existsb (Nat.eqb (Rec.inest r)) inests
  && negb (existsb (Z.eqb (Rec.value r)) mv).

(** The records of one (layer, inest) group, in storage order. *)
Definition group (data : recarray) (l n : nat) : recarray :=
  filter (fun r => Rec.inest r =? n) (filter (fun r => Rec.layer r =? l) data).

(** The largest element of a column of indices (0 for no element). *)
Definition top (col : list nat) : nat := fold_right Nat.max 0 col.

(** The key of a record: the table has one record per (layer, inest,
    row, col). *)
Definition cell_key (r : Rec.t) : nat * nat * nat * nat :=
  (Rec.layer r, Rec.inest r, Rec.i r, Rec.j r).

Definition unique_cells (data : recarray) : Prop := NoDup (map cell_key data).

(** A group is a complete rectangle: it has a record, and one for every
    cell up to its largest row and column. *)
Definition complete (g : recarray) : Prop :=
  g <> [] /\
  forall r c, r <= top (map Rec.i g) -> c <= top (map Rec.j g) ->
    exists rec, In rec g /\ Rec.i rec = r /\ Rec.j rec = c.

(** [a] is the group [g] reshaped to (max row + 1, max col + 1): the
    values of the group in storage order, and nothing else. *)
Definition reshaped (g : recarray) (a : array2d) : Prop :=
  a_nrow a = top (map Rec.i g) + 1 /\
  a_ncol a = top (map Rec.j g) + 1 /\
  ravel a = map Rec.value g.

(* ================================================================== *)
(** ** Example data *)

Module Examples.

Definition R (l n r c : nat) (x y v : Z) : Rec.t := Rec.mk l n r c x y v.

(** A single layer of two rows and two columns; the cell (1, 0) is
    outside the active domain. *)
Definition imask_2x2 : recarray :=
  [ R 0 0 0 0 5 15 1; R 0 0 0 1 15 15 1;
    R 0 0 1 0 5 5 0;  R 0 0 1 1 15 5 1 ]%Z.

(** Values on the same four cells; one of them is a masked value. *)
Definition table_2x2 : recarray :=
  [ R 0 0 0 0 5 15 3; R 0 0 0 1 15 15 9999;
    R 0 0 1 0 5 5 7;  R 0 0 1 1 15 5 4 ]%Z.

(** A table of a single record. *)
Definition table_1 : recarray := [ R 0 0 0 0 5 15 3 ]%Z.

(** The active-domain field of the model, its table at location 0. *)
Definition imask_field : MartheField.t :=
  MartheField.mk "imask" true dmv (Some 0) 1 0%Z.

Definition mm : MartheField.MartheModel :=
  MartheField.mk_model imask_field (fun _ _ _ => [0; 2])
    (fun istep => Z.of_nat istep).

(** A field masked by the active domain, before its data is set. *)
Definition permh : MartheField.t :=
  MartheField.mk "permh" true dmv None 0 0%Z.

(** The same field, not masked. *)
Definition permh_free : MartheField.t :=
  MartheField.mk "permh" false dmv None 0 0%Z.

Definition heap0 : heap := [imask_2x2; table_2x2; table_1].

(** Two complete blocks of two rows and two columns: layer 0 of the main
    grid and layer 1 of nest 1.  Layer 1 of the main grid and layer 0 of
    the nest have no record. *)
Definition table_diag : recarray :=
  [ R 0 0 0 0 5 15 1; R 0 0 0 1 15 15 2;
    R 0 0 1 0 5 5 3;  R 0 0 1 1 15 5 4;
    R 1 1 0 0 5 15 5; R 1 1 0 1 15 15 6;
    R 1 1 1 0 5 5 7;  R 1 1 1 1 15 5 8 ]%Z.

(** The records of [table_2x2] stored column by column. *)
Definition table_by_columns : recarray :=
  [ R 0 0 0 0 5 15 3;     R 0 0 1 0 5 5 7;
    R 0 0 0 1 15 15 9999; R 0 0 1 1 15 5 4 ]%Z.

(** A single row of three cells. *)
Definition table_1x3 : recarray :=
  [ R 0 0 0 0 5 15 1; R 0 0 0 1 15 15 2; R 0 0 0 2 25 15 3 ]%Z.

(** The grid of [table_2x2], and a reader that finds it in every file. *)
Definition grid_2x2 : MartheGrid.t :=
  MartheGrid.mk (-9999) 0 0 2 2 0 0 [10; 10]%Q [10; 10]%Q
    [5; 15]%Z [15; 5]%Z (mk_array2d 2 2 [3; 9999; 7; 4]%Z) "permh".

Definition files : MartheField.reader := fun _ => Ok [grid_2x2].

(** A simulated field file with two timesteps, 2 and 5, of the field
    CHARGE, each one grid of two rows and two columns. *)
Definition charge_grid (vals : list Z) : MartheGrid.t :=
  MartheGrid.mk 0 0 0 2 2 0 0 [10; 10]%Q [10; 10]%Q
    [5; 15]%Z [15; 5]%Z (mk_array2d 2 2 vals) "CHARGE".

Definition chasim : MartheFieldSeries.stream :=
  MartheFieldSeries.mk_stream
    (fun _ => [ MartheFieldSeries.mk_row "CHARGE" 2 0 10;
                MartheFieldSeries.mk_row "CHARGE" 5 10 20 ])
    (fun _ start _ =>
       if start =? 0 then Ok (charge_grid [0; 2; -9999; 4]%Z)
       else Ok (charge_grid [5; 6; 9999; 8]%Z)).

Definition mfs : MartheFieldSeries.t :=
  MartheFieldSeries.__init__ chasim "chasim.out".

(** A masked field whose table is the array at location 1. *)
Definition permh_loaded : MartheField.t :=
  MartheField.mk "permh" true dmv (Some 1) 1 0%Z.

(** The series once the field CHARGE is loaded, with the heap the
    loading leaves. *)
Definition charge_loaded : heap * MartheFieldSeries.t :=
  match MartheFieldSeries.load_field chasim mm mfs heap0 "CHARGE" None with
  | Ok r => r
  | Raise _ => (heap0, mfs)
  end.

(** A spatial index over the four cells: a point in the upper half hits
    node 1, in layer 0, any other point node 2; the last entry of each
    object is the active-domain value of the cell. *)
Definition index_2x2 : spatial_index :=
  fun _ y => if (10 <? y)%Z then [mk_hit 1 0 1] else [mk_hit 2 0 0].

(** A parser that finds one record in every file: the value 50 for the
    zone 1 of layer 0. *)
Definition parse_zones : parser :=
  fun _ _ _ => Ok (Zpc [(0, 1%Z, 50%Z)]).

(** A group with two records for the cell (0, 0) and none for the cell
    (1, 1). *)
Definition table_hole : recarray :=
  [ R 0 0 0 0 5 15 1; R 0 0 0 0 5 15 2;
    R 0 0 0 1 15 15 3; R 0 0 1 0 5 5 4 ]%Z.

(** A main grid of two rows and three columns and, in the same layer, a
    nested grid of two rows and two columns. *)
Definition table_ragged : recarray :=
  [ R 0 0 0 0 5 15 1; R 0 0 0 1 15 15 2; R 0 0 0 2 25 15 3;
    R 0 0 1 0 5 5 4;  R 0 0 1 1 15 5 5;  R 0 0 1 2 25 5 6;
    R 0 1 0 0 6 14 7; R 0 1 0 1 8 14 8;
    R 0 1 1 0 6 12 9; R 0 1 1 1 8 12 10 ]%Z.

End Examples.

(** The table [get_masked] builds for a model dependent field: the
    active-domain table [ref], with the value of [rec] wherever the value
    of [ref] is not a masked value. *)
Definition masked (mv : list Z) (ref rec : recarray) : recarray :=
  map (fun p : Rec.t * Rec.t =>
         if existsb (Z.eqb (Rec.value (fst p))) mv then fst p
         else Rec.set_value (fst p) (Rec.value (snd p)))
      (combine ref rec).

(** The table a call returns, looked up in the heap it leaves. *)
Definition contents (c : res (heap * loc)) : res recarray :=
  '(h, l) <- c ;; load h l.

(** The invariant of a field masked by the active domain: its table, once
    set, has the row count and the geometry columns of the active-domain
    table of the model. *)
Definition domain_bound (mm : MartheField.MartheModel) (h : heap)
  (self : MartheField.t) : Prop :=
  match MartheField.data_ref self with
  | None => True
  | Some l =>
      exists t ref,
        load h l = Ok t /\
        MartheField.attr_data h (MartheField.imask mm) = Ok ref /\
        geometry t = geometry ref /\
        length t = length ref
  end.

(** The calls of [set_data] that assign or update the table: a number or
    a record array always, the other kinds of data without [layer] and
    [inest]. *)
Definition sets_table (data : data_arg) (layer inest : option (list nat))
  : Prop :=
  match data with
  | DNum _ | DRec _ => True
  | _ => layer = None /\ inest = None
  end.

(** The order of the pairs (inest, layer): nest first, then layer. *)
Definition pair_ltb (p q : nat * nat) : bool :=
  (fst p <? fst q) || ((fst p =? fst q) && (snd p <? snd q)).

(** The (inest, layer) pair of a grid. *)
Definition grid_key (mg : MartheGrid.t) : nat * nat :=
  (MartheGrid.inest mg, MartheGrid.layer mg).

(** A grid that [to_grids] can read back from its records: at least two
    rows and two columns (the gradient of a single coordinate does not
    exist), an array and coordinate vectors of the announced shape, x
    strictly increasing along the columns and y strictly decreasing
    along the rows. *)
Definition regular_grid (mg : MartheGrid.t) : Prop :=
  2 <= MartheGrid.nrow mg /\
  2 <= MartheGrid.ncol mg /\
  a_nrow (MartheGrid.array mg) = MartheGrid.nrow mg /\
  a_ncol (MartheGrid.array mg) = MartheGrid.ncol mg /\
  length (ravel (MartheGrid.array mg))
  = MartheGrid.nrow mg * MartheGrid.ncol mg /\
  length (MartheGrid.xcc mg) = MartheGrid.ncol mg /\
  length (MartheGrid.ycc mg) = MartheGrid.nrow mg /\
  ascending Z.ltb (MartheGrid.xcc mg) /\
  ascending Z.ltb (rev (MartheGrid.ycc mg)).

(** A table in the layout of the grid expansion: the records of one
    regular grid for every combination of its nest ids [ns] and its
    layer ids [ls], nests ascending and, within a nest, layers ascending,
    each block row by row. *)
Definition canonical (table : recarray) : Prop :=
  exists (grids : list MartheGrid.t) (ns ls : list nat),
    ns <> [] /\ ls <> [] /\
    ascending Nat.ltb ns /\ ascending Nat.ltb ls /\
    map grid_key grids = list_prod ns ls /\
    Forall regular_grid grids /\
    table = concat (map MartheGrid.records grids).

(** The grid [_rec2grid] rebuilds from the records of [mg]: [mg] up to
    its origin and spacings, which the gradient recomputes. *)
Definition same_cells (mg mg' : MartheGrid.t) : Prop :=
  MartheGrid.layer mg' = MartheGrid.layer mg /\
  MartheGrid.inest mg' = MartheGrid.inest mg /\
  MartheGrid.nrow mg' = MartheGrid.nrow mg /\
  MartheGrid.ncol mg' = MartheGrid.ncol mg /\
  MartheGrid.xcc mg' = MartheGrid.xcc mg /\
  MartheGrid.ycc mg' = MartheGrid.ycc mg /\
  MartheGrid.array mg' = MartheGrid.array mg.

(** [h'] keeps every array of [h] unchanged and may hold new ones. *)
Definition extends (h h' : heap) : Prop := exists ext, h' = h ++ ext.

(** The references to the tables of the fields of a dictionary. *)
Definition table_refs {K : Type} (d : dict K MartheField.t)
  : list (option loc) :=
  map (fun p => MartheField.data_ref (snd p)) d.

(** The tables of a dictionary of fields are distinct arrays, all of
    them allocated after the heap had [n] arrays and present in [h]. *)
Definition fresh_tables {K : Type} (n : nat) (h : heap)
  (d : dict K MartheField.t) : Prop :=
  NoDup (table_refs d) /\
  forall o, In o (table_refs d) ->
    exists l, o = Some l /\ n <= l /\ l < length h.

(** The timesteps of a field in the index of the file, and those
    [load_field] retains for a request. *)
Definition available_isteps (self : MartheFieldSeries.t) (field : string)
  : list nat :=
  pd.unique Nat.eqb []
    (map MartheFieldSeries.istep
       (filter (fun r => String.eqb (MartheFieldSeries.field r) field)
          (MartheFieldSeries.indexer self))).

Definition retained_isteps (self : MartheFieldSeries.t) (field : string)
  (istep : option (list nat)) : list nat :=
  match istep with
  | None => available_isteps self field
  | Some l =>
      filter (fun i => existsb (Nat.eqb i) (available_isteps self field)) l
  end.

(** The [masked_values] in force in a call of [get_tseries]. *)
Definition masked_values_of (masked_values : option (list Z)) : list Z :=
  match masked_values with
  | None => every_other dmv
  | Some mv => mv
  end.

(** The nodes [get_tseries] samples. *)
Definition nodes_of (mm : MartheField.MartheModel) (x y : list Z)
  (layer : list nat) : list nat :=
  MartheField.get_node mm x y
    (if (length layer =? 1) && (1 <? length x)
     then concat (repeat layer (length x)) else layer).

(** The table after a number [v] is set on the selection: [v] in every
    record that [get_data] keeps for the selection and the masked values,
    the other records as they were. *)
Definition scalar_set (layer inest : option (list nat)) (mv : list Z)
  (v : Z) (data : recarray) : recarray :=
  map (fun r =>
         if keeps (selected (map Rec.layer data) layer)
                  (selected (map Rec.inest data) inest) mv r
         then Rec.set_value r v else r) data.

(** The coordinates of [l] are evenly spaced: each is the one before it
    plus [d]. *)
Fixpoint evenly (d : Z) (l : list Z) : Prop :=
  match l with
  | a :: l' =>
      match l' with
      | b :: _ => (b - a)%Z = d /\ evenly d l'
      | [] => True
      end
  | [] => True
  end.

(** The rows of the index of the file for a field at a timestep. *)
Definition step_rows (self : MartheFieldSeries.t) (field : string) (i : nat)
  : list MartheFieldSeries.index_row :=
  filter (fun r => String.eqb (MartheFieldSeries.field r) field
                   && (MartheFieldSeries.istep r =? i))
    (MartheFieldSeries.indexer self).

(** The values of the grids of a timestep, one grid after the other. *)
Definition step_values (df : list (MartheFieldSeries.index_row * MartheGrid.t))
  (i : nat) : list Z :=
  concat (map (fun p : MartheFieldSeries.index_row * MartheGrid.t =>
                 ravel (MartheGrid.array (snd p)))
            (filter (fun p : MartheFieldSeries.index_row * MartheGrid.t =>
                       MartheFieldSeries.istep (fst p) =? i) df)).

(** An entry of the dictionary [load_field] builds: the field of a
    timestep, named after it, whose table is the active-domain table
    [ref] with the values of the grids of the timestep. *)
Definition loaded_table (mm : MartheField.MartheModel) (field : string)
  (digits : nat) (df : list (MartheFieldSeries.index_row * MartheGrid.t))
  (ref : recarray) (h : heap) (p : nat * MartheField.t) : Prop :=
  exists col,
    np.setitem_all (map Rec.value ref) (step_values df (fst p)) = Ok col /\
    MartheField.attr_data h (snd p) = Ok (set_values ref col) /\
    MartheField.field (snd p)
    = (field ++ "_" ++ zfill (str (fst p)) digits)%string /\
    MartheField.use_imask (snd p)
    = MartheField.use_imask (MartheField.imask mm) /\
    MartheField.dmv (snd p) = MartheField.dmv (MartheField.imask mm).

(** The rows of the main grid (nest 0) of a layer, as a mask over a
    table. *)
Definition main_mask (ref : recarray) (l : nat) : list bool :=
  map (fun r => (Rec.layer r =? l) && (Rec.inest r =? 0)) ref.

(** The nodes [sample] finds: for each point, in the order of the
    points, the nodes of the objects of the spatial index at the point
    that are in the layer of the point and whose last entry is not a
    masked value. *)
Definition sample_hits (index : spatial_index) (x y : list Z)
  (layer : list nat) (masked_values : option (list Z)) : list nat :=
  concat
    (map (fun p : Z * Z * nat =>
            map hit_node
              (filter (fun hit =>
                         (hit_layer hit =? snd p)
                         && negb (existsb (Z.eqb (hit_last hit))
                                    match masked_values with
                                    | None => []
                                    | Some mv => mv
                                    end))
                 (index (fst (fst p)) (snd (fst p)))))
       (combine (combine x y)
          (if (length layer =? 1) && (1 <? length x)
           then concat (repeat layer (length x)) else layer))).

(** The layers of the points of [sample], a single layer standing for
    all the points. *)
Definition point_layers (x : list Z) (layer : list nat) : list nat :=
  if (length layer =? 1) && (1 <? length x)
  then concat (repeat layer (length x)) else layer.

(** One record of a zone file applied to a cell [r] whose zone record is
    [zr]: the value [v] if the cell is in the layer [l], its value is
    not a default masked value and its zone is [z]. *)
Definition zone_step (l : nat) (z v : Z) (r zr : Rec.t) : Rec.t :=
  if (Rec.layer r =? l)
     && negb (existsb (Z.eqb (Rec.value r)) dmv)
     && (Rec.value zr =? z)%Z
  then Rec.set_value r v else r.

(** The records of a zone file applied to a cell, one after the other. *)
Definition zoned (rows : list (nat * Z * Z)) (r zr : Rec.t) : Rec.t :=
  fold_left (fun cur (e : nat * Z * Z) =>
               zone_step (fst (fst e)) (snd (fst e)) (snd e) cur zr)
    rows r.

(** A coordinate in the range where the float64 arithmetic of the
    source is exact on integers and their halves: sums, differences and
    halves of such coordinates are computed without rounding. *)
Definition exact_range (c : Z) : Prop := (Z.abs c <= 2 ^ 50)%Z.

(** The position of the first occurrence of [f] in [names] (their
    number when there is none). *)
Fixpoint first_pos (f : string) (names : list string) : nat :=
  match names with
  | [] => 0
  | a :: names' => if String.eqb f a then 0 else S (first_pos f names')
  end.

(* ================================================================== *)
(** * Properties *)

(** ** Results *)

Lemma bind_Ok {A B : Type} (c : res A) (k : A -> res B) (b : B) :
  bind c k = Ok b -> exists a, c = Ok a /\ k a = Ok b.
Proof.
  destruct c as [a|e]; simpl; intros H; [eauto | discriminate].
Qed.

Lemma assert_Ok (b : bool) (u : unit) : assert b = Ok u -> b = true.
Proof. destruct b; simpl; [reflexivity | discriminate]. Qed.

(** Splits a hypothesis [bind c k = Ok b] into the two steps. *)
Ltac inv_bind H :=
  let a := fresh "a" in
  let Ha := fresh "Hstep" in
  apply bind_Ok in H; destruct H as (a & Ha & H); cbn beta in H.

Tactic Notation "inv_bind_as" hyp(H) ident(x) ident(Hx) :=
  apply bind_Ok in H; destruct H as (x & Hx & H); cbn beta in H.

Lemma mapM_Ok_Forall2 {A B : Type} (f : A -> res B) (l : list A)
  (bs : list B) :
  mapM f l = Ok bs -> Forall2 (fun a b => f a = Ok b) l bs.
Proof.
  revert bs; induction l as [|a l IH]; simpl; intros bs H.
  - injection H as <-. constructor.
  - inv_bind H. inv_bind H. injection H as <-.
    constructor; auto.
Qed.

Lemma mapM_Ok_map {A B : Type} (f : A -> res B) (g : A -> B) (l : list A) :
  (forall a, In a l -> f a = Ok (g a)) -> mapM f l = Ok (map g l).
Proof.
  induction l as [|a l IH]; simpl; intros H; [reflexivity|].
  rewrite (H a) by auto. simpl. rewrite IH by auto. reflexivity.
Qed.

Lemma mapM_Raise_In {A B : Type} (f : A -> res B) (l : list A) (a : A) :
  In a l -> is_ok (f a) = false -> is_ok (mapM f l) = false.
Proof.
  induction l as [|a' l IH]; simpl; intros Hin Hf; [contradiction|].
  destruct Hin as [->|Hin].
  - destruct (f a); [discriminate | reflexivity].
  - destruct (f a'); simpl; [|reflexivity].
    specialize (IH Hin Hf). destruct (mapM f l); [discriminate | reflexivity].
Qed.

Lemma Forall2_map_eq {A B C : Type} (f : A -> C) (g : B -> C)
  (l : list A) (l' : list B) :
  Forall2 (fun a b => g b = f a) l l' -> map g l' = map f l.
Proof. induction 1; simpl; congruence. Qed.

(** ** [np.unique] *)

Section Unique.

Context {A : Type} (ltb : A -> A -> bool).
Hypothesis ltb_irrefl : forall a, ltb a a = false.
Hypothesis ltb_trans :
  forall a b c, ltb a b = true -> ltb b c = true -> ltb a c = true.
Hypothesis ltb_total :
  forall a b, ltb a b = false -> ltb b a = false -> a = b.

Lemma In_insert_unique (a x : A) (l : list A) :
  In x (np.insert_unique ltb a l) <-> x = a \/ In x l.
Proof.
  induction l as [|b l IH]; simpl.
  - intuition auto.
  - destruct (ltb a b) eqn:Hab; simpl; [intuition auto|].
    destruct (ltb b a) eqn:Hba; simpl.
    + rewrite IH. intuition auto.
    + assert (a = b) by auto. subst. intuition auto.
Qed.

Lemma In_unique (x : A) (l : list A) : In x (np.unique ltb l) <-> In x l.
Proof.
  induction l as [|a l IH]; simpl; [reflexivity|].
  rewrite In_insert_unique, IH. intuition auto.
Qed.

Lemma ascending_insert_unique (a : A) (l : list A) :
  ascending ltb l -> ascending ltb (np.insert_unique ltb a l).
Proof.
  unfold ascending. induction 1 as [|b l Hs IH Hb]; simpl.
  - repeat constructor.
  - destruct (ltb a b) eqn:Hab.
    + constructor; [constructor; assumption|].
      constructor; [assumption|].
      rewrite Forall_forall in Hb |- *. eauto.
    + destruct (ltb b a) eqn:Hba.
      * constructor; [assumption|].
        rewrite Forall_forall in Hb |- *. intros x Hx.
        apply In_insert_unique in Hx. destruct Hx as [->|Hx]; auto.
      * constructor; assumption.
Qed.

Lemma ascending_unique (l : list A) : ascending ltb (np.unique ltb l).
Proof.
  induction l as [|a l IH]; simpl.
  - constructor.
  - apply ascending_insert_unique, IH.
Qed.

Lemma ascending_NoDup (l : list A) : ascending ltb l -> NoDup l.
Proof.
  induction 1 as [|a l Hs IH Ha]; constructor; auto.
  intros Hin. rewrite Forall_forall in Ha.
  specialize (Ha a Hin). rewrite ltb_irrefl in Ha. discriminate.
Qed.

(** Two ascending lists with the same elements are the same list. *)
Lemma ascending_ext (l l' : list A) :
  ascending ltb l -> ascending ltb l' -> (forall x, In x l <-> In x l') -> l = l'.
Proof.
  intros Hl; revert l'.
  induction Hl as [|a l Hs IH Ha]; intros l' Hl' Hin.
  - destruct l' as [|b l']; [reflexivity|].
    destruct (proj2 (Hin b)); simpl; auto.
  - destruct Hl' as [|b l' Hs' Hb].
    + destruct (proj1 (Hin a)); simpl; auto.
    + rewrite Forall_forall in Ha, Hb.
      assert (a = b) as <-.
      { destruct (proj1 (Hin a)) as [E|E]; simpl; auto.
        destruct (proj2 (Hin b)) as [E'|E']; simpl; auto.
        specialize (Hb a E). specialize (Ha b E').
        pose proof (ltb_trans _ _ _ Ha Hb) as F.
        rewrite ltb_irrefl in F. discriminate. }
      f_equal. apply IH; [assumption|].
      intros x. split; intros Hx.
      * destruct (proj1 (Hin x)) as [E|E]; simpl; auto.
        subst x. specialize (Ha a Hx).
        rewrite ltb_irrefl in Ha. discriminate.
      * destruct (proj2 (Hin x)) as [E|E]; simpl; auto.
        subst x. specialize (Hb a Hx).
        rewrite ltb_irrefl in Hb. discriminate.
Qed.

(** [np.unique] of a column is the ascending list of its elements. *)
Lemma unique_ascending_eq (col l : list A) :
  ascending ltb l -> (forall x, In x col <-> In x l) -> np.unique ltb col = l.
Proof.
  intros Hl Hin. apply ascending_ext; auto using ascending_unique.
  intros x. rewrite In_unique. apply Hin.
Qed.

End Unique.

Lemma nat_ltb_irrefl (a : nat) : (a <? a) = false.
Proof. apply Nat.ltb_irrefl. Qed.

Lemma nat_ltb_trans (a b c : nat) :
  (a <? b) = true -> (b <? c) = true -> (a <? c) = true.
Proof. rewrite !Nat.ltb_lt. lia. Qed.

Lemma nat_ltb_total (a b : nat) :
  (a <? b) = false -> (b <? a) = false -> a = b.
Proof. rewrite !Nat.ltb_ge. lia. Qed.

Lemma Z_ltb_irrefl (a : Z) : (a <? a)%Z = false.
Proof. apply Z.ltb_irrefl. Qed.

Lemma Z_ltb_trans (a b c : Z) :
  (a <? b)%Z = true -> (b <? c)%Z = true -> (a <? c)%Z = true.
Proof. rewrite !Z.ltb_lt. lia. Qed.

Lemma Z_ltb_total (a b : Z) :
  (a <? b)%Z = false -> (b <? a)%Z = false -> a = b.
Proof. rewrite !Z.ltb_ge. lia. Qed.

Lemma In_unique_nat (x : nat) (l : list nat) :
  In x (np.unique Nat.ltb l) <-> In x l.
Proof. apply In_unique, nat_ltb_total. Qed.

Lemma existsb_eqb_nat (a : nat) (l : list nat) :
  existsb (Nat.eqb a) l = true <-> In a l.
Proof.
  rewrite existsb_exists. split.
  - intros (x & Hx & E). apply Nat.eqb_eq in E. congruence.
  - intros H. exists a. split; [assumption | apply Nat.eqb_refl].
Qed.

Lemma existsb_eqb_Z (a : Z) (l : list Z) :
  existsb (Z.eqb a) l = true <-> In a l.
Proof.
  rewrite existsb_exists. split.
  - intros (x & Hx & E). apply Z.eqb_eq in E. congruence.
  - intros H. exists a. split; [assumption | apply Z.eqb_refl].
Qed.

(** ** Masks and selections *)

Lemma logical_and_map {A : Type} (f g : A -> bool) (l : list A) :
  np.logical_and (map f l) (map g l) = map (fun a => f a && g a) l.
Proof.
  unfold np.logical_and. induction l as [|a l IH]; simpl; congruence.
Qed.

Lemma select_map {A : Type} (f : A -> bool) (l : list A) :
  np.select l (map f l) = filter f l.
Proof.
  induction l as [|a l IH]; simpl; [reflexivity|].
  destruct (f a); congruence.
Qed.

Lemma filter_true {A : Type} (keep : A -> bool) (rows : list A) :
  (forall r, In r rows -> keep r = true) -> filter keep rows = rows.
Proof.
  induction rows as [|r rows IH]; simpl; intros H; [reflexivity|].
  rewrite (H r) by auto. f_equal. auto.
Qed.

Lemma filter_false {A : Type} (keep : A -> bool) (rows : list A) :
  (forall r, In r rows -> keep r = false) -> filter keep rows = [].
Proof.
  induction rows as [|r rows IH]; simpl; intros H; [reflexivity|].
  rewrite (H r) by auto. auto.
Qed.

Lemma get_data_mask_eq (data : recarray) (layer inest : option (list nat))
  (mv : list Z) :
  np.logical_and_reduce
    [ np.isin Nat.eqb (map Rec.layer data)
        (selected (map Rec.layer data) layer);
      np.isin Nat.eqb (map Rec.inest data)
        (selected (map Rec.inest data) inest);
      np.logical_not (np.isin Z.eqb (map Rec.value data) mv) ]
  = map (keeps (selected (map Rec.layer data) layer)
               (selected (map Rec.inest data) inest) mv) data.
Proof.
  unfold np.logical_and_reduce, np.isin, np.logical_not. simpl.
  rewrite !map_map.
  rewrite (logical_and_map
             (fun r => existsb (Nat.eqb (Rec.layer r)) _)
             (fun r => existsb (Nat.eqb (Rec.inest r)) _)).
  rewrite (logical_and_map
             (fun r => existsb (Nat.eqb (Rec.layer r)) _
                       && existsb (Nat.eqb (Rec.inest r)) _)
             (fun r => negb (existsb (Z.eqb (Rec.value r)) mv))).
  reflexivity.
Qed.

(** [get_data] with [as_mask]: the mask, record by record. *)
Lemma get_data_as_mask (data : recarray) (layer inest : option (list nat))
  (as_array : bool) (mv : list Z) :
  MartheField.get_data data layer inest as_array true mv
  = Ok (AsMask (map (keeps (selected (map Rec.layer data) layer)
                           (selected (map Rec.inest data) inest) mv) data)).
Proof.
  unfold MartheField.get_data.
  change (match layer with
          | Some l => l
          | None => np.unique Nat.ltb (map Rec.layer data)
          end) with (selected (map Rec.layer data) layer).
  change (match inest with
          | Some n => n
          | None => np.unique Nat.ltb (map Rec.inest data)
          end) with (selected (map Rec.inest data) inest).
  cbv zeta. rewrite get_data_mask_eq. reflexivity.
Qed.

(** [get_data] returning records: those the mask keeps. *)
Lemma get_data_as_rec (data : recarray) (layer inest : option (list nat))
  (mv : list Z) :
  MartheField.get_data data layer inest false false mv
  = Ok (AsRec (filter (keeps (selected (map Rec.layer data) layer)
                             (selected (map Rec.inest data) inest) mv) data)).
Proof.
  unfold MartheField.get_data.
  change (match layer with
          | Some l => l
          | None => np.unique Nat.ltb (map Rec.layer data)
          end) with (selected (map Rec.layer data) layer).
  change (match inest with
          | Some n => n
          | None => np.unique Nat.ltb (map Rec.inest data)
          end) with (selected (map Rec.inest data) inest).
  cbv zeta. rewrite get_data_mask_eq.
  unfold np.getitem_mask. rewrite length_map, Nat.eqb_refl. simpl.
  rewrite select_map. reflexivity.
Qed.

(** [get_data] with [as_array]: one dense array per selected layer and
    nest, layers outermost. *)
Lemma get_data_as_array (data : recarray) (layer inest : option (list nat))
  (mv : list Z) :
  MartheField.get_data data layer inest true false mv
  = (arrays <- mapM (fun l =>
                 mapM (fun n =>
                         MartheField.dense
                           (filter (fun r => Rec.layer r =? l) data) n)
                      (selected (map Rec.inest data) inest))
                 (selected (map Rec.layer data) layer) ;;
     stacked <- np.array (concat arrays) ;;
     Ok (AsArray stacked)).
Proof. reflexivity. Qed.

(** [np.array] returns the list it is given, exactly when all its arrays
    have one shape. *)
Lemma array_Ok (arrays stacked : list array2d) :
  np.array arrays = Ok stacked ->
  stacked = arrays /\
  forall a b, In a arrays -> In b arrays ->
    a_nrow a = a_nrow b /\ a_ncol a = a_ncol b.
Proof.
  unfold np.array. destruct arrays as [|a0 rest]; [intros [= <-]; split;
    [reflexivity | intros a b []]|].
  destruct (forallb _ rest) eqn:E; [|discriminate].
  intros [= <-]. split; [reflexivity|].
  assert (H : forall b, In b (a0 :: rest) ->
                        a_nrow b = a_nrow a0 /\ a_ncol b = a_ncol a0).
  { intros b [<-|Hb]; [auto|].
    rewrite forallb_forall in E. specialize (E b Hb).
    apply andb_true_iff in E. destruct E as (E1 & E2).
    apply Nat.eqb_eq in E1, E2. auto. }
  intros a b Ha Hb. destruct (H a Ha), (H b Hb). split; congruence.
Qed.

Lemma array_same_shape (arrays : list array2d) :
  (forall a b, In a arrays -> In b arrays ->
     a_nrow a = a_nrow b /\ a_ncol a = a_ncol b) ->
  np.array arrays = Ok arrays.
Proof.
  intros H. unfold np.array. destruct arrays as [|a0 rest]; [reflexivity|].
  assert (E : forallb (fun b => (a_nrow b =? a_nrow a0)
                                && (a_ncol b =? a_ncol a0)) rest = true).
  { apply forallb_forall. intros b Hb.
    destruct (H b a0 (or_intror Hb) (or_introl eq_refl)) as (E1 & E2).
    rewrite E1, E2, !Nat.eqb_refl. reflexivity. }
  rewrite E. reflexivity.
Qed.

Lemma array_Raise (arrays : list array2d) (e : exn) :
  np.array arrays = Raise e -> e = ValueError.
Proof.
  unfold np.array. destruct arrays as [|a0 rest]; [discriminate|].
  destruct (forallb _ rest); [discriminate|]. intros [= <-]. reflexivity.
Qed.

Lemma keeps_all (data : recarray) (mv : list Z) (r : Rec.t) :
  In r data ->
  keeps (selected (map Rec.layer data) None)
        (selected (map Rec.inest data) None) mv r
  = negb (existsb (Z.eqb (Rec.value r)) mv).
Proof.
  intros Hin. unfold keeps, selected.
  replace (existsb (Nat.eqb (Rec.layer r)) _) with true.
  2:{ symmetry. apply existsb_eqb_nat, In_unique_nat, in_map, Hin. }
  replace (existsb (Nat.eqb (Rec.inest r)) _) with true.
  2:{ symmetry. apply existsb_eqb_nat, In_unique_nat, in_map, Hin. }
  reflexivity.
Qed.

(** Without a selection and without masked values, [get_data] returns
    the whole table. *)
Lemma get_data_all (data : recarray) :
  MartheField.get_data data None None false false [] = Ok (AsRec data).
Proof.
  rewrite get_data_as_rec. do 2 f_equal.
  apply filter_true. intros r Hr. rewrite keeps_all by assumption.
  reflexivity.
Qed.

(** ** Dense arrays *)

Lemma fold_left_max_top (l : list nat) (a : nat) :
  fold_left Nat.max l a = Nat.max a (top l).
Proof.
  revert a; induction l as [|b l IH]; simpl; intros a.
  - lia.
  - rewrite IH. lia.
Qed.

Lemma np_max_top (col : list nat) :
  col <> [] -> np.max col = Ok (top col).
Proof.
  destruct col as [|a l]; [congruence|]. intros _. simpl.
  rewrite fold_left_max_top. reflexivity.
Qed.

Lemma top_ge (col : list nat) (a : nat) : In a col -> a <= top col.
Proof.
  induction col as [|b l IH]; simpl; [contradiction|].
  intros [->|H]; [lia|]. specialize (IH H). lia.
Qed.

Lemma dense_group (data : recarray) (l n : nat) :
  MartheField.dense (filter (fun r => Rec.layer r =? l) data) n
  = match group data l n with
    | [] => Raise ValueError
    | _ => np.reshape (map Rec.value (group data l n))
             (top (map Rec.i (group data l n)) + 1)
             (top (map Rec.j (group data l n)) + 1)
    end.
Proof.
  unfold MartheField.dense. fold (group data l n).
  destruct (group data l n) as [|r g] eqn:E; [reflexivity|].
  rewrite !np_max_top by (simpl; congruence). reflexivity.
Qed.

Lemma dense_Ok (data : recarray) (l n : nat) (a : array2d) :
  MartheField.dense (filter (fun r => Rec.layer r =? l) data) n = Ok a ->
  reshaped (group data l n) a /\
  length (group data l n)
  = (top (map Rec.i (group data l n)) + 1)
    * (top (map Rec.j (group data l n)) + 1).
Proof.
  rewrite dense_group. destruct (group data l n) as [|r g] eqn:E;
    [discriminate|].
  unfold np.reshape.
  destruct (Nat.eqb_spec (length (map Rec.value (r :: g)))
              ((top (map Rec.i (r :: g)) + 1) * (top (map Rec.j (r :: g)) + 1)))
    as [Hlen|Hlen]; [|discriminate].
  intros H. injection H as <-. rewrite length_map in Hlen.
  split; [|exact Hlen]. repeat split.
Qed.

Lemma is_ok_dense (data : recarray) (l n : nat) :
  is_ok (MartheField.dense (filter (fun r => Rec.layer r =? l) data) n) = true
  <-> group data l n <> [] /\
      length (group data l n)
      = (top (map Rec.i (group data l n)) + 1)
        * (top (map Rec.j (group data l n)) + 1).
Proof.
  rewrite dense_group. destruct (group data l n) as [|r g] eqn:E.
  - simpl. split; [discriminate | intros [H _]; congruence].
  - unfold np.reshape. rewrite length_map.
    destruct (Nat.eqb_spec (length (r :: g))
                ((top (map Rec.i (r :: g)) + 1)
                 * (top (map Rec.j (r :: g)) + 1))) as [Hlen|Hlen]; simpl.
    + split; [intros _; split; [discriminate | assumption] | reflexivity].
    + split; [discriminate | intros [_ H]; contradiction].
Qed.

(** *** The counting argument: distinct cells fill their rectangle
    exactly when there are as many of them as it has cells. *)

Lemma unique_cells_filter (keep : Rec.t -> bool) (data : recarray) :
  unique_cells data -> unique_cells (filter keep data).
Proof.
  unfold unique_cells.
  induction data as [|r data IH]; simpl; intros H; [constructor|].
  inversion H as [|? ? Hn Hd]; subst.
  destruct (keep r); simpl; auto.
  constructor; auto.
  intros Hin. apply Hn. apply in_map_iff in Hin.
  destruct Hin as (b & E & Hb). apply filter_In in Hb.
  apply in_map_iff. exists b. tauto.
Qed.

Lemma NoDup_map_coarser {A B C : Type} (f : A -> B) (g : A -> C)
  (l : list A) :
  (forall a b, In a l -> In b l -> g a = g b -> f a = f b) ->
  NoDup (map f l) -> NoDup (map g l).
Proof.
  induction l as [|a l IH]; simpl; intros Hfg H; [constructor|].
  inversion H as [|? ? Hn Hd]; subst.
  constructor; auto.
  intros Hin. apply Hn. apply in_map_iff in Hin.
  destruct Hin as (b & E & Hb). apply in_map_iff. exists b.
  split; [|assumption]. apply Hfg; auto.
Qed.

Lemma group_In (data : recarray) (l n : nat) (r : Rec.t) :
  In r (group data l n) <-> In r data /\ Rec.layer r = l /\ Rec.inest r = n.
Proof.
  unfold group. rewrite !filter_In, !Nat.eqb_eq. tauto.
Qed.

Lemma group_cells_NoDup (data : recarray) (l n : nat) :
  unique_cells data ->
  NoDup (map (fun r => (Rec.i r, Rec.j r)) (group data l n)).
Proof.
  intros H.
  apply (NoDup_map_coarser cell_key).
  - intros a b Ha Hb E. apply group_In in Ha, Hb.
    unfold cell_key. injection E as Ei Ej.
    destruct Ha as (_ & -> & ->), Hb as (_ & -> & ->). congruence.
  - unfold group. do 2 apply unique_cells_filter. exact H.
Qed.

Lemma rectangle_In (r c nr nc : nat) :
  In (r, c) (list_prod (seq 0 nr) (seq 0 nc)) <-> r < nr /\ c < nc.
Proof. rewrite in_prod_iff, !in_seq. lia. Qed.

Lemma rectangle_NoDup (nr nc : nat) :
  NoDup (list_prod (seq 0 nr) (seq 0 nc)).
Proof.
  generalize (seq_NoDup nc 0). generalize (seq_NoDup nr 0).
  generalize (seq 0 nc) as cs. generalize (seq 0 nr) as rs.
  induction rs as [|r rs IH]; simpl; intros cs Hr Hc; [constructor|].
  inversion Hr as [|? ? Hn Hd]; subst.
  apply NoDup_app; repeat split.
  - apply Injective_map_NoDup; [|assumption].
    intros a b E. congruence.
  - apply IH; assumption.
  - intros p Hp Hp'. apply in_map_iff in Hp. destruct Hp as (c & <- & _).
    apply in_prod_iff in Hp'. tauto.
Qed.

Lemma complete_iff_count (g : recarray) :
  NoDup (map (fun r => (Rec.i r, Rec.j r)) g) ->
  complete g <->
  g <> [] /\
  length g = (top (map Rec.i g) + 1) * (top (map Rec.j g) + 1).
Proof.
  intros Hnd.
  set (cells := map (fun r => (Rec.i r, Rec.j r)) g) in *.
  set (rect := list_prod (seq 0 (top (map Rec.i g) + 1))
                         (seq 0 (top (map Rec.j g) + 1))).
  assert (Hlen : length rect
                 = (top (map Rec.i g) + 1) * (top (map Rec.j g) + 1)).
  { unfold rect. rewrite length_prod, !length_seq. reflexivity. }
  assert (Hin : incl cells rect).
  { intros [r c] H. apply in_map_iff in H. destruct H as (rec & E & H).
    injection E as <- <-. apply rectangle_In.
    pose proof (top_ge (map Rec.i g) (Rec.i rec) (in_map _ _ _ H)).
    pose proof (top_ge (map Rec.j g) (Rec.j rec) (in_map _ _ _ H)).
    lia. }
  assert (Hcells : length cells = length g) by apply length_map.
  unfold complete. split; intros [Hne H]; split; try assumption.
  - assert (incl rect cells).
    { intros [r c] Hrc. apply rectangle_In in Hrc.
      destruct (H r c) as (rec & Hrec & <- & <-); [lia | lia |].
      apply (in_map (fun r => (Rec.i r, Rec.j r))), Hrec. }
    pose proof (NoDup_incl_length Hnd Hin).
    pose proof (NoDup_incl_length (rectangle_NoDup _ _) H0).
    fold rect in H2. lia.
  - intros r c Hr Hc.
    assert (Hrc : In (r, c) cells).
    { apply (@NoDup_length_incl _ cells rect Hnd); [lia | exact Hin |].
      apply rectangle_In. lia. }
    apply in_map_iff in Hrc. destruct Hrc as (rec & E & Hrec).
    injection E as <- <-. eauto.
Qed.

Lemma is_ok_mapM {A B : Type} (f : A -> res B) (l : list A) :
  is_ok (mapM f l) = true <-> forall a, In a l -> is_ok (f a) = true.
Proof.
  induction l as [|a l IH]; simpl.
  - split; [intros _ ? [] | reflexivity].
  - destruct (f a) as [b|e] eqn:E; simpl.
    + destruct (mapM f l) as [bs|e]; simpl in *.
      * split; [|reflexivity]. intros _ a' [<-|H]; [rewrite E; reflexivity|].
        apply IH; auto.
      * split; [discriminate|]. intros H. apply IH. auto.
    + split; [discriminate|]. intros H. specialize (H a (or_introl eq_refl)).
      rewrite E in H. exact H.
Qed.

Lemma is_ok_mapM_false {A B : Type} (f : A -> res B) (l : list A) :
  is_ok (mapM f l) = false -> exists a, In a l /\ is_ok (f a) = false.
Proof.
  induction l as [|a l IH]; simpl; [discriminate|].
  destruct (f a) as [b|e] eqn:E; simpl.
  - destruct (mapM f l) as [bs|e]; simpl in *; [discriminate|].
    intros _. destruct (IH eq_refl) as (a' & H & H'). eauto.
  - intros _. exists a. rewrite E. auto.
Qed.

(** The arrays of a nested loop, outer list first, pair up with the
    product of the two lists. *)
Lemma mapM_nested_Forall2 {A B C : Type} (f : A -> B -> res C)
  (ls : list A) (ns : list B) (ass : list (list C)) :
  mapM (fun l => mapM (f l) ns) ls = Ok ass ->
  Forall2 (fun p c => f (fst p) (snd p) = Ok c) (list_prod ls ns) (concat ass).
Proof.
  revert ass; induction ls as [|l ls IH]; simpl; intros ass H.
  - injection H as <-. constructor.
  - inv_bind H. inv_bind H. injection H as <-. simpl.
    apply Forall2_app; [|auto].
    apply mapM_Ok_Forall2 in Hstep. clear - Hstep.
    induction Hstep; simpl; constructor; auto.
Qed.

Lemma dense_Raise (ldata : recarray) (n : nat) (e : exn) :
  MartheField.dense ldata n = Raise e -> e = ValueError.
Proof.
  unfold MartheField.dense, np.max, np.reshape.
  destruct (map Rec.i _) as [|a l]; cbn [bind]; [intros [= <-]; reflexivity|].
  destruct (map Rec.j _) as [|b l']; cbn [bind];
    [intros [= <-]; reflexivity|].
  destruct (_ =? _); [discriminate | intros [= <-]; reflexivity].
Qed.

Lemma mapM_Raise_at {A B : Type} (f : A -> res B) (l : list A) (e : exn) :
  mapM f l = Raise e -> exists a, In a l /\ f a = Raise e.
Proof.
  induction l as [|a l IH]; simpl; [discriminate|].
  destruct (f a) as [b|e'] eqn:E; cbn [bind].
  - destruct (mapM f l) as [bs|e'']; cbn [bind]; [discriminate|].
    intros [= <-]. destruct (IH eq_refl) as (a' & Hin & Ha'). eauto.
  - intros [= <-]. eauto.
Qed.

Lemma Forall2_In_left {A B : Type} (R : A -> B -> Prop) (l : list A)
  (l' : list B) (a : A) :
  Forall2 R l l' -> In a l -> exists b, In b l' /\ R a b.
Proof.
  induction 1 as [|a0 b0 l l' Hab _ IH]; intros Hin; [contradiction|].
  destruct Hin as [->|Hin].
  - exists b0. split; [left; reflexivity | exact Hab].
  - destruct (IH Hin) as (b & Hb & Hr). exists b. split; [right|]; assumption.
Qed.

Lemma Forall2_In_right {A B : Type} (R : A -> B -> Prop) (l : list A)
  (l' : list B) (b : B) :
  Forall2 R l l' -> In b l' -> exists a, In a l /\ R a b.
Proof.
  induction 1 as [|a0 b0 l l' Hab _ IH]; intros Hin; [contradiction|].
  destruct Hin as [->|Hin].
  - exists a0. split; [left; reflexivity | exact Hab].
  - destruct (IH Hin) as (a & Ha & Hr). exists a. split; [right|]; assumption.
Qed.

(** Whenever [get_data] with [as_array] returns: one dense array per
    selected layer and nest, all of one shape. *)
Lemma get_data_as_array_stacked (data : recarray)
  (layer inest : option (list nat)) (mv : list Z) (sel : selection) :
  MartheField.get_data data layer inest true false mv = Ok sel ->
  exists arrays, sel = AsArray arrays /\
    Forall2 (fun p a =>
               MartheField.dense
                 (filter (fun r => Rec.layer r =? fst p) data) (snd p) = Ok a)
      (list_prod (selected (map Rec.layer data) layer)
                 (selected (map Rec.inest data) inest)) arrays /\
    forall a b, In a arrays -> In b arrays ->
      a_nrow a = a_nrow b /\ a_ncol a = a_ncol b.
Proof.
  rewrite get_data_as_array. intros H.
  inv_bind_as H groups Hgroups. inv_bind_as H stacked Hstacked.
  injection H as <-.
  apply array_Ok in Hstacked. destruct Hstacked as (-> & Hshape).
  eexists; split; [reflexivity|]. split; [|exact Hshape].
  apply (mapM_nested_Forall2
           (fun l n => MartheField.dense
                         (filter (fun r => Rec.layer r =? l) data) n)).
  exact Hgroups.
Qed.

Lemma get_data_as_array_Ok (data : recarray)
  (layer inest : option (list nat)) (mv : list Z) (sel : selection) :
  MartheField.get_data data layer inest true false mv = Ok sel ->
  exists arrays, sel = AsArray arrays /\
    Forall2 (fun p a =>
               MartheField.dense
                 (filter (fun r => Rec.layer r =? fst p) data) (snd p) = Ok a)
      (list_prod (selected (map Rec.layer data) layer)
                 (selected (map Rec.inest data) inest)) arrays.
Proof.
  intros H. apply get_data_as_array_stacked in H.
  destruct H as (arrays & E & H & _). eauto.
Qed.

(** [get_data] with [as_array] raises nothing but ValueError. *)
Lemma get_data_as_array_Raise (data : recarray)
  (layer inest : option (list nat)) (mv : list Z) (e : exn) :
  MartheField.get_data data layer inest true false mv = Raise e ->
  e = ValueError.
Proof.
  rewrite get_data_as_array.
  destruct (mapM _ (selected (map Rec.layer data) layer)) as [groups|e0]
    eqn:E; cbn [bind].
  - destruct (np.array (concat groups)) as [stacked|e1] eqn:E1; cbn [bind];
      [discriminate|].
    intros [= <-]. eapply array_Raise, E1.
  - intros [= <-]. apply mapM_Raise_at in E. destruct E as (l & _ & E).
    apply mapM_Raise_at in E. destruct E as (n & _ & E).
    eapply dense_Raise, E.
Qed.

(** [get_data] with [as_array] returns exactly when every selected
    group has a dense array and all these arrays have one shape. *)
Lemma is_ok_get_data_as_array (data : recarray)
  (layer inest : option (list nat)) (mv : list Z) :
  is_ok (MartheField.get_data data layer inest true false mv) = true <->
  (forall l n, In l (selected (map Rec.layer data) layer) ->
               In n (selected (map Rec.inest data) inest) ->
     is_ok (MartheField.dense (filter (fun r => Rec.layer r =? l) data) n)
     = true) /\
  (forall l n l' n',
     In l (selected (map Rec.layer data) layer) ->
     In n (selected (map Rec.inest data) inest) ->
     In l' (selected (map Rec.layer data) layer) ->
     In n' (selected (map Rec.inest data) inest) ->
     top (map Rec.i (group data l n)) = top (map Rec.i (group data l' n')) /\
     top (map Rec.j (group data l n)) = top (map Rec.j (group data l' n'))).
Proof.
  split.
  - intros H.
    destruct (MartheField.get_data data layer inest true false mv)
      as [sel|e] eqn:E; [|discriminate].
    apply get_data_as_array_stacked in E.
    destruct E as (arrays & _ & Hall & Hshape).
    assert (Hat : forall l n,
              In l (selected (map Rec.layer data) layer) ->
              In n (selected (map Rec.inest data) inest) ->
              exists a, In a arrays /\
                MartheField.dense (filter (fun r => Rec.layer r =? l) data) n
                = Ok a).
    { intros l n Hl Hn.
      apply (Forall2_In_left _ _ _ (l, n) Hall). apply in_prod; assumption. }
    split.
    + intros l n Hl Hn. destruct (Hat l n Hl Hn) as (a & _ & ->).
      reflexivity.
    + intros l n l' n' Hl Hn Hl' Hn'.
      destruct (Hat l n Hl Hn) as (a & Ha & Hd).
      destruct (Hat l' n' Hl' Hn') as (a' & Ha' & Hd').
      apply dense_Ok in Hd, Hd'.
      destruct Hd as ((Hr & Hc & _) & _), Hd' as ((Hr' & Hc' & _) & _).
      destruct (Hshape a a' Ha Ha') as (E1 & E2). lia.
  - intros (Hdense & Hshape). rewrite get_data_as_array.
    destruct (mapM _ (selected (map Rec.layer data) layer)) as [groups|e]
      eqn:E; cbn [bind].
    + rewrite array_same_shape; [reflexivity|].
      apply (mapM_nested_Forall2
               (fun l n => MartheField.dense
                             (filter (fun r => Rec.layer r =? l) data) n))
        in E.
      intros a b Ha Hb.
      destruct (Forall2_In_right _ _ _ a E Ha) as ([l n] & Hp & Hd).
      destruct (Forall2_In_right _ _ _ b E Hb) as ([l' n'] & Hp' & Hd').
      apply in_prod_iff in Hp, Hp'. cbn [fst snd] in Hd, Hd'.
      apply dense_Ok in Hd, Hd'.
      destruct Hd as ((Hr & Hc & _) & _), Hd' as ((Hr' & Hc' & _) & _).
      destruct (Hshape l n l' n') as (E1 & E2); try tauto. lia.
    + exfalso.
      assert (Hok : is_ok (mapM (fun l =>
                       mapM (fun n =>
                               MartheField.dense
                                 (filter (fun r => Rec.layer r =? l) data) n)
                            (selected (map Rec.inest data) inest))
                     (selected (map Rec.layer data) layer)) = true).
      { apply is_ok_mapM. intros l Hl. apply is_ok_mapM. auto. }
      rewrite E in Hok. discriminate.
Qed.

Lemma is_ok_dense_complete (data : recarray) (l n : nat) :
  unique_cells data ->
  is_ok (MartheField.dense (filter (fun r => Rec.layer r =? l) data) n) = true
  <-> complete (group data l n).
Proof.
  intros H. rewrite is_ok_dense.
  symmetry. apply complete_iff_count, group_cells_NoDup, H.
Qed.

(** C8, amended.  In a table with one record per cell, [get_data] with
    [as_array] returns exactly when every selected (layer, inest) group
    is a complete rectangle (it has a record, and one for every cell up
    to its largest row and column) and all the selected groups have one
    shape; otherwise it raises ValueError.  The arrays it returns are
    the selected groups reshaped to (max row + 1, max col + 1): the
    values of the group in the order of the table and nothing else (no
    padding). *)
Theorem get_data_as_array_complete_rectangles (data : recarray)
  (layer inest : option (list nat)) (mv : list Z) :
  unique_cells data ->
  (is_ok (MartheField.get_data data layer inest true false mv) = true <->
   (forall l n, In l (selected (map Rec.layer data) layer) ->
                In n (selected (map Rec.inest data) inest) ->
                complete (group data l n)) /\
   (forall l n l' n',
      In l (selected (map Rec.layer data) layer) ->
      In n (selected (map Rec.inest data) inest) ->
      In l' (selected (map Rec.layer data) layer) ->
      In n' (selected (map Rec.inest data) inest) ->
      top (map Rec.i (group data l n)) = top (map Rec.i (group data l' n')) /\
      top (map Rec.j (group data l n)) = top (map Rec.j (group data l' n'))))
  /\
  (forall e, MartheField.get_data data layer inest true false mv = Raise e ->
             e = ValueError)
  /\
  (forall sel, MartheField.get_data data layer inest true false mv = Ok sel ->
   exists arrays, sel = AsArray arrays /\
     Forall2 (fun p a =>
                reshaped (group data (fst p) (snd p)) a /\
                length (ravel a) = a_nrow a * a_ncol a)
       (list_prod (selected (map Rec.layer data) layer)
                  (selected (map Rec.inest data) inest)) arrays).
Proof.
  intros Hu. split; [|split].
  - rewrite is_ok_get_data_as_array. split.
    + intros (Hdense & Hshape). split; [|exact Hshape].
      intros l n Hl Hn. apply (is_ok_dense_complete data l n Hu). auto.
    + intros (Hcomplete & Hshape). split; [|exact Hshape].
      intros l n Hl Hn. apply (is_ok_dense_complete data l n Hu). auto.
  - intros e. apply get_data_as_array_Raise.
  - intros sel H. apply get_data_as_array_Ok in H.
    destruct H as (arrays & -> & H). exists arrays. split; [reflexivity|].
    eapply Forall2_impl; [|exact H]. intros [l n] a Ha. simpl in *.
    apply dense_Ok in Ha. destruct Ha as (Hr & Hlen). split; [exact Hr|].
    destruct Hr as (-> & -> & ->). rewrite length_map. exact Hlen.
Qed.

Lemma table_2x2_unique_cells : unique_cells Examples.table_2x2.
Proof.
  unfold unique_cells. cbv.
  repeat (apply NoDup_cons; [cbv; intuition congruence|]).
  apply NoDup_nil.
Qed.

Lemma get_data_as_array_complete_rectangles_witness :
  unique_cells Examples.table_2x2 /\
  exists arrays,
    MartheField.get_data Examples.table_2x2 None None true false dmv
    = Ok (AsArray arrays) /\
    Forall2 (fun p a =>
               reshaped (group Examples.table_2x2 (fst p) (snd p)) a /\
               length (ravel a) = a_nrow a * a_ncol a)
      [(0, 0)] arrays.
Proof.
  split; [exact table_2x2_unique_cells|].
  destruct (proj2 (proj2 (get_data_as_array_complete_rectangles
                            Examples.table_2x2 None None dmv
                            table_2x2_unique_cells)) _ eq_refl)
    as (arrays & E & H).
  exists arrays. split; [rewrite <- E; reflexivity | exact H].
Defined.

(** C8 as stated fails in both directions.  A group that has two
    records for one cell and none for another has as many records as
    its rectangle has cells, and is reshaped without an error although a
    cell is missing.  And two complete rectangles of different shapes,
    a main grid of two rows and three columns with a nested grid of two
    rows and two columns, make the call raise. *)
Lemma get_data_as_array_holes_counterexample :
  (~ complete (group Examples.table_hole 0 0) /\
   MartheField.get_data Examples.table_hole None None true false []
   = Ok (AsArray [mk_array2d 2 2 [1; 2; 3; 4]%Z])) /\
  (unique_cells Examples.table_ragged /\
   complete (group Examples.table_ragged 0 0) /\
   complete (group Examples.table_ragged 0 1) /\
   MartheField.get_data Examples.table_ragged None None true false []
   = Raise ValueError).
Proof.
  split.
  - split; [|reflexivity].
    intros (_ & H). destruct (H 1 1) as (r & Hr & Hi & Hj);
      [cbn; lia | cbn; lia |].
    cbn in Hr. destruct Hr as [<-|[<-|[<-|[<-|[]]]]]; discriminate.
  - assert (Hu : unique_cells Examples.table_ragged).
    { unfold unique_cells. cbv.
      repeat (apply NoDup_cons; [cbv; intuition congruence|]).
      apply NoDup_nil. }
    split; [exact Hu|].
    split; [|split; [|reflexivity]].
    + apply (complete_iff_count _ (group_cells_NoDup _ 0 0 Hu)).
      split; [discriminate | reflexivity].
    + apply (complete_iff_count _ (group_cells_NoDup _ 0 1 Hu)).
      split; [discriminate | reflexivity].
Qed.

(** C10.  [get_data] with [as_array] ignores [masked_values]: the call
    is the one without masked values, and its arrays hold the value of
    every record of each selected group, masked or not; the mask and the
    records of the same call leave out every record whose value is
    masked. *)
Theorem get_data_as_array_ignores_masked_values (data : recarray)
  (layer inest : option (list nat)) (mv : list Z) :
  MartheField.get_data data layer inest true false mv
  = MartheField.get_data data layer inest true false []
  /\
  (forall arrays,
     MartheField.get_data data layer inest true false mv
     = Ok (AsArray arrays) ->
     map ravel arrays
     = map (fun p => map Rec.value (group data (fst p) (snd p)))
         (list_prod (selected (map Rec.layer data) layer)
                    (selected (map Rec.inest data) inest)))
  /\
  (exists mask,
     MartheField.get_data data layer inest false true mv = Ok (AsMask mask) /\
     forall k r, nth_error data k = Some r -> In (Rec.value r) mv ->
       nth_error mask k = Some false)
  /\
  (exists rec,
     MartheField.get_data data layer inest false false mv = Ok (AsRec rec) /\
     forall r, In r rec -> ~ In (Rec.value r) mv).
Proof.
  split; [reflexivity|]. split; [|split].
  - intros arrays H. apply get_data_as_array_Ok in H.
    destruct H as (arrays' & E & H). injection E as <-.
    apply Forall2_map_eq.
    eapply Forall2_impl; [|exact H]. intros [l n] a Ha. simpl in *.
    apply dense_Ok in Ha. destruct Ha as ((_ & _ & E) & _). exact E.
  - eexists. split; [apply get_data_as_mask|].
    intros k r Hk Hr. rewrite nth_error_map, Hk. simpl. f_equal.
    unfold keeps. apply existsb_eqb_Z in Hr. rewrite Hr.
    apply andb_false_r.
  - eexists. split; [apply get_data_as_rec|].
    intros r Hr Hin. apply filter_In in Hr. destruct Hr as (_ & Hr).
    unfold keeps in Hr. apply existsb_eqb_Z in Hin. rewrite Hin in Hr.
    rewrite andb_false_r in Hr. discriminate.
Qed.

Lemma get_data_as_array_ignores_masked_values_witness :
  MartheField.get_data Examples.table_2x2 None None true false dmv
  = Ok (AsArray [mk_array2d 2 2 [3; 9999; 7; 4]%Z]) /\
  map ravel [mk_array2d 2 2 [3; 9999; 7; 4]%Z]
  = [map Rec.value (group Examples.table_2x2 0 0)].
Proof.
  split; [reflexivity|].
  exact (proj1 (proj2 (get_data_as_array_ignores_masked_values
                         Examples.table_2x2 None None dmv)) _ eq_refl).
Defined.

(** ** The heap *)

Lemma load_Ok_lt (h : heap) (l : loc) (rec : recarray) :
  load h l = Ok rec -> l < length h.
Proof.
  unfold load. destruct (nth_error h l) eqn:E; [|discriminate].
  intros _. apply nth_error_Some. congruence.
Qed.

Lemma load_app (h t : heap) (l : loc) :
  l < length h -> load (h ++ t) l = load h l.
Proof. intros H. unfold load. rewrite nth_error_app1 by exact H. reflexivity. Qed.

Lemma load_new (h : heap) (rec : recarray) :
  load (h ++ [rec]) (length h) = Ok rec.
Proof.
  unfold load. rewrite nth_error_app2 by lia. rewrite Nat.sub_diag.
  reflexivity.
Qed.

Lemma store_new (h : heap) (rec rec' : recarray) :
  store (h ++ [rec]) (length h) rec' = h ++ [rec'].
Proof. induction h as [|a h IH]; simpl; congruence. Qed.

Lemma length_store (h : heap) (l : loc) (rec : recarray) :
  length (store h l rec) = length h.
Proof.
  revert l; induction h as [|a h IH]; intros [|l]; simpl; auto.
Qed.

Lemma nth_error_store_other (h : heap) (l k : loc) (rec : recarray) :
  k <> l -> nth_error (store h l rec) k = nth_error h k.
Proof.
  revert l k; induction h as [|a h IH]; intros [|l] [|k] H; simpl; auto.
  congruence.
Qed.

Lemma load_store_same (h : heap) (l : loc) (rec : recarray) :
  l < length h -> load (store h l rec) l = Ok rec.
Proof.
  unfold load. revert l; induction h as [|a h IH]; intros [|l] H; simpl in *;
    try lia; auto.
  apply IH. lia.
Qed.

Lemma attr_data_app (h t : heap) (self : MartheField.t) (rec : recarray) :
  MartheField.attr_data h self = Ok rec ->
  MartheField.attr_data (h ++ t) self = Ok rec.
Proof.
  unfold MartheField.attr_data. destruct (MartheField.data self) as [l|];
    [|discriminate].
  intros H. rewrite load_app; [exact H|]. eapply load_Ok_lt, H.
Qed.

(** ** [get_masked] *)

Lemma length_select {A : Type} (l : list A) (mask : list bool) :
  length l = length mask -> length (np.select l mask) = np.count_true mask.
Proof.
  unfold np.count_true. revert mask.
  induction l as [|a l IH]; intros [|b mask] H; simpl in *; try lia.
  destruct b; simpl; auto.
Qed.

Lemma set_value_value (r : Rec.t) : Rec.set_value r (Rec.value r) = r.
Proof. destruct r. reflexivity. Qed.

(** What the masked assignment [mrec['value'][mask] = rec['value'][mask]]
    leaves in the copy [ref] of the active-domain table. *)
Lemma put_select_values (f : Rec.t -> bool) (ref rec : recarray) :
  length rec = length ref ->
  set_values ref
    (np.put (map Rec.value ref) (map f ref)
       (np.select (map Rec.value rec) (map f ref)))
  = map (fun p : Rec.t * Rec.t =>
           if f (fst p) then Rec.set_value (fst p) (Rec.value (snd p))
           else fst p) (combine ref rec).
Proof.
  unfold set_values. revert rec.
  induction ref as [|a ref IH]; intros [|b rec] H; simpl in *; try lia;
    [reflexivity|].
  destruct (f a); simpl; rewrite IH by lia; [reflexivity|].
  rewrite set_value_value. reflexivity.
Qed.

Lemma masked_mask (mv : list Z) (ref : recarray) :
  map (keeps (selected (map Rec.layer ref) None)
             (selected (map Rec.inest ref) None) mv) ref
  = map (fun r => negb (existsb (Z.eqb (Rec.value r)) mv)) ref.
Proof. apply map_ext_in. intros r Hr. apply keeps_all, Hr. Qed.

Lemma length_masked (mv : list Z) (ref rec : recarray) :
  length rec = length ref -> length (masked mv ref rec) = length ref.
Proof.
  intros H. unfold masked. rewrite length_map, length_combine. lia.
Qed.

Lemma geometry_masked (mv : list Z) (ref rec : recarray) :
  length rec = length ref -> geometry (masked mv ref rec) = geometry ref.
Proof.
  unfold geometry, masked. revert rec.
  induction ref as [|a ref IH]; intros [|b rec] H; simpl in *; try lia;
    [reflexivity|].
  rewrite IH by lia. f_equal.
  destruct (existsb (Z.eqb (Rec.value a)) mv); reflexivity.
Qed.

Lemma nth_error_masked (mv : list Z) (ref rec : recarray) (k : nat)
  (r v : Rec.t) :
  nth_error ref k = Some r -> nth_error rec k = Some v ->
  nth_error (masked mv ref rec) k
  = Some (if existsb (Z.eqb (Rec.value r)) mv then r
          else Rec.set_value r (Rec.value v)).
Proof.
  unfold masked. revert rec k.
  induction ref as [|a ref IH]; intros [|b rec] [|k]; simpl;
    try discriminate.
  - intros [= ->] [= ->]. reflexivity.
  - apply IH.
Qed.

Lemma masked_masked (mv : list Z) (ref rec : recarray) :
  length rec = length ref ->
  masked mv ref (masked mv ref rec) = masked mv ref rec.
Proof.
  unfold masked. revert rec.
  induction ref as [|a ref IH]; intros [|b rec] H; simpl in *; try lia;
    [reflexivity|].
  rewrite IH by lia. f_equal.
  destruct (existsb (Z.eqb (Rec.value a)) mv); reflexivity.
Qed.

(** [get_masked] for a model dependent field, in one equation: the
    result is a new array, and the call raises when the input has not
    as many records as the active-domain table. *)
Lemma get_masked_dependent (mm : MartheField.MartheModel)
  (self : MartheField.t) (h : heap) (rec : loc) (ref : recarray) :
  MartheField.model_dependent self = true ->
  MartheField.attr_data h (MartheField.imask mm) = Ok ref ->
  MartheField.get_masked mm self h rec
  = match load (h ++ [ref]) rec with
    | Ok rd =>
        if length rd =? length ref
        then Ok (h ++ [masked (MartheField.dmv self) ref rd], length h)
        else Raise IndexError
    | Raise e => Raise e
    end.
Proof.
  intros Hdep Href. unfold MartheField.get_masked.
  rewrite Hdep, Href. cbn [bind]. unfold deepcopy, alloc.
  rewrite get_data_as_mask. cbn [bind].
  destruct (load (h ++ [ref]) rec) as [rd|e]; cbn [bind]; [|reflexivity].
  rewrite load_new. cbn [bind].
  rewrite masked_mask.
  unfold np.getitem_mask. rewrite !length_map.
  destruct (Nat.eqb_spec (length rd) (length ref)) as [Hlen|Hlen];
    simpl; [|reflexivity].
  unfold np.setitem_mask. rewrite !length_map, Nat.eqb_refl. simpl.
  rewrite length_select by (rewrite !length_map; exact Hlen).
  rewrite Nat.eqb_refl. simpl.
  rewrite store_new. do 4 f_equal.
  rewrite (put_select_values
             (fun r => negb (existsb (Z.eqb (Rec.value r)) _)))
    by exact Hlen.
  unfold masked. apply map_ext. intros [a b]. simpl.
  destruct (existsb (Z.eqb (Rec.value a)) (MartheField.dmv self));
    reflexivity.
Qed.

Lemma get_masked_independent (mm : MartheField.MartheModel)
  (self : MartheField.t) (h : heap) (rec : loc) :
  MartheField.model_dependent self = false ->
  MartheField.get_masked mm self h rec = Ok (h, rec).
Proof.
  intros H. unfold MartheField.get_masked. rewrite H. reflexivity.
Qed.

(** C1, amended.  For an input table with as many records as the
    active-domain table, [get_masked] on a model dependent field (masked,
    and not the active domain itself) returns a new table with the
    geometry and the row count of the active-domain table, whose value is
    the input's at every row where the reference's value is none of
    -9999, 0, 9999 and the reference's own elsewhere; it raises for an
    input of another row count; for a field that is not model dependent
    it returns the input itself. *)
Theorem get_masked_row_aligned (mm : MartheField.MartheModel)
  (self : MartheField.t) (h : heap) (rec : loc) (ref rd : recarray) :
  MartheField.dmv self = dmv ->
  MartheField.attr_data h (MartheField.imask mm) = Ok ref ->
  load h rec = Ok rd ->
  (MartheField.model_dependent self = true -> length rd = length ref ->
   exists t,
     MartheField.get_masked mm self h rec = Ok (h ++ [t], length h) /\
     load (h ++ [t]) (length h) = Ok t /\
     geometry t = geometry ref /\
     length t = length ref /\
     forall k r v, nth_error ref k = Some r -> nth_error rd k = Some v ->
       exists u, nth_error t k = Some u /\
         (~ In (Rec.value r) [-9999; 0; 9999]%Z ->
          Rec.value u = Rec.value v) /\
         (In (Rec.value r) [-9999; 0; 9999]%Z -> u = r))
  /\
  (MartheField.model_dependent self = true -> length rd <> length ref ->
   MartheField.get_masked mm self h rec = Raise IndexError)
  /\
  (MartheField.model_dependent self = false ->
   MartheField.get_masked mm self h rec = Ok (h, rec)).
Proof.
  intros Hdmv Href Hrec.
  assert (Hload : load (h ++ [ref]) rec = Ok rd).
  { rewrite load_app; [exact Hrec | eapply load_Ok_lt, Hrec]. }
  split; [|split].
  - intros Hdep Hlen. exists (masked dmv ref rd).
    rewrite (get_masked_dependent mm self h rec ref Hdep Href), Hload.
    rewrite Hlen, Nat.eqb_refl, Hdmv.
    split; [reflexivity|]. split; [apply load_new|].
    split; [apply geometry_masked, Hlen|].
    split; [apply length_masked, Hlen|].
    intros k r v Hr Hv. eexists. split; [apply nth_error_masked; eassumption|].
    change [-9999; 0; 9999]%Z with dmv.
    destruct (existsb (Z.eqb (Rec.value r)) dmv) eqn:E.
    + split; [|reflexivity]. intros H. apply existsb_eqb_Z in E. contradiction.
    + split; [reflexivity|]. intros H. apply existsb_eqb_Z in H. congruence.
  - intros Hdep Hlen.
    rewrite (get_masked_dependent mm self h rec ref Hdep Href), Hload.
    apply Nat.eqb_neq in Hlen. rewrite Hlen. reflexivity.
  - apply get_masked_independent.
Qed.

Lemma get_masked_row_aligned_witness :
  MartheField.dmv Examples.permh = dmv /\
  MartheField.attr_data Examples.heap0 (MartheField.imask Examples.mm)
  = Ok Examples.imask_2x2 /\
  load Examples.heap0 1 = Ok Examples.table_2x2 /\
  exists t,
    MartheField.get_masked Examples.mm Examples.permh Examples.heap0 1
    = Ok (Examples.heap0 ++ [t], 3) /\
    geometry t = geometry Examples.imask_2x2.
Proof.
  repeat (split; [reflexivity|]).
  destruct (proj1 (get_masked_row_aligned Examples.mm Examples.permh
                     Examples.heap0 1 Examples.imask_2x2 Examples.table_2x2
                     eq_refl eq_refl eq_refl) eq_refl eq_refl)
    as (t & E & _ & G & _).
  exists t. split; [exact E | exact G].
Defined.

(** C1 as stated fails: on an input table of one record, against an
    active domain of four, [get_masked] returns no table. *)
Lemma get_masked_row_count_counterexample :
  MartheField.model_dependent Examples.permh = true /\
  load Examples.heap0 2 = Ok Examples.table_1 /\
  MartheField.get_masked Examples.mm Examples.permh Examples.heap0 2
  = Raise IndexError /\
  ~ exists h' m,
      MartheField.get_masked Examples.mm Examples.permh Examples.heap0 2
      = Ok (h', m).
Proof.
  repeat (split; [reflexivity|]).
  intros (h' & m & H). discriminate H.
Qed.

(** C7.  [get_masked] is idempotent: masking the table that a first
    call returns gives a table with the same contents, for a model
    dependent field and for an independent one; when the first call
    raises, so does their composition. *)
Theorem get_masked_idempotent (mm : MartheField.MartheModel)
  (self : MartheField.t) (h : heap) (rec : loc) :
  contents ('(h1, m1) <- MartheField.get_masked mm self h rec ;;
            MartheField.get_masked mm self h1 m1)
  = contents (MartheField.get_masked mm self h rec).
Proof.
  destruct (MartheField.model_dependent self) eqn:Hdep.
  - destruct (MartheField.attr_data h (MartheField.imask mm)) as [ref|e]
      eqn:Href.
    + rewrite (get_masked_dependent mm self h rec ref Hdep Href).
      destruct (load (h ++ [ref]) rec) as [rd|e]; [|reflexivity].
      destruct (Nat.eqb_spec (length rd) (length ref)) as [Hlen|Hlen];
        [|reflexivity].
      cbn [bind].
      rewrite (get_masked_dependent mm self _ _ ref Hdep
                 (attr_data_app _ _ _ _ Href)).
      rewrite load_app by (rewrite length_app; simpl; lia).
      rewrite load_new.
      rewrite (length_masked _ _ _ Hlen), Nat.eqb_refl.
      unfold contents. cbn [bind]. rewrite !load_new.
      rewrite (masked_masked _ _ _ Hlen). reflexivity.
    + unfold MartheField.get_masked. rewrite Hdep, Href. reflexivity.
  - rewrite (get_masked_independent mm self h rec Hdep). cbn [bind].
    rewrite (get_masked_independent mm self h rec Hdep). reflexivity.
Qed.

(** ** [set_data] *)

Lemma get_masked_dependent_Ok (mm : MartheField.MartheModel)
  (self : MartheField.t) (h h' : heap) (rec m : loc) :
  MartheField.model_dependent self = true ->
  MartheField.get_masked mm self h rec = Ok (h', m) ->
  exists ref t,
    MartheField.attr_data h (MartheField.imask mm) = Ok ref /\
    h' = h ++ [t] /\ m = length h /\
    geometry t = geometry ref /\ length t = length ref.
Proof.
  intros Hdep H.
  destruct (MartheField.attr_data h (MartheField.imask mm)) as [ref|e]
    eqn:Href.
  - rewrite (get_masked_dependent mm self h rec ref Hdep Href) in H.
    destruct (load (h ++ [ref]) rec) as [rd|e]; [|discriminate].
    destruct (Nat.eqb_spec (length rd) (length ref)) as [Hlen|Hlen];
      [|discriminate].
    injection H as <- <-. exists ref, (masked (MartheField.dmv self) ref rd).
    repeat split; auto using geometry_masked, length_masked.
  - unfold MartheField.get_masked in H. rewrite Hdep, Href in H.
    discriminate.
Qed.

Lemma domain_bound_new (mm : MartheField.MartheModel) (h : heap)
  (self : MartheField.t) (t ref : recarray) :
  MartheField.attr_data h (MartheField.imask mm) = Ok ref ->
  geometry t = geometry ref -> length t = length ref ->
  domain_bound mm (h ++ [t]) (MartheField.set_data_attr self (length h)).
Proof.
  intros Href Hg Hl. unfold domain_bound. simpl.
  exists t, ref. repeat split; auto using load_new, attr_data_app.
Qed.

Lemma length_set_values (rec : recarray) (col : list Z) :
  length col = length rec -> length (set_values rec col) = length rec.
Proof.
  intros H. unfold set_values. rewrite length_map, length_combine. lia.
Qed.

Lemma geometry_set_values (rec : recarray) (col : list Z) :
  length col = length rec -> geometry (set_values rec col) = geometry rec.
Proof.
  unfold geometry, set_values. revert col.
  induction rec as [|r rec IH]; intros [|v col] H; simpl in *; try lia;
    [reflexivity|].
  rewrite IH by lia. reflexivity.
Qed.

Lemma setitem_mask_scalar_Ok {A : Type} (l : list A) (mask : list bool)
  (v : A) :
  length mask = length l ->
  exists col, np.setitem_mask_scalar l mask v = Ok col /\
              length col = length l.
Proof.
  intros H. unfold np.setitem_mask_scalar. rewrite H, Nat.eqb_refl.
  eexists. split; [reflexivity|].
  rewrite length_map, length_combine. lia.
Qed.

Lemma attr_data_store (h : heap) (l : loc) (rec : recarray)
  (obj : MartheField.t) :
  l < length h ->
  MartheField.attr_data (store h l rec) obj
  = if match MartheField.data obj with
       | Some k => k =? l
       | None => false
       end
    then Ok rec else MartheField.attr_data h obj.
Proof.
  intros Hl. unfold MartheField.attr_data.
  destruct (MartheField.data obj) as [k|]; [|reflexivity].
  destruct (Nat.eqb_spec k l) as [->|Hk].
  - apply load_store_same, Hl.
  - unfold load. rewrite nth_error_store_other by exact Hk. reflexivity.
Qed.

(** The end of every path of [set_data] that goes through [get_masked]:
    the field is bound to the table [get_masked] returns. *)
Ltac through_get_masked H Hdep :=
  let p := fresh "p" in
  let Hm := fresh "Hm" in
  apply bind_Ok in H; destruct H as (p & Hm & H);
  destruct p as [? ?]; cbn beta iota in H; injection H as <- <-;
  apply (get_masked_dependent_Ok _ _ _ _ _ _ Hdep) in Hm;
  destruct Hm as (? & ? & ? & -> & -> & ? & ?);
  split; [eapply domain_bound_new; eassumption | intros _; discriminate].

(** C2.  Every path of [set_data] on a field masked by the active domain
    (grid list, file, record array, 3D array, number; construction or
    mutation) leaves the field with a table of the row count and the
    geometry columns of the active-domain table: the invariant holds
    after the call whenever it held before, and a call that assigns or
    updates the table leaves one. *)
Theorem set_data_domain_bound (read_grid_file : MartheField.reader)
  (mm : MartheField.MartheModel) (self self' : MartheField.t)
  (h h' : heap) (data : data_arg) (layer inest : option (list nat)) :
  MartheField.model_dependent self = true ->
  domain_bound mm h self ->
  MartheField.set_data read_grid_file mm self h data layer inest
  = Ok (h', self') ->
  domain_bound mm h' self' /\
  (sets_table data layer inest -> MartheField.data_ref self' <> None).
Proof.
  intros Hdep Hb H. unfold MartheField.set_data in H.
  destruct data as [filename|v|rec|arr|grids].
  - destruct layer, inest; cbn [is_none andb] in H;
      try (injection H as <- <-; split;
           [exact Hb | intros [? ?]; discriminate]).
    inv_bind H. inv_bind H. unfold alloc in H. cbn beta iota in H.
    through_get_masked H Hdep.
  - unfold domain_bound in Hb.
    destruct (MartheField.data_ref self) as [l|] eqn:Hl.
    + destruct Hb as (t & ref & Ht & Href & Hg & Hlen).
      rewrite Ht in H. cbn [bind] in H.
      rewrite get_data_as_mask in H. cbn [bind] in H.
      destruct (setitem_mask_scalar_Ok (map Rec.value t)
                  (map (keeps (selected (map Rec.layer t) layer)
                              (selected (map Rec.inest t) inest)
                              (MartheField.dmv self)) t) v)
        as (col & E & Hcol); [rewrite !length_map; reflexivity|].
      rewrite E in H. cbn [bind] in H. injection H as <- <-.
      rewrite length_map in Hcol.
      pose proof (load_Ok_lt _ _ _ Ht) as Hlt.
      split; [|intros _; congruence].
      unfold domain_bound. rewrite Hl.
      exists (set_values t col).
      rewrite (attr_data_store h l _ (MartheField.imask mm) Hlt).
      rewrite (load_store_same h l _ Hlt).
      destruct (match MartheField.data (MartheField.imask mm) with
                | Some k => k =? l
                | None => false
                end) eqn:Hk.
      * exists (set_values t col). repeat split.
      * exists ref. repeat split; auto.
        -- rewrite geometry_set_values by exact Hcol. exact Hg.
        -- rewrite length_set_values by exact Hcol. exact Hlen.
    + cbn iota in H. inv_bind H. unfold deepcopy, alloc in H.
      cbn beta iota in H.
      rewrite get_data_as_mask in H. cbn [bind] in H.
      destruct (setitem_mask_scalar_Ok (map Rec.value a)
                  (map (keeps (selected (map Rec.layer a) layer)
                              (selected (map Rec.inest a) inest)
                              (MartheField.dmv self)) a) v)
        as (col & E & Hcol); [rewrite !length_map; reflexivity|].
      rewrite E in H. cbn [bind] in H. injection H as <- <-.
      rewrite length_map in Hcol. rewrite store_new.
      split; [|intros _; discriminate].
      eapply domain_bound_new; eauto using geometry_set_values,
        length_set_values.
  - through_get_masked H Hdep.
  - destruct layer, inest; cbn [is_none andb] in H;
      try (injection H as <- <-; split;
           [exact Hb | intros [? ?]; discriminate]).
    inv_bind H. inv_bind H. destruct a0 as [h1 r]. cbn beta iota in H.
    through_get_masked H Hdep.
  - destruct layer, inest; cbn [is_none andb] in H;
      try (injection H as <- <-; split;
           [exact Hb | intros [? ?]; discriminate]).
    inv_bind H. unfold alloc in H. cbn beta iota in H.
    through_get_masked H Hdep.
Qed.

Lemma set_data_domain_bound_witness :
  MartheField.model_dependent Examples.permh = true /\
  domain_bound Examples.mm Examples.heap0 Examples.permh /\
  exists h' self',
    MartheField.set_data Examples.files Examples.mm Examples.permh
      Examples.heap0 (DList [Examples.grid_2x2]) None None = Ok (h', self') /\
    domain_bound Examples.mm h' self' /\
    MartheField.data_ref self' <> None.
Proof.
  split; [reflexivity|]. split; [exact I|].
  eexists. eexists. split; [reflexivity|].
  destruct (set_data_domain_bound Examples.files Examples.mm Examples.permh
              _ Examples.heap0 _ (DList [Examples.grid_2x2]) None None
              eq_refl I eq_refl) as [Hb Hset].
  split; [exact Hb | exact (Hset (conj eq_refl eq_refl))].
Defined.

(** ** [_rec2grid] and [to_grids] *)

Lemma filter_keeps_group (data : recarray) (l n : nat) :
  filter (keeps [l] [n] []) data = group data l n.
Proof.
  unfold group. induction data as [|r data IH]; simpl; [reflexivity|].
  unfold keeps at 1. simpl. rewrite !orb_false_r, andb_true_r.
  destruct (Rec.layer r =? l); simpl; [|exact IH].
  destruct (Rec.inest r =? n); simpl; congruence.
Qed.

(** [_rec2grid] in one equation: the dense array of the group, the
    distinct coordinates of its records, their gradients. *)
Lemma rec2grid_eq (field : string) (data : recarray) (l n : nat) :
  MartheField._rec2grid field data l n
  = (let g := group data l n in
     let xcc := np.unique Z.ltb (map Rec.x g) in
     let ycc := np.flip (np.unique Z.ltb (map Rec.y g)) in
     a <- MartheField.dense (filter (fun r => Rec.layer r =? l) data) n ;;
     gx <- np.gradient xcc ;;
     gy <- np.gradient ycc ;;
     Ok (MartheGrid.mk (-9999) l n (a_nrow a) (a_ncol a)
           (inject_Z (hd 0%Z xcc) - hd 0%Q (map Qabs gx) / 2)%Q
           (inject_Z (last ycc 0%Z) - last (map Qabs gy) 0%Q / 2)%Q
           (map Qabs gx) (map Qabs gy) xcc ycc a field)).
Proof.
  unfold MartheField._rec2grid.
  rewrite get_data_as_array, get_data_as_rec. cbn [selected mapM].
  rewrite filter_keeps_group.
  destruct (MartheField.dense _ n) as [a|e]; reflexivity.
Qed.

Lemma rec2grid_Ok (field : string) (data : recarray) (l n : nat)
  (mg : MartheGrid.t) :
  MartheField._rec2grid field data l n = Ok mg ->
  grid_key mg = (n, l) /\ group data l n <> [].
Proof.
  rewrite rec2grid_eq. cbv zeta. intros H.
  inv_bind H. inv_bind H. inv_bind H. injection H as <-.
  split; [reflexivity|].
  rewrite dense_group in Hstep.
  destruct (group data l n); [discriminate | congruence].
Qed.

Lemma rec2grid_empty (field : string) (data : recarray) (l n : nat) :
  group data l n = [] ->
  MartheField._rec2grid field data l n = Raise ValueError.
Proof.
  intros H. rewrite rec2grid_eq. cbv zeta. rewrite dense_group, H.
  reflexivity.
Qed.

(** [to_grids] without a selection: one call of [_rec2grid] for every
    nest and every layer of the table, nests outermost. *)
Lemma to_grids_eq (field : string) (data : recarray) :
  MartheField.to_grids field data None None
  = (mgrids <- mapM (fun n =>
                  mapM (fun l => MartheField._rec2grid field data l n)
                       (np.unique Nat.ltb (map Rec.layer data)))
                 (np.unique Nat.ltb (map Rec.inest data)) ;;
     Ok (concat mgrids)).
Proof.
  unfold MartheField.to_grids. rewrite get_data_all. reflexivity.
Qed.

Lemma pair_ltb_irrefl (p : nat * nat) : pair_ltb p p = false.
Proof.
  unfold pair_ltb. rewrite !Nat.ltb_irrefl, andb_false_r. reflexivity.
Qed.

Lemma ascending_app {A : Type} (ltb : A -> A -> bool) (l l' : list A) :
  ascending ltb l -> ascending ltb l' ->
  (forall a b, In a l -> In b l' -> ltb a b = true) ->
  ascending ltb (l ++ l').
Proof.
  unfold ascending. induction 1 as [|a l Hs IH Ha]; simpl; intros Hl' Hc;
    [assumption|].
  constructor; [apply IH; auto|].
  rewrite Forall_forall in Ha |- *. intros b Hb.
  apply in_app_or in Hb. destruct Hb; auto.
Qed.

(** The pairs of two ascending lists, first component outermost, ascend
    in the order of the pairs. *)
Lemma ascending_pairs (ns ls : list nat) :
  ascending Nat.ltb ns -> ascending Nat.ltb ls ->
  ascending pair_ltb (list_prod ns ls).
Proof.
  intros Hn Hl. induction Hn as [|n ns Hs IH Hlt]; simpl; [constructor|].
  apply ascending_app; [|exact IH|].
  - clear - Hl. induction Hl as [|l ls Hs IH Hlt]; simpl; constructor; auto.
    rewrite Forall_forall in Hlt |- *. intros p Hp.
    apply in_map_iff in Hp. destruct Hp as (l' & <- & Hl').
    unfold pair_ltb. simpl. rewrite Nat.eqb_refl, (Hlt l' Hl').
    apply orb_true_r.
  - intros p q Hp Hq. apply in_map_iff in Hp. destruct Hp as (l & <- & _).
    destruct q as [n' l']. apply in_prod_iff in Hq.
    rewrite Forall_forall in Hlt. unfold pair_ltb. simpl.
    rewrite (Hlt n') by tauto. reflexivity.
Qed.

(** C5, amended.  [to_grids] visits every combination of a nest id of
    the table and a layer id of the table, nests ascending and, within a
    nest, layers ascending.  Whenever it returns, these combinations are
    exactly the distinct (inest, layer) pairs of the table and it has
    produced one grid for each, in that order; it raises when some
    combination has no record. *)
Theorem to_grids_one_grid_per_pair (field : string) (data : recarray) :
  (forall mgrids,
     MartheField.to_grids field data None None = Ok mgrids ->
     map grid_key mgrids
     = list_prod (np.unique Nat.ltb (map Rec.inest data))
                 (np.unique Nat.ltb (map Rec.layer data)) /\
     ascending pair_ltb (map grid_key mgrids) /\
     NoDup (map grid_key mgrids) /\
     forall n l, In (n, l) (map grid_key mgrids) <->
                 exists r, In r data /\ Rec.inest r = n /\ Rec.layer r = l)
  /\
  (forall n l, In n (map Rec.inest data) -> In l (map Rec.layer data) ->
     (forall r, In r data -> ~ (Rec.inest r = n /\ Rec.layer r = l)) ->
     is_ok (MartheField.to_grids field data None None) = false).
Proof.
  split.
  - intros mgrids H. rewrite to_grids_eq in H. inv_bind H.
    injection H as <-.
    apply (mapM_nested_Forall2
             (fun n l => MartheField._rec2grid field data l n)) in Hstep.
    assert (Hkeys : map grid_key (concat a)
                    = list_prod (np.unique Nat.ltb (map Rec.inest data))
                                (np.unique Nat.ltb (map Rec.layer data))).
    { rewrite <- (map_id (list_prod _ _)). apply Forall2_map_eq.
      eapply Forall2_impl; [|exact Hstep]. intros [n l] mg Hmg. simpl in *.
      apply rec2grid_Ok in Hmg. tauto. }
    assert (Hasc : ascending pair_ltb (map grid_key (concat a))).
    { rewrite Hkeys.
      apply ascending_pairs;
        apply (ascending_unique Nat.ltb nat_ltb_trans nat_ltb_total). }
    split; [exact Hkeys|]. split; [exact Hasc|].
    split; [eapply ascending_NoDup; [apply pair_ltb_irrefl | exact Hasc]|].
    intros n l. rewrite Hkeys, in_prod_iff, !In_unique_nat. split.
    + intros [Hn Hl].
      assert (Hin : In (n, l) (list_prod
                                 (np.unique Nat.ltb (map Rec.inest data))
                                 (np.unique Nat.ltb (map Rec.layer data)))).
      { apply in_prod_iff. rewrite !In_unique_nat. tauto. }
      clear - Hstep Hin. induction Hstep as [|p mg ps mgs Hp _ IH];
        [contradiction|].
      destruct Hin as [->|Hin]; [|auto]. simpl in Hp.
      apply rec2grid_Ok in Hp. destruct Hp as (_ & Hne).
      destruct (group data l n) as [|r g] eqn:E; [congruence|].
      assert (Hr : In r (group data l n)) by (rewrite E; simpl; auto).
      apply group_In in Hr. exists r. tauto.
    + intros (r & Hr & <- & <-). split; apply in_map, Hr.
  - intros n l Hn Hl Hnone. rewrite to_grids_eq.
    match goal with
    | |- is_ok (bind ?c _) = false =>
        assert (E : is_ok c = false); [|destruct c; [discriminate|reflexivity]]
    end.
    apply (mapM_Raise_In _ _ n); [apply In_unique_nat, Hn|].
    apply (mapM_Raise_In _ _ l); [apply In_unique_nat, Hl|].
    rewrite rec2grid_empty; [reflexivity|].
    destruct (group data l n) as [|r g] eqn:E; [reflexivity|].
    assert (Hr : In r (group data l n)) by (rewrite E; simpl; auto).
    apply group_In in Hr. exfalso. apply (Hnone r); tauto.
Qed.

Lemma to_grids_one_grid_per_pair_witness :
  exists mgrids,
    MartheField.to_grids "permh" Examples.table_2x2 None None = Ok mgrids /\
    map grid_key mgrids = [(0, 0)] /\
    ascending pair_ltb (map grid_key mgrids).
Proof.
  eexists. split; [reflexivity|].
  destruct (proj1 (to_grids_one_grid_per_pair "permh" Examples.table_2x2)
              _ eq_refl) as (Hkeys & Hasc & _).
  split; [exact Hkeys | exact Hasc].
Defined.

Ltac concrete_NoDup :=
  cbv; repeat (apply NoDup_cons; [cbv; intuition congruence|]);
  apply NoDup_nil.

(** C5 as stated fails: both (inest, layer) pairs of this table are
    complete rectangles, and [to_grids] returns no grid for them: it
    raises on layer 1 of the main grid, which has no record. *)
Lemma to_grids_absent_combination_counterexample :
  complete (group Examples.table_diag 0 0) /\
  complete (group Examples.table_diag 1 1) /\
  MartheField.to_grids "permh" Examples.table_diag None None
  = Raise ValueError /\
  ~ exists mgrids,
      MartheField.to_grids "permh" Examples.table_diag None None
      = Ok mgrids.
Proof.
  split; [|split; [|split]].
  - apply complete_iff_count; [concrete_NoDup|].
    split; [discriminate | reflexivity].
  - apply complete_iff_count; [concrete_NoDup|].
    split; [discriminate | reflexivity].
  - reflexivity.
  - intros (mgrids & H). discriminate H.
Qed.

(** ** The records of a grid *)

Lemma records_In (mg : MartheGrid.t) (rec : Rec.t) :
  In rec (MartheGrid.records mg) <->
  exists r c, r < MartheGrid.nrow mg /\ c < MartheGrid.ncol mg /\
    rec = Rec.mk (MartheGrid.layer mg) (MartheGrid.inest mg) r c
            (nth c (MartheGrid.xcc mg) 0%Z) (nth r (MartheGrid.ycc mg) 0%Z)
            (nth (r * MartheGrid.ncol mg + c)
                 (ravel (MartheGrid.array mg)) 0%Z).
Proof.
  unfold MartheGrid.records. rewrite in_flat_map. split.
  - intros (r & Hr & H). apply in_map_iff in H. destruct H as (c & <- & Hc).
    apply in_seq in Hr, Hc. exists r, c. repeat split; lia.
  - intros (r & c & Hr & Hc & ->). exists r. split; [apply in_seq; lia|].
    apply in_map_iff. exists c. split; [reflexivity | apply in_seq; lia].
Qed.

Lemma length_rows {A B : Type} (row : A -> list B) (k : nat) (l : list A) :
  (forall a, length (row a) = k) -> length (flat_map row l) = length l * k.
Proof.
  intros H. induction l as [|a l IH]; simpl; [reflexivity|].
  rewrite length_app, H, IH. reflexivity.
Qed.

Lemma length_records (mg : MartheGrid.t) :
  length (MartheGrid.records mg) = MartheGrid.nrow mg * MartheGrid.ncol mg.
Proof.
  unfold MartheGrid.records.
  rewrite (length_rows _ (MartheGrid.ncol mg)), length_seq; [reflexivity|].
  intros r. rewrite length_map, length_seq. reflexivity.
Qed.

Lemma top_le (col : list nat) (m : nat) :
  (forall a, In a col -> a <= m) -> top col <= m.
Proof.
  induction col as [|a col IH]; simpl; intros H; [lia|].
  pose proof (H a (or_introl eq_refl)). assert (top col <= m) by auto. lia.
Qed.

Lemma top_records_i (mg : MartheGrid.t) :
  1 <= MartheGrid.nrow mg -> 1 <= MartheGrid.ncol mg ->
  top (map Rec.i (MartheGrid.records mg)) + 1 = MartheGrid.nrow mg.
Proof.
  intros Hr Hc.
  assert (top (map Rec.i (MartheGrid.records mg)) <= MartheGrid.nrow mg - 1).
  { apply top_le. intros a Ha. apply in_map_iff in Ha.
    destruct Ha as (rec & <- & Hrec). apply records_In in Hrec.
    destruct Hrec as (r & c & ? & ? & ->). simpl. lia. }
  assert (MartheGrid.nrow mg - 1 <= top (map Rec.i (MartheGrid.records mg))).
  { apply top_ge. apply in_map_iff. eexists. split; [|apply records_In].
    2:{ exists (MartheGrid.nrow mg - 1), 0. repeat split; lia. }
    reflexivity. }
  lia.
Qed.

Lemma top_records_j (mg : MartheGrid.t) :
  1 <= MartheGrid.nrow mg -> 1 <= MartheGrid.ncol mg ->
  top (map Rec.j (MartheGrid.records mg)) + 1 = MartheGrid.ncol mg.
Proof.
  intros Hr Hc.
  assert (top (map Rec.j (MartheGrid.records mg)) <= MartheGrid.ncol mg - 1).
  { apply top_le. intros a Ha. apply in_map_iff in Ha.
    destruct Ha as (rec & <- & Hrec). apply records_In in Hrec.
    destruct Hrec as (r & c & ? & ? & ->). simpl. lia. }
  assert (MartheGrid.ncol mg - 1 <= top (map Rec.j (MartheGrid.records mg))).
  { apply top_ge. apply in_map_iff. eexists. split; [|apply records_In].
    2:{ exists 0, (MartheGrid.ncol mg - 1). repeat split; lia. }
    reflexivity. }
  lia.
Qed.

(** Reading an array of [nr] rows of [nc] elements cell by cell, row by
    row, gives back its elements in C order. *)
Lemma row_of_cells (d : Z) (l : list Z) (k n : nat) :
  k + n <= length l ->
  map (fun c => nth (k + c) l d) (seq 0 n) = firstn n (skipn k l).
Proof.
  intros H. apply (nth_ext _ _ d d).
  - rewrite length_map, length_seq, length_firstn, length_skipn. lia.
  - rewrite length_map, length_seq. intros c Hc.
    rewrite nth_firstn, nth_skipn.
    replace (c <? n) with true by (symmetry; apply Nat.ltb_lt; exact Hc).
    rewrite (nth_indep _ d (nth (k + 0) l d))
      by (rewrite length_map, length_seq; exact Hc).
    rewrite (map_nth (fun c => nth (k + c) l d)), seq_nth by exact Hc.
    reflexivity.
Qed.

Lemma firstn_plus {A : Type} (a b : nat) (l : list A) :
  firstn (a + b) l = firstn a l ++ firstn b (skipn a l).
Proof.
  revert l; induction a as [|a IH]; intros [|x l]; simpl;
    try rewrite firstn_nil; try reflexivity.
  rewrite IH. reflexivity.
Qed.

Lemma cells_of_rows (d : Z) (l : list Z) (nc nr s : nat) :
  (s + nr) * nc <= length l ->
  flat_map (fun r => map (fun c => nth (r * nc + c) l d) (seq 0 nc))
    (seq s nr)
  = firstn (nr * nc) (skipn (s * nc) l).
Proof.
  revert s; induction nr as [|nr IH]; intros s H; simpl; [reflexivity|].
  rewrite row_of_cells by nia. rewrite IH by nia.
  rewrite firstn_plus, skipn_skipn. do 2 f_equal; lia.
Qed.

Lemma values_records (mg : MartheGrid.t) :
  length (ravel (MartheGrid.array mg))
  = MartheGrid.nrow mg * MartheGrid.ncol mg ->
  map Rec.value (MartheGrid.records mg) = ravel (MartheGrid.array mg).
Proof.
  intros H. unfold MartheGrid.records.
  rewrite flat_map_concat_map, concat_map, map_map.
  rewrite <- flat_map_concat_map.
  erewrite flat_map_ext.
  2:{ intros r. rewrite map_map. simpl. reflexivity. }
  rewrite (cells_of_rows 0%Z _ (MartheGrid.ncol mg) (MartheGrid.nrow mg) 0)
    by (simpl; lia).
  simpl. apply firstn_all2. lia.
Qed.

Lemma records_x_In (mg : MartheGrid.t) (v : Z) :
  1 <= MartheGrid.nrow mg ->
  length (MartheGrid.xcc mg) = MartheGrid.ncol mg ->
  In v (map Rec.x (MartheGrid.records mg)) <-> In v (MartheGrid.xcc mg).
Proof.
  intros Hr Hx. rewrite in_map_iff. split.
  - intros (rec & <- & H). apply records_In in H.
    destruct H as (r & c & _ & Hc & ->). simpl. apply nth_In. lia.
  - intros H. apply (In_nth _ _ 0%Z) in H. destruct H as (c & Hc & <-).
    eexists. split; [|apply records_In; exists 0, c;
                       split; [lia|split; [lia|reflexivity]]].
    reflexivity.
Qed.

Lemma records_y_In (mg : MartheGrid.t) (v : Z) :
  1 <= MartheGrid.ncol mg ->
  length (MartheGrid.ycc mg) = MartheGrid.nrow mg ->
  In v (map Rec.y (MartheGrid.records mg)) <-> In v (MartheGrid.ycc mg).
Proof.
  intros Hc Hy. rewrite in_map_iff. split.
  - intros (rec & <- & H). apply records_In in H.
    destruct H as (r & c & Hr & _ & ->). simpl. apply nth_In. lia.
  - intros H. apply (In_nth _ _ 0%Z) in H. destruct H as (r & Hr & <-).
    eexists. split; [|apply records_In; exists r, 0;
                       split; [lia|split; [lia|reflexivity]]].
    reflexivity.
Qed.

Lemma gradient_Ok (col : list Z) :
  2 <= length col -> exists g, np.gradient col = Ok g.
Proof.
  intros H. unfold np.gradient.
  pose proof (length_rev col) as Hrev.
  destruct col as [|a [|b col]]; simpl in H; try lia.
  destruct (rev (a :: b :: col)) as [|z [|w t]]; simpl in Hrev; try lia.
  eauto.
Qed.

(** On the records of a regular grid, [np.unique] finds the coordinate
    vectors of the grid. *)
Lemma unique_records_x (mg : MartheGrid.t) :
  regular_grid mg ->
  np.unique Z.ltb (map Rec.x (MartheGrid.records mg)) = MartheGrid.xcc mg.
Proof.
  intros (Hr & Hc & _ & _ & _ & Hx & _ & Hax & _).
  apply (unique_ascending_eq Z.ltb Z_ltb_irrefl Z_ltb_trans Z_ltb_total
           _ _ Hax).
  intros v. apply records_x_In; lia.
Qed.

Lemma unique_records_y (mg : MartheGrid.t) :
  regular_grid mg ->
  np.flip (np.unique Z.ltb (map Rec.y (MartheGrid.records mg)))
  = MartheGrid.ycc mg.
Proof.
  intros (Hr & Hc & _ & _ & _ & _ & Hy & _ & Hay).
  unfold np.flip.
  rewrite (unique_ascending_eq Z.ltb Z_ltb_irrefl Z_ltb_trans Z_ltb_total
             _ (rev (MartheGrid.ycc mg)) Hay).
  - apply rev_involutive.
  - intros v. rewrite <- in_rev. apply records_y_In; lia.
Qed.

Lemma same_cells_to_records (mg mg' : MartheGrid.t) :
  regular_grid mg -> same_cells mg mg' ->
  MartheGrid.to_records mg' = Ok (MartheGrid.records mg).
Proof.
  intros (_ & _ & Har & Hac & Hlen & Hx & Hy & _)
         (Hl & Hn & Hnr & Hnc & Hxcc & Hycc & Harr).
  unfold MartheGrid.to_records, MartheGrid.records.
  rewrite Hl, Hn, Hnr, Hnc, Hxcc, Hycc, Harr.
  rewrite Har, Hac, Hlen, Hx, Hy, !Nat.eqb_refl. reflexivity.
Qed.

Lemma rec2grid_records (field : string) (data : recarray)
  (mg : MartheGrid.t) :
  regular_grid mg ->
  group data (MartheGrid.layer mg) (MartheGrid.inest mg)
  = MartheGrid.records mg ->
  exists mg',
    MartheField._rec2grid field data
      (MartheGrid.layer mg) (MartheGrid.inest mg) = Ok mg' /\
    same_cells mg mg'.
Proof.
  intros Hreg Hgroup.
  pose proof Hreg as (Hr & Hc & Har & Hac & Hlen & Hx & Hy & Hax & Hay).
  rewrite rec2grid_eq, dense_group, Hgroup. cbv zeta.
  rewrite unique_records_x, unique_records_y by exact Hreg.
  rewrite top_records_i, top_records_j by lia.
  rewrite values_records by exact Hlen.
  destruct (MartheGrid.records mg) as [|r0 recs] eqn:Erec.
  { pose proof (length_records mg) as Hl. rewrite Erec in Hl. simpl in Hl.
    nia. }
  unfold np.reshape. rewrite Hlen, Nat.eqb_refl. cbn [bind].
  destruct (gradient_Ok (MartheGrid.xcc mg)) as (gx & Egx); [lia|].
  destruct (gradient_Ok (MartheGrid.ycc mg)) as (gy & Egy); [lia|].
  rewrite Egx, Egy. cbn [bind]. eexists. split; [reflexivity|].
  unfold same_cells. cbn.
  repeat split. destruct (MartheGrid.array mg). simpl in *. congruence.
Qed.

(** ** Blocks of a table in the layout of the grid expansion *)

Lemma group_records (mg : MartheGrid.t) (l n : nat) :
  group (MartheGrid.records mg) l n
  = if (MartheGrid.layer mg =? l) && (MartheGrid.inest mg =? n)
    then MartheGrid.records mg else [].
Proof.
  unfold group.
  assert (Hl : forall rec, In rec (MartheGrid.records mg) ->
                 Rec.layer rec = MartheGrid.layer mg /\
                 Rec.inest rec = MartheGrid.inest mg).
  { intros rec H. apply records_In in H.
    destruct H as (r & c & _ & _ & ->). auto. }
  destruct (MartheGrid.layer mg =? l) eqn:El; simpl.
  - rewrite (filter_true (fun r => Rec.layer r =? l)).
    2:{ intros rec H. destruct (Hl rec H) as (-> & _). exact El. }
    destruct (MartheGrid.inest mg =? n) eqn:En.
    + apply filter_true. intros rec H. destruct (Hl rec H) as (_ & ->).
      exact En.
    + apply filter_false. intros rec H. destruct (Hl rec H) as (_ & ->).
      exact En.
  - rewrite (filter_false (fun r => Rec.layer r =? l)); [reflexivity|].
    intros rec H. destruct (Hl rec H) as (-> & _). exact El.
Qed.

Lemma group_app (a b : recarray) (l n : nat) :
  group (a ++ b) l n = group a l n ++ group b l n.
Proof. unfold group. rewrite !filter_app. reflexivity. Qed.

Lemma group_other_blocks (grids : list MartheGrid.t) (l n : nat) :
  ~ In (n, l) (map grid_key grids) ->
  group (concat (map MartheGrid.records grids)) l n = [].
Proof.
  induction grids as [|mg grids IH]; simpl; intros H; [reflexivity|].
  rewrite group_app, group_records, IH by tauto.
  destruct (Nat.eqb_spec (MartheGrid.layer mg) l) as [El|El];
    destruct (Nat.eqb_spec (MartheGrid.inest mg) n) as [En|En];
    simpl; try reflexivity.
  exfalso. apply H. left. unfold grid_key. congruence.
Qed.

(** The group of a pair is the block of the grid of that pair. *)
Lemma group_block (grids : list MartheGrid.t) (mg : MartheGrid.t) :
  NoDup (map grid_key grids) -> In mg grids ->
  group (concat (map MartheGrid.records grids))
    (MartheGrid.layer mg) (MartheGrid.inest mg)
  = MartheGrid.records mg.
Proof.
  induction grids as [|a grids IH]; simpl; intros Hnd Hin; [contradiction|].
  inversion Hnd as [|? ? Hnotin Hnd']; subst.
  rewrite group_app, group_records.
  destruct Hin as [->|Hin].
  - rewrite !Nat.eqb_refl. simpl.
    rewrite group_other_blocks by exact Hnotin. apply app_nil_r.
  - rewrite IH by assumption.
    destruct (Nat.eqb_spec (MartheGrid.layer a) (MartheGrid.layer mg))
      as [El|El];
      destruct (Nat.eqb_spec (MartheGrid.inest a) (MartheGrid.inest mg))
        as [En|En]; simpl; try reflexivity.
    exfalso. apply Hnotin. apply in_map_iff. exists mg.
    split; [|exact Hin]. unfold grid_key. congruence.
Qed.

Lemma records_first (mg : MartheGrid.t) :
  regular_grid mg ->
  exists rec, In rec (MartheGrid.records mg) /\
    Rec.layer rec = MartheGrid.layer mg /\
    Rec.inest rec = MartheGrid.inest mg.
Proof.
  intros (Hr & Hc & _). eexists. split.
  - apply records_In. exists 0, 0. split; [lia|]. split; [lia|reflexivity].
  - split; reflexivity.
Qed.

Lemma key_In_grid (grids : list MartheGrid.t) (ns ls : list nat) (n l : nat) :
  map grid_key grids = list_prod ns ls ->
  In n ns -> In l ls ->
  exists mg, In mg grids /\ MartheGrid.inest mg = n /\ MartheGrid.layer mg = l.
Proof.
  intros Hkeys Hn Hl.
  assert (H : In (n, l) (map grid_key grids)).
  { rewrite Hkeys. apply in_prod; assumption. }
  apply in_map_iff in H. destruct H as (mg & E & H).
  injection E as <- <-. eauto.
Qed.

Lemma canonical_inests (grids : list MartheGrid.t) (ns ls : list nat) :
  ls <> [] -> ascending Nat.ltb ns ->
  map grid_key grids = list_prod ns ls -> Forall regular_grid grids ->
  np.unique Nat.ltb
    (map Rec.inest (concat (map MartheGrid.records grids))) = ns.
Proof.
  intros Hls Hns Hkeys Hreg.
  apply (unique_ascending_eq Nat.ltb nat_ltb_irrefl nat_ltb_trans
           nat_ltb_total _ _ Hns).
  intros n. rewrite in_map_iff. rewrite Forall_forall in Hreg. split.
  - intros (rec & <- & H). apply in_concat in H.
    destruct H as (block & Hb & H). apply in_map_iff in Hb.
    destruct Hb as (mg & <- & Hmg). apply records_In in H.
    destruct H as (r & c & _ & _ & ->). simpl.
    assert (Hk : In (grid_key mg) (list_prod ns ls)).
    { rewrite <- Hkeys. apply in_map, Hmg. }
    apply in_prod_iff in Hk. tauto.
  - intros Hn. destruct ls as [|l ls]; [congruence|].
    destruct (key_In_grid grids ns (l :: ls) n l Hkeys Hn (or_introl eq_refl))
      as (mg & Hmg & <- & _).
    destruct (records_first mg (Hreg mg Hmg)) as (rec & Hrec & _ & E).
    exists rec. split; [exact E|]. apply in_concat.
    exists (MartheGrid.records mg). split; [apply in_map, Hmg | exact Hrec].
Qed.

Lemma canonical_layers (grids : list MartheGrid.t) (ns ls : list nat) :
  ns <> [] -> ascending Nat.ltb ls ->
  map grid_key grids = list_prod ns ls -> Forall regular_grid grids ->
  np.unique Nat.ltb
    (map Rec.layer (concat (map MartheGrid.records grids))) = ls.
Proof.
  intros Hns Hls Hkeys Hreg.
  apply (unique_ascending_eq Nat.ltb nat_ltb_irrefl nat_ltb_trans
           nat_ltb_total _ _ Hls).
  intros l. rewrite in_map_iff. rewrite Forall_forall in Hreg. split.
  - intros (rec & <- & H). apply in_concat in H.
    destruct H as (block & Hb & H). apply in_map_iff in Hb.
    destruct Hb as (mg & <- & Hmg). apply records_In in H.
    destruct H as (r & c & _ & _ & ->). simpl.
    assert (Hk : In (grid_key mg) (list_prod ns ls)).
    { rewrite <- Hkeys. apply in_map, Hmg. }
    apply in_prod_iff in Hk. tauto.
  - intros Hl. destruct ns as [|n ns]; [congruence|].
    destruct (key_In_grid grids (n :: ns) ls n l Hkeys (or_introl eq_refl) Hl)
      as (mg & Hmg & _ & <-).
    destruct (records_first mg (Hreg mg Hmg)) as (rec & Hrec & E & _).
    exists rec. split; [exact E|]. apply in_concat.
    exists (MartheGrid.records mg). split; [apply in_map, Hmg | exact Hrec].
Qed.

Lemma mapM_exists {A B : Type} (f : A -> res B) (P : A -> B -> Prop)
  (l : list A) :
  (forall a, In a l -> exists b, f a = Ok b /\ P a b) ->
  exists bs, mapM f l = Ok bs /\ Forall2 P l bs.
Proof.
  induction l as [|a l IH]; simpl; intros H.
  - exists []. split; [reflexivity | constructor].
  - destruct (H a (or_introl eq_refl)) as (b & E & Hb).
    destruct IH as (bs & Ebs & Hbs); [auto|].
    exists (b :: bs). rewrite E. cbn [bind]. rewrite Ebs.
    split; [reflexivity | constructor; assumption].
Qed.

Lemma mapM_nested_exists {A B C : Type} (f : A -> B -> res C)
  (P : A * B -> C -> Prop) (ns : list A) (ls : list B) :
  (forall n l, In n ns -> In l ls -> exists c, f n l = Ok c /\ P (n, l) c) ->
  exists chunks,
    mapM (fun n => mapM (f n) ls) ns = Ok chunks /\
    Forall2 P (list_prod ns ls) (concat chunks).
Proof.
  induction ns as [|n ns IH]; simpl; intros H.
  - exists []. split; [reflexivity | constructor].
  - destruct (mapM_exists (f n) (fun l c => P (n, l) c) ls) as (cs & E & Hcs);
      [intros l Hl; apply H; auto|].
    destruct IH as (chunks & Ech & Hch); [intros; apply H; auto|].
    exists (cs :: chunks). rewrite E. cbn [bind]. rewrite Ech.
    split; [reflexivity|]. simpl. apply Forall2_app; [|exact Hch].
    clear - Hcs. induction Hcs; simpl; constructor; auto.
Qed.

Lemma Forall2_mapM {A B C : Type} (f : B -> res C) (g : A -> C)
  (l : list A) (bs : list B) :
  Forall2 (fun a b => f b = Ok (g a)) l bs -> mapM f bs = Ok (map g l).
Proof.
  induction 1 as [|a b l bs E _ IH]; simpl; [reflexivity|].
  rewrite E. cbn [bind]. rewrite IH. reflexivity.
Qed.

(** C3, amended.  For a table in the layout of the grid expansion (one
    regular block for every combination of its nest ids and layer ids,
    nests ascending then layers ascending, each block a full rectangle of
    at least two rows and two columns stored row by row, with x strictly
    increasing along the columns and y strictly decreasing along the
    rows), converting to grids and back returns the table itself, values
    and geometry, with no error at all on the coordinates. *)
Theorem grids_round_trip (field : string) (table : recarray) :
  canonical table ->
  (mgrids <- MartheField.to_grids field table None None ;;
   MartheField.grids2rec mgrids) = Ok table.
Proof.
  intros (grids & ns & ls & Hns & Hls & Hans & Hals & Hkeys & Hreg & ->).
  set (table := concat (map MartheGrid.records grids)).
  assert (Hnd : NoDup (map grid_key grids)).
  { rewrite Hkeys. apply (ascending_NoDup pair_ltb pair_ltb_irrefl).
    apply ascending_pairs; assumption. }
  rewrite to_grids_eq.
  unfold table at 2 3.
  rewrite (canonical_inests grids ns ls), (canonical_layers grids ns ls)
    by assumption.
  destruct (mapM_nested_exists
              (fun n l => MartheField._rec2grid field table l n)
              (fun p mg' => MartheGrid.to_records mg'
                            = Ok (group table (snd p) (fst p)))
              ns ls) as (chunks & E & Hch).
  { intros n l Hn Hl.
    destruct (key_In_grid grids ns ls n l Hkeys Hn Hl)
      as (mg & Hmg & <- & <-).
    rewrite Forall_forall in Hreg.
    pose proof (group_block grids mg Hnd Hmg) as Hblock. fold table in Hblock.
    destruct (rec2grid_records field table mg (Hreg mg Hmg) Hblock)
      as (mg' & Emg' & Hsame).
    exists mg'. split; [exact Emg'|]. simpl. rewrite Hblock.
    apply same_cells_to_records; auto. }
  rewrite E. cbn [bind].
  rewrite <- Hkeys in Hch.
  assert (Hrecs : mapM MartheGrid.to_records (concat chunks)
                  = Ok (map MartheGrid.records grids)).
  { rewrite (Forall2_mapM MartheGrid.to_records
               (fun p => group table (snd p) (fst p))
               (map grid_key grids) (concat chunks) Hch).
    f_equal. rewrite map_map. apply map_ext_in. intros mg Hmg. simpl.
    apply (group_block grids mg Hnd Hmg). }
  unfold MartheField.grids2rec.
  destruct (concat chunks) as [|mg0 mgs] eqn:Ec.
  - exfalso. apply Forall2_length in Hch. rewrite length_map in Hch.
    assert (Hlen : length (map grid_key grids) = length ns * length ls).
    { rewrite Hkeys. apply length_prod. }
    rewrite length_map in Hlen.
    destruct ns; [congruence|]. destruct ls; [congruence|].
    simpl in Hch, Hlen. lia.
  - rewrite Hrecs. reflexivity.
Qed.

Lemma grid_2x2_regular : regular_grid Examples.grid_2x2.
Proof.
  unfold regular_grid. simpl.
  repeat (split; [solve [lia | reflexivity]|]).
  split; repeat constructor.
Qed.

Lemma table_2x2_canonical : canonical Examples.table_2x2.
Proof.
  exists [Examples.grid_2x2], [0], [0].
  split; [discriminate|]. split; [discriminate|].
  split; [repeat constructor|]. split; [repeat constructor|].
  split; [reflexivity|].
  split; [constructor; [exact grid_2x2_regular | constructor]|].
  reflexivity.
Qed.

Lemma grids_round_trip_witness :
  canonical Examples.table_2x2 /\
  (mgrids <- MartheField.to_grids "permh" Examples.table_2x2 None None ;;
   MartheField.grids2rec mgrids) = Ok Examples.table_2x2.
Proof.
  split; [exact table_2x2_canonical|].
  exact (grids_round_trip "permh" Examples.table_2x2 table_2x2_canonical).
Defined.

(** C3 as stated fails: the only block of this table is a complete
    rectangle with one record per cell, but its records are stored
    column by column; the round trip returns another table, with a
    record that the table does not have. *)
Lemma round_trip_storage_order_counterexample :
  complete (group Examples.table_by_columns 0 0) /\
  unique_cells Examples.table_by_columns /\
  exists table',
    (mgrids <- MartheField.to_grids "permh" Examples.table_by_columns
                 None None ;;
     MartheField.grids2rec mgrids) = Ok table' /\
    table' <> Examples.table_by_columns /\
    In (Examples.R 0 0 0 1 15 15 7) table' /\
    ~ In (Examples.R 0 0 0 1 15 15 7) Examples.table_by_columns.
Proof.
  split; [|split].
  - apply complete_iff_count; [concrete_NoDup|].
    split; [discriminate | reflexivity].
  - concrete_NoDup.
  - eexists. split; [reflexivity|]. split; [discriminate|].
    split; [cbv; tauto|]. cbv. intuition congruence.
Qed.

(** A block of a single row is a complete rectangle, and [to_grids]
    raises on it: there is no gradient of its one y coordinate. *)
Lemma to_grids_single_row_raises :
  complete (group Examples.table_1x3 0 0) /\
  MartheField.to_grids "permh" Examples.table_1x3 None None
  = Raise ValueError.
Proof.
  split; [|reflexivity].
  apply complete_iff_count; [concrete_NoDup|].
  split; [discriminate | reflexivity].
Qed.

(** ** Field series *)

(** The default [masked_values] of [get_tseries], [dmv[::2]], does not
    hold 0. *)
Lemma replace_default (v : Z) :
  MartheFieldSeries.replace (every_other dmv) v = NaN <->
  v = (-9999)%Z \/ v = 9999%Z.
Proof.
  unfold MartheFieldSeries.replace. simpl.
  destruct (Z.eqb_spec v (-9999)); destruct (Z.eqb_spec v 9999); simpl;
    split; intros H; auto; try discriminate; destruct H; contradiction.
Qed.

(** C4, on the code.  With its default [masked_values], [get_tseries]
    keeps an extracted 0 as a number: at timestep 2 the values at the two
    nodes are 0 and -9999, and the frame holds 0 and the missing-value
    marker; no position is dropped. *)
Theorem get_tseries_default_keeps_zero :
  exists h s,
    MartheFieldSeries.load_field Examples.chasim Examples.mm Examples.mfs
      Examples.heap0 "CHARGE" None = Ok (h, s) /\
    MartheFieldSeries.get_tseries Examples.mm s h "CHARGE"
      [5; 5]%Z [15; 5]%Z [0] None "istep" None
    = Ok (Some (MartheFieldSeries.mk_frame
                  [MartheFieldSeries.ByIstep 2; MartheFieldSeries.ByIstep 5]
                  None
                  [[Num 0; NaN]; [Num 5; NaN]])).
Proof. eexists. eexists. split; reflexivity. Qed.

(** C6, on the code.  For a field of the file, requested timesteps that
    the file does not have are dropped; but when none of the requested
    timesteps is in the file, [load_field] raises instead of loading
    nothing.  An unknown field fails the assertion. *)
Theorem load_field_no_timestep_left_raises :
  MartheFieldSeries.load_field Examples.chasim Examples.mm Examples.mfs
    Examples.heap0 "CHARGE" (Some [999]) = Raise ValueError /\
  (exists h s loaded,
     MartheFieldSeries.load_field Examples.chasim Examples.mm Examples.mfs
       Examples.heap0 "CHARGE" (Some [2; 5; 999]) = Ok (h, s) /\
     dict_get String.eqb (MartheFieldSeries.data_of s) "CHARGE"%string
     = Some (Some loaded) /\
     keys loaded = [2; 5]) /\
  MartheFieldSeries.load_field Examples.chasim Examples.mm Examples.mfs
    Examples.heap0 "PRESSION" None = Raise AssertionError.
Proof.
  split; [reflexivity|]. split; [|reflexivity].
  eexists. eexists. eexists. split; [reflexivity|].
  split; reflexivity.
Qed.

Lemma load_field_unknown (file : MartheFieldSeries.stream)
  (mm : MartheField.MartheModel) (self : MartheFieldSeries.t) (h : heap)
  (field : string) (istep : option (list nat)) :
  ~ In field (MartheFieldSeries.fields self) ->
  MartheFieldSeries.load_field file mm self h field istep
  = Raise AssertionError.
Proof.
  intros H. unfold MartheFieldSeries.load_field,
    MartheFieldSeries.check_fieldname.
  destruct (existsb (String.eqb field) (MartheFieldSeries.fields self))
    eqn:E; [|reflexivity].
  exfalso. apply H. apply existsb_exists in E. destruct E as (f & Hf & E).
  apply String.eqb_eq in E. congruence.
Qed.

(** ** Sharing of record arrays *)

Lemma get_masked_shape (mm : MartheField.MartheModel)
  (self : MartheField.t) (h h' : heap) (rec m : loc) :
  MartheField.get_masked mm self h rec = Ok (h', m) ->
  (MartheField.model_dependent self = false /\ h' = h /\ m = rec) \/
  (MartheField.model_dependent self = true /\
   exists t, h' = h ++ [t] /\ m = length h).
Proof.
  intros H. destruct (MartheField.model_dependent self) eqn:Hdep.
  - right. split; [reflexivity|].
    destruct (get_masked_dependent_Ok mm self h h' rec m Hdep H)
      as (ref & t & _ & -> & -> & _). eauto.
  - left. rewrite (get_masked_independent mm self h rec Hdep) in H.
    injection H as <- <-. auto.
Qed.

Lemma rec3d_shape (mm : MartheField.MartheModel) (h h' : heap)
  (arr : ndarray) (r : loc) :
  MartheField._3d2rec mm h arr = Ok (h', r) ->
  exists a b, h' = h ++ [a; b] /\ r = S (length h).
Proof.
  unfold MartheField._3d2rec. intros H.
  inv_bind H. inv_bind H. unfold deepcopy, alloc in H. cbn beta iota in H.
  inv_bind H. injection H as <- <-.
  exists a0, (set_values a0 a1). rewrite <- app_assoc, length_app. simpl.
  split; [reflexivity | lia].
Qed.

Lemma extends_refl (h : heap) : extends h h.
Proof. exists []. symmetry. apply app_nil_r. Qed.

Lemma extends_app (h : heap) (ext : list recarray) : extends h (h ++ ext).
Proof. exists ext. reflexivity. Qed.

Lemma extends_trans (h1 h2 h3 : heap) :
  extends h1 h2 -> extends h2 h3 -> extends h1 h3.
Proof.
  intros (e1 & ->) (e2 & ->). exists (e1 ++ e2). symmetry. apply app_assoc.
Qed.

Lemma extends_nth_error (h h' : heap) (k : loc) :
  extends h h' -> k < length h -> nth_error h' k = nth_error h k.
Proof. intros (ext & ->) Hk. apply nth_error_app1, Hk. Qed.

Lemma extends_length (h h' : heap) : extends h h' -> length h <= length h'.
Proof. intros (ext & ->). rewrite length_app. lia. Qed.

(** What a call of [set_data] does to the heap and to the reference of
    the field: either it only adds arrays, and the field keeps its
    reference or takes a new array or (for a field that is not model
    dependent, given a record array) the array it was given; or it
    updates the table of the field in place. *)
Lemma set_data_shape (read_grid_file : MartheField.reader)
  (mm : MartheField.MartheModel) (self self' : MartheField.t)
  (h h' : heap) (data : data_arg) (layer inest : option (list nat)) :
  MartheField.set_data read_grid_file mm self h data layer inest
  = Ok (h', self') ->
  (extends h h' /\
   (MartheField.data_ref self' = MartheField.data_ref self \/
    exists l, MartheField.data_ref self' = Some l /\
      (length h <= l \/
       (MartheField.model_dependent self = false /\ data = DRec l))))
  \/
  (exists l x, MartheField.data_ref self = Some l /\ l < length h /\
     h' = store h l x /\ self' = self).
Proof.
  intros H. unfold MartheField.set_data in H.
  destruct data as [filename|v|rec|arr|grids].
  - left. destruct layer, inest; cbn [is_none andb] in H;
      try (injection H as <- <-; split; [apply extends_refl | auto]).
    inv_bind H. inv_bind H. unfold alloc in H. cbn beta iota in H.
    inv_bind H. destruct a1 as [h2 m]. injection H as <- <-.
    apply get_masked_shape in Hstep1.
    destruct Hstep1 as [(_ & -> & ->)|(_ & t & -> & ->)].
    + split; [apply extends_app|]. right. exists (length h). simpl. auto.
    + split; [rewrite <- app_assoc; apply extends_app|]. right.
      eexists. simpl. split; [reflexivity|]. left. rewrite length_app. lia.
  - assert (Hexcept :
      forall h2 s2,
        (imask_data <- MartheField.attr_data h (MartheField.imask mm) ;;
         let (h1, rec) := deepcopy h imask_data in
         sel <- MartheField.get_data imask_data layer inest false true
                  (MartheField.dmv self) ;;
         match sel with
         | AsMask mask =>
             col <- np.setitem_mask_scalar
                      (map Rec.value imask_data) mask v ;;
             Ok (store h1 rec (set_values imask_data col),
                 MartheField.set_data_attr self rec)
         | _ => Raise TypeError
         end) = Ok (h2, s2) ->
        extends h h2 /\
        exists l, MartheField.data_ref s2 = Some l /\ length h <= l).
    { intros h2 s2 H2. inv_bind H2. unfold deepcopy, alloc in H2.
      cbn beta iota in H2. rewrite get_data_as_mask in H2. cbn [bind] in H2.
      inv_bind H2. injection H2 as <- <-. rewrite store_new.
      split; [apply extends_app|]. exists (length h). simpl. auto. }
    destruct (MartheField.data_ref self) as [l|] eqn:Hl.
    + destruct (load h l) as [sd|e] eqn:Hsd; cbn [bind] in H.
      * rewrite get_data_as_mask in H. cbn [bind] in H.
        destruct (setitem_mask_scalar_Ok (map Rec.value sd)
                    (map (keeps (selected (map Rec.layer sd) layer)
                                (selected (map Rec.inest sd) inest)
                                (MartheField.dmv self)) sd) v)
          as (col & E & _); [rewrite !length_map; reflexivity|].
        rewrite E in H. cbn [bind] in H. injection H as <- <-.
        right. exists l, (set_values sd col).
        repeat split. eapply load_Ok_lt, Hsd.
      * left. destruct (Hexcept _ _ H) as (Hext & l' & E & Hl').
        split; [exact Hext|]. right. exists l'. auto.
    + left. cbn iota in H. destruct (Hexcept _ _ H) as (Hext & l' & E & Hl').
      split; [exact Hext|]. right. exists l'. auto.
  - left. inv_bind H. destruct a as [h1 m]. injection H as <- <-.
    pose proof Hstep as Hcall. apply get_masked_shape in Hstep.
    destruct Hstep as [(Hdep & -> & ->)|(_ & t & -> & ->)].
    + split; [apply extends_refl|]. right. exists rec. simpl. auto.
    + split; [apply extends_app|]. right. exists (length h). simpl. auto.
  - left. destruct layer, inest; cbn [is_none andb] in H;
      try (injection H as <- <-; split; [apply extends_refl | auto]).
    inv_bind H. inv_bind H. destruct a0 as [h1 r]. cbn beta iota in H.
    inv_bind H. destruct a0 as [h2 m]. injection H as <- <-.
    apply rec3d_shape in Hstep0. destruct Hstep0 as (a1 & b1 & -> & ->).
    apply get_masked_shape in Hstep1.
    destruct Hstep1 as [(_ & -> & ->)|(_ & t & -> & ->)].
    + split; [apply extends_app|]. right. eexists. simpl.
      split; [reflexivity|]. left. lia.
    + split; [rewrite <- app_assoc; apply extends_app|]. right.
      eexists. simpl. split; [reflexivity|]. left. rewrite length_app. lia.
  - left. destruct layer, inest; cbn [is_none andb] in H;
      try (injection H as <- <-; split; [apply extends_refl | auto]).
    inv_bind H. unfold alloc in H. cbn beta iota in H.
    inv_bind H. destruct a0 as [h2 m]. injection H as <- <-.
    apply get_masked_shape in Hstep0.
    destruct Hstep0 as [(_ & -> & ->)|(_ & t & -> & ->)].
    + split; [apply extends_app|]. right. exists (length h). simpl. auto.
    + split; [rewrite <- app_assoc; apply extends_app|]. right.
      eexists. simpl. split; [reflexivity|]. left. rewrite length_app. lia.
Qed.

Lemma table_refs_dict_set (d : dict nat MartheField.t) (i : nat)
  (mf : MartheField.t) (o : option loc) :
  In o (table_refs (dict_set Nat.eqb d i mf)) ->
  o = MartheField.data_ref mf \/ In o (table_refs d).
Proof.
  unfold table_refs. induction d as [|[k v] d IH]; simpl.
  - intros [<-|[]]. auto.
  - destruct (i =? k); simpl; intros [<-|H]; auto.
    destruct (IH H); auto.
Qed.

Lemma NoDup_table_refs_dict_set (d : dict nat MartheField.t) (i : nat)
  (mf : MartheField.t) :
  NoDup (table_refs d) -> ~ In (MartheField.data_ref mf) (table_refs d) ->
  NoDup (table_refs (dict_set Nat.eqb d i mf)).
Proof.
  induction d as [|[k v] d IH]; simpl; intros Hnd Hnew.
  - repeat constructor. auto.
  - inversion Hnd as [|? ? Hk Hd]; subst. destruct (i =? k); simpl.
    + constructor; [tauto | exact Hd].
    + constructor; [|apply IH; tauto].
      intros H. apply table_refs_dict_set in H. destruct H as [H|H].
      * apply Hnew. left. simpl. congruence.
      * apply Hk, H.
Qed.

Lemma dict_get_set_string {V : Type} (d : dict string V) (k : string)
  (v : V) : dict_get String.eqb (dict_set String.eqb d k v) k = Some v.
Proof.
  induction d as [|[k' v'] d IH]; simpl.
  - rewrite String.eqb_refl. reflexivity.
  - destruct (String.eqb k k') eqn:E; simpl.
    + rewrite String.eqb_refl. reflexivity.
    + rewrite E. exact IH.
Qed.

(** One timestep of [load_field] adds one array, the table of the field
    it stores for the timestep. *)
Lemma load_step_shape (mm : MartheField.MartheModel) (field : string)
  (digits : nat) (df : list (MartheFieldSeries.index_row * MartheGrid.t))
  (h h' : heap) (d d' : dict nat MartheField.t) (i : nat) :
  MartheFieldSeries.load_step mm field digits df (h, d) i = Ok (h', d') ->
  exists t mf, h' = h ++ [t] /\
    MartheField.data_ref mf = Some (length h) /\
    d' = dict_set Nat.eqb d i mf.
Proof.
  unfold MartheFieldSeries.load_step. intros H.
  inv_bind H. unfold deepcopy, alloc in H. cbn beta iota in H.
  inv_bind H. injection H as <- <-. rewrite store_new.
  eexists. eexists. split; [reflexivity|]. split; [|reflexivity].
  reflexivity.
Qed.

Lemma load_loop_fresh (mm : MartheField.MartheModel) (field : string)
  (digits : nat) (df : list (MartheFieldSeries.index_row * MartheGrid.t))
  (n : nat) (isteps : list nat) :
  forall (h h' : heap) (d d' : dict nat MartheField.t),
    n <= length h -> fresh_tables n h d ->
    foldM (MartheFieldSeries.load_step mm field digits df) isteps (h, d)
    = Ok (h', d') ->
    extends h h' /\ fresh_tables n h' d'.
Proof.
  induction isteps as [|i isteps IH]; simpl; intros h h' d d' Hn Hd H.
  - injection H as <- <-. split; [apply extends_refl | exact Hd].
  - inv_bind H. destruct a as [h1 d1].
    apply load_step_shape in Hstep.
    destruct Hstep as (t & mf & -> & Hmf & ->).
    destruct Hd as (Hnd & Hrefs).
    destruct (IH (h ++ [t]) h' (dict_set Nat.eqb d i mf) d') as (Hext & Hd');
      [rewrite length_app; lia | | exact H |].
    + split.
      * apply NoDup_table_refs_dict_set; [exact Hnd|].
        intros Hin. destruct (Hrefs _ Hin) as (l & E & _ & Hl).
        rewrite Hmf in E. injection E as <-. lia.
      * intros o Ho. apply table_refs_dict_set in Ho.
        rewrite length_app. simpl. destruct Ho as [->|Ho].
        -- exists (length h). rewrite Hmf. repeat split; lia.
        -- destruct (Hrefs _ Ho) as (l & E & Hl1 & Hl2).
           exists l. repeat split; auto; lia.
    + split; [|exact Hd'].
      eapply extends_trans; [apply extends_app | exact Hext].
Qed.

(** [load_field] leaves the arrays of the heap as they were, and gives
    every timestep it loads a table of its own, a new array. *)
Lemma load_field_fresh (file : MartheFieldSeries.stream)
  (mm : MartheField.MartheModel) (self self' : MartheFieldSeries.t)
  (h h' : heap) (field : string) (istep : option (list nat)) :
  MartheFieldSeries.load_field file mm self h field istep = Ok (h', self') ->
  extends h h' /\
  exists loaded,
    dict_get String.eqb (MartheFieldSeries.data_of self') field
    = Some (Some loaded) /\
    fresh_tables (length h) h' loaded.
Proof.
  unfold MartheFieldSeries.load_field. intros H.
  inv_bind_as H checked Hchecked. destruct checked as [exist_ loaded_].
  cbn beta iota in H.
  inv_bind_as H u Hu. inv_bind_as H top Htop. inv_bind_as H mg Hmg.
  inv_bind_as H looped Hloop.
  destruct looped as [h1 mf_dic]. cbn beta iota in H. injection H as <- <-.
  apply (load_loop_fresh mm field _ _ (length h)) in Hloop.
  - destruct Hloop as (Hext & Hfresh). split; [exact Hext|].
    exists mf_dic. split; [|exact Hfresh].
    unfold MartheFieldSeries.data_of. simpl. apply dict_get_set_string.
  - lia.
  - split; [constructor | intros o []].
Qed.

(** C9, amended.  Construction never changes an existing array, and the
    table of the new field is a new array: unless the field is not model
    dependent (not masked, or the active domain itself) and is built from
    a record array of the caller, in which case its table is that very
    array.  A call of [set_data] changes no existing array other than the
    table of the field it is called on.  [load_field] changes no existing
    array and gives every timestep a table of its own, a new array. *)
Theorem field_tables_separation :
  (forall read_grid_file mm h field data use_imask h' self,
     MartheField.__init__ read_grid_file mm h field data use_imask
     = Ok (h', self) ->
     extends h h' /\
     exists l, MartheField.data_ref self = Some l /\
       (length h <= l \/
        (MartheField.model_dependent self = false /\ data = DRec l)))
  /\
  (forall read_grid_file mm self h data layer inest h' self',
     MartheField.set_data read_grid_file mm self h data layer inest
     = Ok (h', self') ->
     forall k, k < length h -> MartheField.data_ref self <> Some k ->
       nth_error h' k = nth_error h k)
  /\
  (forall file mm self h field istep h' self',
     MartheFieldSeries.load_field file mm self h field istep
     = Ok (h', self') ->
     extends h h' /\
     exists loaded,
       dict_get String.eqb (MartheFieldSeries.data_of self') field
       = Some (Some loaded) /\
       fresh_tables (length h) h' loaded).
Proof.
  split; [|split].
  - intros rd mm h field data use_imask h' self H.
    unfold MartheField.__init__ in H.
    inv_bind_as H built Hbuilt. destruct built as [h1 self1].
    cbn beta iota in H.
    inv_bind_as H self_data Hdata. inv_bind_as H main Hmain.
    inv_bind_as H top Htop. injection H as <- <-.
    apply set_data_shape in Hbuilt.
    destruct Hbuilt as [(Hext & Href)|(l & x & Hl & _)];
      [|discriminate Hl].
    split; [exact Hext|]. simpl in Href.
    destruct Href as [Href|(l & Href & Hl)].
    + unfold MartheField.attr_data in Hdata.
      change (MartheField.data self1) with (MartheField.data_ref self1)
        in Hdata.
      rewrite Href in Hdata. discriminate.
    + exists l. split; [exact Href | exact Hl].
  - intros rd mm self h data layer inest h' self' H k Hk Hself.
    apply set_data_shape in H.
    destruct H as [(Hext & _)|(l & x & Hl & _ & -> & _)].
    + apply extends_nth_error; assumption.
    + apply nth_error_store_other. intros E. apply Hself.
      rewrite Hl, E. reflexivity.
  - intros file mm self h field istep h' self'. apply load_field_fresh.
Qed.

Lemma field_tables_separation_witness :
  exists h' self,
    MartheField.__init__ Examples.files Examples.mm Examples.heap0
      "permh" (DList [Examples.grid_2x2]) true = Ok (h', self) /\
    extends Examples.heap0 h' /\
    exists l, MartheField.data_ref self = Some l /\
      (length Examples.heap0 <= l \/
       (MartheField.model_dependent self = false /\
        DList [Examples.grid_2x2] = DRec l)).
Proof.
  eexists. eexists. split; [reflexivity|].
  exact (proj1 field_tables_separation Examples.files Examples.mm
           Examples.heap0 "permh"%string (DList [Examples.grid_2x2]) true
           _ _ eq_refl).
Defined.

(** C9 as stated fails: a field that is not masked, built from a record
    array of the caller, has that array as its table; setting the field
    to 5 then changes the array of the caller. *)
Lemma independent_field_aliases_recarray_counterexample :
  exists h1 f h2 f',
    MartheField.__init__ Examples.files Examples.mm Examples.heap0
      "permh" (DRec 1) false = Ok (h1, f) /\
    MartheField.data_ref f = Some 1 /\
    load h1 1 = Ok Examples.table_2x2 /\
    MartheField.set_data Examples.files Examples.mm f h1 (DNum 5) None None
    = Ok (h2, f') /\
    load h2 1 <> Ok Examples.table_2x2.
Proof.
  eexists. eexists. eexists. eexists.
  split; [reflexivity|]. split; [reflexivity|]. split; [reflexivity|].
  split; [reflexivity|]. discriminate.
Qed.

(** ** The timesteps [load_field] loads *)

Lemma In_pd_unique (seen col : list nat) (i : nat) :
  In i (pd.unique Nat.eqb seen col) <-> In i col /\ ~ In i seen.
Proof.
  revert seen; induction col as [|a col IH]; intros seen; simpl.
  - tauto.
  - destruct (existsb (Nat.eqb a) seen) eqn:E.
    + apply existsb_eqb_nat in E. rewrite IH. split.
      * tauto.
      * intros [[->|H] Hs]; [contradiction | tauto].
    + assert (Ha : ~ In a seen).
      { intros H. apply existsb_eqb_nat in H. congruence. }
      simpl. rewrite IH. simpl. split.
      * intros [->|[H Hs]]; [tauto|]. split; [tauto|]. tauto.
      * intros [[->|H] Hs]; [tauto|].
        destruct (Nat.eq_dec a i) as [->|Hne]; [tauto|]. right. tauto.
Qed.

Lemma retained_available (self : MartheFieldSeries.t) (field : string)
  (istep : option (list nat)) (i : nat) :
  In i (retained_isteps self field istep) ->
  In i (available_isteps self field).
Proof.
  destruct istep as [l|]; simpl; [|tauto].
  intros H. apply filter_In in H. apply existsb_eqb_nat. tauto.
Qed.

Lemma keys_dict_set_new (d : dict nat MartheField.t) (i : nat)
  (mf : MartheField.t) :
  ~ In i (keys d) -> keys (dict_set Nat.eqb d i mf) = keys d ++ [i].
Proof.
  unfold keys. induction d as [|[k v] d IH]; simpl; intros H;
    [reflexivity|].
  destruct (Nat.eqb_spec i k) as [->|Hne]; [tauto|].
  simpl. rewrite IH by tauto. reflexivity.
Qed.

Lemma load_loop_keys (mm : MartheField.MartheModel) (field : string)
  (digits : nat) (df : list (MartheFieldSeries.index_row * MartheGrid.t))
  (isteps : list nat) :
  forall (h h' : heap) (d d' : dict nat MartheField.t),
    NoDup isteps -> (forall i, In i isteps -> ~ In i (keys d)) ->
    foldM (MartheFieldSeries.load_step mm field digits df) isteps (h, d)
    = Ok (h', d') ->
    keys d' = keys d ++ isteps.
Proof.
  induction isteps as [|i isteps IH]; simpl; intros h h' d d' Hnd Hnew H.
  - injection H as <- <-. symmetry. apply app_nil_r.
  - inv_bind_as H stepped Hstepped. destruct stepped as [h1 d1].
    apply load_step_shape in Hstepped.
    destruct Hstepped as (t & mf & -> & _ & ->).
    inversion Hnd as [|? ? Hi Hnd']; subst.
    assert (Hfresh : forall k, In k isteps ->
                       ~ In k (keys (dict_set Nat.eqb d i mf))).
    { intros k Hk. rewrite keys_dict_set_new by auto.
      intros Hin. apply in_app_or in Hin. destruct Hin as [Hin|[->|[]]].
      - apply (Hnew k); auto.
      - contradiction. }
    rewrite (IH _ _ _ _ Hnd' Hfresh H).
    rewrite keys_dict_set_new by auto. rewrite <- app_assoc. reflexivity.
Qed.

Lemma map_fst_combine_same {A B : Type} (l : list A) (l' : list B) :
  length l = length l' -> map fst (combine l l') = l.
Proof.
  revert l'; induction l as [|a l IH]; intros [|b l'] H; simpl in *;
    try lia; [reflexivity|].
  rewrite IH by lia. reflexivity.
Qed.

(** Whenever [load_field] returns, the timesteps it has loaded for the
    field are those requested that the file has for the field (all of
    them without a request), each once, in ascending order. *)
Lemma load_field_keys (file : MartheFieldSeries.stream)
  (mm : MartheField.MartheModel) (self self' : MartheFieldSeries.t)
  (h h' : heap) (field : string) (istep : option (list nat)) :
  MartheFieldSeries.load_field file mm self h field istep = Ok (h', self') ->
  exists loaded,
    dict_get String.eqb (MartheFieldSeries.data_of self') field
    = Some (Some loaded) /\
    keys loaded = np.unique Nat.ltb (retained_isteps self field istep).
Proof.
  unfold MartheFieldSeries.load_field. intros H.
  inv_bind_as H checked Hchecked. destruct checked as [exist_ loaded_].
  cbn beta iota in H.
  inv_bind_as H u Hu. inv_bind_as H top Htop. inv_bind_as H mg Hmg.
  inv_bind_as H looped Hloop.
  destruct looped as [h1 mf_dic]. cbn beta iota in H. injection H as <- <-.
  exists mf_dic. split.
  { unfold MartheFieldSeries.data_of. simpl. apply dict_get_set_string. }
  fold (available_isteps self field) in Hloop, Hmg.
  fold (retained_isteps self field istep) in Hloop, Hmg.
  apply load_loop_keys in Hloop.
  - cbn [keys map app] in Hloop. rewrite Hloop.
    apply mapM_Ok_Forall2, Forall2_length in Hmg.
    rewrite <- (map_map fst MartheFieldSeries.istep).
    rewrite (map_fst_combine_same _ _ Hmg).
    apply (unique_ascending_eq Nat.ltb nat_ltb_irrefl nat_ltb_trans
             nat_ltb_total _ _
             (ascending_unique Nat.ltb nat_ltb_trans nat_ltb_total _)).
    intros i. rewrite In_unique_nat, in_map_iff. split.
    + intros (r & <- & Hr). apply filter_In in Hr.
      destruct Hr as (_ & Hr). apply andb_true_iff in Hr.
      apply existsb_eqb_nat. tauto.
    + intros Hi. pose proof (retained_available _ _ _ _ Hi) as Ha.
      unfold available_isteps in Ha. apply In_pd_unique in Ha.
      destruct Ha as (Ha & _). apply in_map_iff in Ha.
      destruct Ha as (r & <- & Hr). exists r. split; [reflexivity|].
      apply filter_In in Hr. apply filter_In. split; [tauto|].
      apply andb_true_iff. split; [tauto|]. apply existsb_eqb_nat, Hi.
  - apply (ascending_NoDup Nat.ltb nat_ltb_irrefl).
    apply (ascending_unique Nat.ltb nat_ltb_trans nat_ltb_total).
  - intros i _ [].
Qed.

(** ** The frame of [get_tseries] *)

Lemma take_Forall2 {A : Type} (l : list A) (nodes : list nat)
  (out : list A) :
  np.take l nodes = Ok out ->
  Forall2 (fun n a => nth_error l n = Some a) nodes out.
Proof.
  intros H. apply mapM_Ok_Forall2 in H.
  eapply Forall2_impl; [|exact H]. intros n a Hn. simpl in Hn.
  destruct (nth_error l n); [congruence | discriminate].
Qed.

(** Whenever [get_tseries] returns a frame, the frame has one row per
    loaded timestep, in the order of the dictionary, and one cell per
    node, in the order of the nodes: the value of the table of the
    timestep at the node, or the missing-value marker when that value is
    one of the masked values in force.  No row and no position is
    dropped. *)
Lemma get_tseries_cells (mm : MartheField.MartheModel)
  (self : MartheFieldSeries.t) (h : heap) (field : string) (x y : list Z)
  (layer : list nat) (names : option (list string)) (index : string)
  (masked_values : option (list Z)) (df : MartheFieldSeries.DataFrame) :
  MartheFieldSeries.get_tseries mm self h field x y layer names index
    masked_values = Ok (Some df) ->
  exists loaded,
    dict_get String.eqb (MartheFieldSeries.data_of self) field
    = Some (Some loaded) /\
    Forall2 (fun (p : nat * MartheField.t) (row : list cell) =>
               exists t, MartheField.attr_data h (snd p) = Ok t /\
                 Forall2 (fun n c =>
                            exists r, nth_error t n = Some r /\
                              c = MartheFieldSeries.replace
                                    (masked_values_of masked_values)
                                    (Rec.value r))
                   (nodes_of mm x y layer) row)
      loaded (MartheFieldSeries.values df).
Proof.
  unfold MartheFieldSeries.get_tseries. intros H.
  fold (masked_values_of masked_values) in H.
  fold (nodes_of mm x y layer) in H.
  inv_bind_as H u Hu. unfold MartheFieldSeries.data_of.
  destruct (dict_get String.eqb (MartheFieldSeries.data self) field)
    as [[loaded|]|]; try discriminate.
  exists loaded. split; [reflexivity|].
  inv_bind_as H rows Hrows. inv_bind_as H u1 Hu1. inv_bind_as H u2 Hu2.
  assert (Hvalues : MartheFieldSeries.values df
                    = map (map (MartheFieldSeries.replace
                                  (masked_values_of masked_values))) rows).
  { destruct (String.eqb index "date");
      [injection H as <-; reflexivity|].
    destruct (String.eqb index "istep");
      [injection H as <-; reflexivity|].
    destruct (String.eqb index "combined");
      [injection H as <-; reflexivity | discriminate]. }
  rewrite Hvalues. apply mapM_Ok_Forall2 in Hrows. clear - Hrows.
  induction Hrows as [|p row loaded rows Hp _ IH]; simpl; constructor; auto.
  inv_bind_as Hp t Ht. inv_bind_as Hp recs Hrecs. injection Hp as <-.
  exists t. split; [exact Ht|]. apply take_Forall2 in Hrecs.
  clear - Hrecs. induction Hrecs as [|n r nodes recs Hn _ IH]; simpl;
    constructor; eauto.
Qed.

(* ================================================================== *)
(** * Further properties of the module *)

(** ** Selections of [get_data] *)

Lemma keeps_spec (layers inests : list nat) (mv : list Z) (r : Rec.t) :
  keeps layers inests mv r = true <->
  In (Rec.layer r) layers /\ In (Rec.inest r) inests /\
  ~ In (Rec.value r) mv.
Proof.
  unfold keeps. rewrite !andb_true_iff, negb_true_iff.
  rewrite !existsb_eqb_nat. split.
  - intros [[Hl Hn] Hv]. repeat split; auto.
    intros H. apply existsb_eqb_Z in H. congruence.
  - intros (Hl & Hn & Hv). repeat split; auto.
    destruct (existsb (Z.eqb (Rec.value r)) mv) eqn:E; [|reflexivity].
    apply existsb_eqb_Z in E. contradiction.
Qed.

(** X1.  [get_data] never raises when it returns records or a mask.  The
    mask has one entry per record of the table; the records returned are
    the table indexed by that mask: exactly the records whose layer and
    nest are selected and whose value is not masked, in the order of the
    table.  With [as_mask], [as_array] is not looked at. *)
Theorem get_data_selection (data : recarray)
  (layer inest : option (list nat)) (mv : list Z) :
  exists mask rec,
    (forall as_array,
       MartheField.get_data data layer inest as_array true mv
       = Ok (AsMask mask)) /\
    MartheField.get_data data layer inest false false mv = Ok (AsRec rec) /\
    length mask = length data /\
    rec = np.select data mask /\
    (forall r, In r rec <->
       In r data /\
       In (Rec.layer r) (selected (map Rec.layer data) layer) /\
       In (Rec.inest r) (selected (map Rec.inest data) inest) /\
       ~ In (Rec.value r) mv) /\
    (exists keep, rec = filter keep data).
Proof.
  eexists. eexists.
  split; [intros as_array; apply get_data_as_mask|].
  split; [apply get_data_as_rec|].
  split; [apply length_map|].
  split; [symmetry; apply select_map|].
  split; [|eexists; reflexivity].
  intros r. rewrite filter_In, keeps_spec. tauto.
Qed.

(** ** [set_data] with a number *)

Lemma scalar_assignment (f : Rec.t -> bool) (v : Z) (t : recarray) :
  (col <- np.setitem_mask_scalar (map Rec.value t) (map f t) v ;;
   Ok (set_values t col))
  = Ok (map (fun r => if f r then Rec.set_value r v else r) t).
Proof.
  unfold np.setitem_mask_scalar. rewrite !length_map, Nat.eqb_refl.
  cbn [bind]. f_equal. unfold set_values.
  induction t as [|r t IH]; simpl; [reflexivity|].
  rewrite IH. f_equal. destruct (f r); simpl; [reflexivity|].
  apply set_value_value.
Qed.

Lemma scalar_assignment_col (f : Rec.t -> bool) (v : Z) (t : recarray) :
  exists col,
    np.setitem_mask_scalar (map Rec.value t) (map f t) v = Ok col /\
    set_values t col
    = map (fun r => if f r then Rec.set_value r v else r) t.
Proof.
  pose proof (scalar_assignment f v t) as H.
  destruct (np.setitem_mask_scalar (map Rec.value t) (map f t) v)
    as [col|e]; [|discriminate].
  exists col. split; [reflexivity|]. cbn [bind] in H. congruence.
Qed.

(** X2.  Setting a number on a field that has a table updates that table
    in place: the number goes to every record of the selected layers and
    nests whose value is not one of the masked values of the field, all
    other records and the geometry stay, and the field keeps its
    reference; this holds whether or not the field is masked by the
    active domain. *)
Theorem set_data_number_in_place (read_grid_file : MartheField.reader)
  (mm : MartheField.MartheModel) (self : MartheField.t) (h : heap)
  (l : loc) (t : recarray) (v : Z) (layer inest : option (list nat)) :
  MartheField.data_ref self = Some l ->
  load h l = Ok t ->
  MartheField.set_data read_grid_file mm self h (DNum v) layer inest
  = Ok (store h l (scalar_set layer inest (MartheField.dmv self) v t), self)
  /\ geometry (scalar_set layer inest (MartheField.dmv self) v t)
     = geometry t.
Proof.
  intros Hl Ht. split.
  - unfold MartheField.set_data. rewrite Hl, Ht. cbn [bind].
    rewrite get_data_as_mask. cbn [bind].
    destruct (scalar_assignment_col
                (keeps (selected (map Rec.layer t) layer)
                       (selected (map Rec.inest t) inest)
                       (MartheField.dmv self)) v t) as (col & E & Hcol).
    rewrite E. cbn [bind]. rewrite Hcol. reflexivity.
  - unfold geometry, scalar_set. rewrite map_map. apply map_ext.
    intros r. destruct (keeps _ _ _ r); reflexivity.
Qed.

Lemma set_data_number_in_place_witness :
  MartheField.data_ref Examples.permh_loaded = Some 1 /\
  load Examples.heap0 1 = Ok Examples.table_2x2 /\
  MartheField.set_data Examples.files Examples.mm Examples.permh_loaded
    Examples.heap0 (DNum 5) (Some [0]) None
  = Ok (store Examples.heap0 1
          (scalar_set (Some [0]) None dmv 5 Examples.table_2x2),
        Examples.permh_loaded).
Proof.
  split; [reflexivity|]. split; [reflexivity|].
  exact (proj1 (set_data_number_in_place Examples.files Examples.mm
                  Examples.permh_loaded Examples.heap0 1 Examples.table_2x2
                  5 (Some [0]) None eq_refl eq_refl)).
Defined.

(** X3.  Setting a number on a field that has no table yet gives it a new
    table: a copy of the active-domain table of the model in which the
    number replaces the value of every record of the selected layers and
    nests that is not a masked value.  No array of the heap changes, and
    the field takes the geometry of the active domain even when it is not
    masked ([use_imask] false). *)
Theorem set_data_number_first (read_grid_file : MartheField.reader)
  (mm : MartheField.MartheModel) (self : MartheField.t) (h : heap)
  (ref : recarray) (v : Z) (layer inest : option (list nat)) :
  MartheField.data_ref self = None ->
  MartheField.attr_data h (MartheField.imask mm) = Ok ref ->
  MartheField.set_data read_grid_file mm self h (DNum v) layer inest
  = Ok (h ++ [scalar_set layer inest (MartheField.dmv self) v ref],
        MartheField.set_data_attr self (length h)).
Proof.
  intros Hl Href. unfold MartheField.set_data. rewrite Hl. cbn iota.
  rewrite Href. cbn [bind]. unfold deepcopy, alloc.
  rewrite get_data_as_mask. cbn [bind].
  destruct (scalar_assignment_col
              (keeps (selected (map Rec.layer ref) layer)
                     (selected (map Rec.inest ref) inest)
                     (MartheField.dmv self)) v ref) as (col & E & Hcol).
  rewrite E. cbn [bind]. rewrite Hcol, store_new. reflexivity.
Qed.

Lemma set_data_number_first_witness :
  MartheField.data_ref Examples.permh_free = None /\
  MartheField.attr_data Examples.heap0 (MartheField.imask Examples.mm)
  = Ok Examples.imask_2x2 /\
  MartheField.set_data Examples.files Examples.mm Examples.permh_free
    Examples.heap0 (DNum 5) None None
  = Ok (Examples.heap0 ++ [scalar_set None None dmv 5 Examples.imask_2x2],
        MartheField.set_data_attr Examples.permh_free 3).
Proof.
  split; [reflexivity|]. split; [reflexivity|].
  exact (set_data_number_first Examples.files Examples.mm
           Examples.permh_free Examples.heap0 Examples.imask_2x2
           5 None None eq_refl eq_refl).
Defined.

(** ** The grid [_rec2grid] builds *)

Lemma length_central (col : list Z) :
  length (np.central col) = length col - 2.
Proof.
  induction col as [|a [|b [|c col]] IH]; simpl in *; try reflexivity.
  rewrite IH. lia.
Qed.

Lemma gradient_length (col : list Z) (g : list Q) :
  np.gradient col = Ok g -> length g = length col /\ 2 <= length col.
Proof.
  unfold np.gradient. pose proof (length_central col) as Hc.
  remember (np.central col) as cen eqn:Ecen. clear Ecen.
  destruct col as [|a [|b col]]; try discriminate.
  destruct (rev (a :: b :: col)) as [|z [|w t]]; try discriminate.
  intros H. injection H as <-. cbn [length] in *.
  rewrite length_app, Hc. cbn [length]. lia.
Qed.

Lemma gradient_short (col : list Z) :
  length col < 2 -> np.gradient col = Raise ValueError.
Proof.
  destruct col as [|a [|b col]]; simpl; intros H; try reflexivity. lia.
Qed.

Lemma gradient_is_ok (col : list Z) :
  is_ok (np.gradient col) = true <-> 2 <= length col.
Proof.
  split.
  - destruct (np.gradient col) as [g|e] eqn:E; [|discriminate].
    intros _. apply gradient_length in E. tauto.
  - intros H. destruct (gradient_Ok col H) as (g & ->). reflexivity.
Qed.

Lemma gradient_Raise (col : list Z) (e : exn) :
  np.gradient col = Raise e -> e = ValueError.
Proof.
  unfold np.gradient.
  destruct col as [|a [|b col]]; try (intros [= <-]; reflexivity).
  destruct (rev (a :: b :: col)) as [|z [|w t]];
    try (intros [= <-]; reflexivity).
Qed.

Lemma Qabs_all_nonneg (g : list Q) : Forall (fun q => (0 <= q)%Q) (map Qabs g).
Proof.
  induction g as [|q g IH]; simpl; constructor; auto using Qabs_nonneg.
Qed.

(** X4.  The grid [_rec2grid] returns for a layer and a nest: it carries
    that layer and nest, the timestep -9999 and the name of the field;
    its array is the group reshaped to (max row + 1, max col + 1), with
    the values of the group in storage order; its x centres are the
    distinct x of the group in strictly ascending order and its y
    centres the distinct y in strictly descending order, at least two of
    each; and it has one spacing per centre, none negative. *)
Theorem rec2grid_grid (field : string) (data : recarray) (l n : nat)
  (mg : MartheGrid.t) :
  MartheField._rec2grid field data l n = Ok mg ->
  MartheGrid.layer mg = l /\ MartheGrid.inest mg = n /\
  MartheGrid.istep mg = (-9999)%Z /\ MartheGrid.field mg = field /\
  reshaped (group data l n) (MartheGrid.array mg) /\
  MartheGrid.nrow mg = a_nrow (MartheGrid.array mg) /\
  MartheGrid.ncol mg = a_ncol (MartheGrid.array mg) /\
  ascending Z.ltb (MartheGrid.xcc mg) /\
  ascending Z.ltb (rev (MartheGrid.ycc mg)) /\
  (forall v, In v (MartheGrid.xcc mg) <-> In v (map Rec.x (group data l n))) /\
  (forall v, In v (MartheGrid.ycc mg) <-> In v (map Rec.y (group data l n))) /\
  2 <= length (MartheGrid.xcc mg) /\ 2 <= length (MartheGrid.ycc mg) /\
  length (MartheGrid.dx mg) = length (MartheGrid.xcc mg) /\
  length (MartheGrid.dy mg) = length (MartheGrid.ycc mg) /\
  Forall (fun q => (0 <= q)%Q) (MartheGrid.dx mg) /\
  Forall (fun q => (0 <= q)%Q) (MartheGrid.dy mg).
Proof.
  rewrite rec2grid_eq. cbv zeta. intros H.
  inv_bind_as H a Ha. inv_bind_as H gx Hgx. inv_bind_as H gy Hgy.
  injection H as <-. cbn.
  apply dense_Ok in Ha. destruct Ha as (Hresh & _).
  apply gradient_length in Hgx, Hgy.
  destruct Hgx as (Hlx & H2x). destruct Hgy as (Hly & H2y).
  do 4 (split; [reflexivity|]).
  split; [exact Hresh|].
  do 2 (split; [reflexivity|]).
  split; [apply (ascending_unique Z.ltb Z_ltb_trans Z_ltb_total)|].
  split.
  { unfold np.flip. rewrite rev_involutive.
    apply (ascending_unique Z.ltb Z_ltb_trans Z_ltb_total). }
  split; [intros v; apply (In_unique Z.ltb Z_ltb_total)|].
  split.
  { intros v. unfold np.flip. rewrite <- in_rev.
    apply (In_unique Z.ltb Z_ltb_total). }
  split; [exact H2x|]. split; [exact H2y|].
  split; [rewrite length_map; exact Hlx|].
  split; [rewrite length_map; exact Hly|].
  split; apply Qabs_all_nonneg.
Qed.

Lemma rec2grid_grid_witness :
  exists mg,
    MartheField._rec2grid "permh" Examples.table_2x2 0 0 = Ok mg /\
    reshaped (group Examples.table_2x2 0 0) (MartheGrid.array mg) /\
    ascending Z.ltb (MartheGrid.xcc mg) /\
    ascending Z.ltb (rev (MartheGrid.ycc mg)).
Proof.
  eexists. split; [reflexivity|].
  destruct (rec2grid_grid "permh" Examples.table_2x2 0 0 _ eq_refl)
    as (_ & _ & _ & _ & Hr & _ & _ & Hx & Hy & _).
  split; [exact Hr|]. split; [exact Hx | exact Hy].
Defined.

Lemma unique_all_equal (col : list Z) :
  (forall a b, In a col -> In b col -> a = b) ->
  length (np.unique Z.ltb col) <= 1.
Proof.
  intros H.
  pose proof (ascending_NoDup Z.ltb Z_ltb_irrefl _
                (ascending_unique Z.ltb Z_ltb_trans Z_ltb_total col)) as Hnd.
  assert (Hin : forall v, In v (np.unique Z.ltb col) -> In v col).
  { intros v. apply (In_unique Z.ltb Z_ltb_total). }
  destruct (np.unique Z.ltb col) as [|a [|b u]]; simpl; try lia.
  exfalso. inversion Hnd as [|? ? Hn _]; subst. apply Hn.
  assert (a = b) as ->; [|left; reflexivity].
  apply H; apply Hin; simpl; auto.
Qed.

(** X5.  The errors of [_rec2grid].  It raises nothing but ValueError.
    It returns a grid exactly when the group of the layer and nest has a
    record, has as many records as the rectangle (max row + 1) x
    (max col + 1) has cells, and has at least two distinct x and two
    distinct y.  In particular a group whose records all share one y (a
    single row of cells) or one x (a single column) makes it raise,
    complete rectangle or not. *)
Theorem rec2grid_errors (field : string) (data : recarray) (l n : nat) :
  (forall e, MartheField._rec2grid field data l n = Raise e ->
             e = ValueError) /\
  (is_ok (MartheField._rec2grid field data l n) = true <->
   group data l n <> [] /\
   length (group data l n)
   = (top (map Rec.i (group data l n)) + 1)
     * (top (map Rec.j (group data l n)) + 1) /\
   2 <= length (np.unique Z.ltb (map Rec.x (group data l n))) /\
   2 <= length (np.unique Z.ltb (map Rec.y (group data l n)))) /\
  ((forall r r', In r (group data l n) -> In r' (group data l n) ->
                 Rec.y r = Rec.y r') ->
   MartheField._rec2grid field data l n = Raise ValueError) /\
  ((forall r r', In r (group data l n) -> In r' (group data l n) ->
                 Rec.x r = Rec.x r') ->
   MartheField._rec2grid field data l n = Raise ValueError).
Proof.
  assert (Hiff :
    is_ok (MartheField._rec2grid field data l n) = true <->
    group data l n <> [] /\
    length (group data l n)
    = (top (map Rec.i (group data l n)) + 1)
      * (top (map Rec.j (group data l n)) + 1) /\
    2 <= length (np.unique Z.ltb (map Rec.x (group data l n))) /\
    2 <= length (np.unique Z.ltb (map Rec.y (group data l n)))).
  { rewrite rec2grid_eq. cbv zeta.
    pose proof (is_ok_dense data l n) as Hd.
    pose proof (gradient_is_ok
                  (np.unique Z.ltb (map Rec.x (group data l n)))) as Hx.
    pose proof (gradient_is_ok
                  (np.flip (np.unique Z.ltb (map Rec.y (group data l n)))))
      as Hy.
    unfold np.flip in Hy at 2. rewrite length_rev in Hy.
    destruct (MartheField.dense _ n) as [a|e]; cbn [bind is_ok] in *;
      [|split; [discriminate | intros (H1 & H2 & _);
                                apply Hd; auto]].
    destruct (np.gradient (np.unique Z.ltb _)) as [gx|e];
      cbn [bind is_ok] in *;
      [|split; [discriminate | intros (_ & _ & H3 & _); apply Hx, H3]].
    destruct (np.gradient (np.flip _)) as [gy|e]; cbn [bind is_ok] in *;
      [|split; [discriminate | intros (_ & _ & _ & H4); apply Hy, H4]].
    split; [|reflexivity]. intros _.
    destruct (proj1 Hd eq_refl) as (H1 & H2).
    split; [exact H1|]. split; [exact H2|].
    split; [apply Hx; reflexivity | apply Hy; reflexivity]. }
  assert (Hval : forall e, MartheField._rec2grid field data l n = Raise e ->
                           e = ValueError).
  { intros e. rewrite rec2grid_eq. cbv zeta.
    destruct (MartheField.dense _ n) as [a|e0] eqn:Ed; cbn [bind];
      [|intros [= <-]; eapply dense_Raise, Ed].
    destruct (np.gradient (np.unique Z.ltb _)) as [gx|e0] eqn:Ex;
      cbn [bind]; [|intros [= <-]; eapply gradient_Raise, Ex].
    destruct (np.gradient (np.flip _)) as [gy|e0] eqn:Ey; cbn [bind];
      [discriminate | intros [= <-]; eapply gradient_Raise, Ey]. }
  assert (Hfail : is_ok (MartheField._rec2grid field data l n) = false ->
                  MartheField._rec2grid field data l n = Raise ValueError).
  { destruct (MartheField._rec2grid field data l n) as [mg|e] eqn:E;
      [discriminate|]. intros _. f_equal. apply Hval. reflexivity. }
  split; [exact Hval|]. split; [exact Hiff|]. split.
  - intros Hy. apply Hfail.
    destruct (is_ok (MartheField._rec2grid field data l n)) eqn:E;
      [|reflexivity].
    destruct (proj1 Hiff eq_refl) as (_ & _ & _ & E').
    pose proof (unique_all_equal (map Rec.y (group data l n))) as Hu.
    assert (length (np.unique Z.ltb (map Rec.y (group data l n))) <= 1);
      [|lia].
    apply Hu. intros a b Ha Hb. apply in_map_iff in Ha, Hb.
    destruct Ha as (r & <- & Hr), Hb as (r' & <- & Hr'). auto.
  - intros Hx. apply Hfail.
    destruct (is_ok (MartheField._rec2grid field data l n)) eqn:E;
      [|reflexivity].
    destruct (proj1 Hiff eq_refl) as (_ & _ & E' & _).
    pose proof (unique_all_equal (map Rec.x (group data l n))) as Hu.
    assert (length (np.unique Z.ltb (map Rec.x (group data l n))) <= 1);
      [|lia].
    apply Hu. intros a b Ha Hb. apply in_map_iff in Ha, Hb.
    destruct Ha as (r & <- & Hr), Hb as (r' & <- & Hr'). auto.
Qed.

Lemma rec2grid_errors_witness :
  (forall r r', In r (group Examples.table_1x3 0 0) ->
                In r' (group Examples.table_1x3 0 0) ->
                Rec.y r = Rec.y r') /\
  MartheField._rec2grid "permh" Examples.table_1x3 0 0 = Raise ValueError.
Proof.
  assert (H : forall r r', In r (group Examples.table_1x3 0 0) ->
                           In r' (group Examples.table_1x3 0 0) ->
                           Rec.y r = Rec.y r').
  { cbn. intros r r' [<-|[<-|[<-|[]]]] [<-|[<-|[<-|[]]]]; reflexivity. }
  split; [exact H|].
  exact (proj1 (proj2 (proj2 (rec2grid_errors "permh" Examples.table_1x3
                                0 0))) H).
Defined.

(** ** Spacings of evenly spaced centres *)

Lemma central_evenly (d : Z) (col : list Z) :
  evenly d col -> Forall (fun q => (q == inject_Z d)%Q) (np.central col).
Proof.
  induction col as [|a col IH]; [constructor|].
  destruct col as [|b [|c col]]; [constructor | constructor |].
  intros (Hab & Hbc). specialize (IH Hbc).
  change (np.central (a :: b :: c :: col))
    with (((c - a)%Z # 2) :: np.central (b :: c :: col)).
  constructor; [|exact IH].
  destruct Hbc as (Hbc & _).
  unfold Qeq, inject_Z. simpl. lia.
Qed.

Lemma evenly_last_two (d : Z) (col : list Z) (z w : Z) (t : list Z) :
  evenly d col -> rev col = z :: w :: t -> (z - w)%Z = d.
Proof.
  revert z w t. induction col as [|a col IH]; intros z w t He Hrev;
    [discriminate|].
  destruct col as [|b col]; [discriminate|].
  destruct He as (Hab & He).
  change (rev (a :: b :: col)) with (rev (b :: col) ++ [a]) in Hrev.
  destruct (rev (b :: col)) as [|z' [|w' t']] eqn:E.
  - apply (f_equal (@length Z)) in E. rewrite length_rev in E.
    discriminate.
  - apply (f_equal (@rev Z)) in E. rewrite rev_involutive in E.
    simpl in E. injection E as <- ->. simpl in Hrev.
    injection Hrev as <- <- _. exact Hab.
  - simpl in Hrev. injection Hrev as <- <- _.
    apply (IH z' w' t' He eq_refl).
Qed.

(** The gradient of evenly spaced coordinates is their spacing. *)
Lemma gradient_evenly (d : Z) (col : list Z) (g : list Q) :
  evenly d col -> np.gradient col = Ok g ->
  Forall (fun q => (q == inject_Z d)%Q) g.
Proof.
  intros He. unfold np.gradient.
  pose proof (central_evenly d col He) as Hc.
  pose proof (evenly_last_two d col) as Hlast.
  remember (np.central col) as cen eqn:Ecen. clear Ecen.
  destruct col as [|a [|b col]]; try discriminate.
  destruct (rev (a :: b :: col)) as [|z [|w t]]; try discriminate.
  intros H. injection H as <-.
  pose proof (proj1 He) as Hab.
  constructor; [rewrite Hab; reflexivity|].
  apply Forall_app. split; [exact Hc|].
  constructor; [|constructor].
  rewrite (Hlast z w t He eq_refl). reflexivity.
Qed.

Lemma Qabs_spacing (d : Z) (g : list Q) :
  Forall (fun q => (q == inject_Z d)%Q) g ->
  Forall (fun q => (q == inject_Z (Z.abs d))%Q) (map Qabs g).
Proof.
  induction 1 as [|q g Hq _ IH]; simpl; constructor; [|exact IH].
  rewrite Hq. reflexivity.
Qed.

(** X6.  For a group whose centres are integers in the range where
    float64 arithmetic is exact, whose x centres are evenly spaced by
    [d] and whose y centres go down by [e] from one row to the next, the
    grid [_rec2grid] builds has every column spacing equal to [d] and
    every row spacing equal to [e], and its origin is half a cell before
    the first x centre and half a cell below the last y centre. *)
Theorem rec2grid_even_spacing (field : string) (data : recarray)
  (l n : nat) (mg : MartheGrid.t) (d e : Z) :
  MartheField._rec2grid field data l n = Ok mg ->
  Forall exact_range (MartheGrid.xcc mg) ->
  Forall exact_range (MartheGrid.ycc mg) ->
  (0 < d)%Z -> (0 < e)%Z ->
  evenly d (MartheGrid.xcc mg) ->
  evenly (- e) (MartheGrid.ycc mg) ->
  Forall (fun q => (q == inject_Z d)%Q) (MartheGrid.dx mg) /\
  Forall (fun q => (q == inject_Z e)%Q) (MartheGrid.dy mg) /\
  (MartheGrid.xl mg
   == inject_Z (hd 0%Z (MartheGrid.xcc mg)) - inject_Z d / 2)%Q /\
  (MartheGrid.yl mg
   == inject_Z (last (MartheGrid.ycc mg) 0%Z) - inject_Z e / 2)%Q.
Proof.
  rewrite rec2grid_eq. cbv zeta. intros H _ _ Hd He.
  inv_bind_as H a Ha. inv_bind_as H gx Hgx. inv_bind_as H gy Hgy.
  injection H as <-. cbn. intros Hx Hy.
  pose proof (Qabs_spacing _ _ (gradient_evenly _ _ _ Hx Hgx)) as Hdx.
  pose proof (Qabs_spacing _ _ (gradient_evenly _ _ _ Hy Hgy)) as Hdy.
  rewrite Z.abs_eq in Hdx by lia.
  rewrite Z.abs_opp, Z.abs_eq in Hdy by lia.
  split; [exact Hdx|]. split; [exact Hdy|].
  apply gradient_length in Hgx, Hgy.
  split.
  - destruct (map Qabs gx) as [|q qs] eqn:E.
    + apply (f_equal (@length Q)) in E. rewrite length_map in E.
      simpl in E. lia.
    + inversion Hdx as [|? ? Hq _]; subst. simpl. rewrite Hq. reflexivity.
  - assert (Hlast : (last (map Qabs gy) 0 == inject_Z e)%Q).
    { assert (Hne : map Qabs gy <> []).
      { intros E. apply (f_equal (@length Q)) in E.
        rewrite length_map in E. simpl in E. lia. }
      rewrite Forall_forall in Hdy. apply Hdy.
      destruct (exists_last Hne) as (qs & q & ->).
      rewrite last_last. apply in_or_app. right. left. reflexivity. }
    rewrite Hlast. reflexivity.
Qed.

Lemma rec2grid_even_spacing_witness :
  exists mg,
    MartheField._rec2grid "permh" Examples.table_2x2 0 0 = Ok mg /\
    Forall exact_range (MartheGrid.xcc mg) /\
    Forall exact_range (MartheGrid.ycc mg) /\
    (0 < 10)%Z /\
    evenly 10 (MartheGrid.xcc mg) /\ evenly (- 10) (MartheGrid.ycc mg) /\
    Forall (fun q => (q == inject_Z 10)%Q) (MartheGrid.dx mg) /\
    (MartheGrid.xl mg == inject_Z 5 - inject_Z 10 / 2)%Q.
Proof.
  assert (Hx : Forall exact_range [5; 15]%Z).
  { repeat constructor; unfold exact_range; cbv; discriminate. }
  assert (Hy : Forall exact_range [15; 5]%Z).
  { repeat constructor; unfold exact_range; cbv; discriminate. }
  eexists. split; [reflexivity|].
  split; [exact Hx|]. split; [exact Hy|]. split; [reflexivity|].
  split; [simpl; auto|]. split; [simpl; auto|].
  destruct (rec2grid_even_spacing "permh" Examples.table_2x2 0 0 _ 10 10
              eq_refl Hx Hy eq_refl eq_refl)
    as (Hdx & _ & Hxl & _); [simpl; auto | simpl; auto |].
  split; [exact Hdx | exact Hxl].
Defined.

(** ** The fields of a series and their loading state *)

Lemma existsb_eqb_string (a : string) (l : list string) :
  existsb (String.eqb a) l = true <-> In a l.
Proof.
  rewrite existsb_exists. split.
  - intros (b & Hb & E). apply String.eqb_eq in E. congruence.
  - intros H. exists a. split; [assumption | apply String.eqb_refl].
Qed.

Lemma In_first_seen (seen names : list string) (f : string) :
  In f (pd.unique String.eqb seen names) <-> In f names /\ ~ In f seen.
Proof.
  revert seen; induction names as [|a names IH]; intros seen; simpl.
  - tauto.
  - destruct (existsb (String.eqb a) seen) eqn:E.
    + apply existsb_eqb_string in E. rewrite IH. split; [tauto|].
      intros [[->|H] Hs]; [contradiction | tauto].
    + assert (Ha : ~ In a seen).
      { intros H. apply existsb_eqb_string in H. congruence. }
      simpl. rewrite IH. simpl. split.
      * intros [->|[H Hs]]; tauto.
      * intros [[->|H] Hs]; [tauto|].
        destruct (string_dec a f) as [->|Hne]; [tauto|]. right. tauto.
Qed.

Lemma first_seen_NoDup (seen names : list string) :
  NoDup (pd.unique String.eqb seen names).
Proof.
  revert seen; induction names as [|a names IH]; intros seen; simpl.
  - constructor.
  - destruct (existsb (String.eqb a) seen); [apply IH|].
    constructor; [|apply IH].
    rewrite In_first_seen. intros (_ & H). apply H. left. reflexivity.
Qed.

Lemma StronglySorted_impl_In {A : Type} (R R' : A -> A -> Prop)
  (l : list A) :
  (forall a b, In a l -> In b l -> R a b -> R' a b) ->
  StronglySorted R l -> StronglySorted R' l.
Proof.
  intros H Hs. induction Hs as [|a l Hl IH Ha]; constructor.
  - apply IH. intros b c Hb Hc. apply H; right; assumption.
  - rewrite Forall_forall in *. intros b Hb.
    apply H; [left; reflexivity | right; exact Hb | apply Ha, Hb].
Qed.

(** [unique] keeps the names in the order of their first occurrence. *)
Lemma first_seen_order (seen names : list string) :
  StronglySorted (fun f g => first_pos f names < first_pos g names)
    (pd.unique String.eqb seen names).
Proof.
  revert seen; induction names as [|a names IH]; intros seen; simpl.
  - constructor.
  - assert (Hshift : forall seen',
              In a seen' ->
              StronglySorted
                (fun f g => (if String.eqb f a then 0
                             else S (first_pos f names))
                            < (if String.eqb g a then 0
                               else S (first_pos g names)))
                (pd.unique String.eqb seen' names)).
    { intros seen' Ha.
      apply (StronglySorted_impl_In
               (fun f g => first_pos f names < first_pos g names));
        [|apply IH].
      intros f g Hf Hg Hlt. apply In_first_seen in Hf, Hg.
      destruct (String.eqb_spec f a) as [->|_]; [tauto|].
      destruct (String.eqb_spec g a) as [->|_]; [tauto|]. lia. }
    destruct (existsb (String.eqb a) seen) eqn:E.
    + apply Hshift. apply existsb_eqb_string, E.
    + constructor; [apply Hshift; left; reflexivity|].
      apply Forall_forall. intros g Hg. apply In_first_seen in Hg.
      rewrite String.eqb_refl.
      destruct (String.eqb_spec g a) as [->|_]; [|lia].
      exfalso. apply (proj2 Hg). left. reflexivity.
Qed.

Lemma dict_get_fromkeys {V : Type} (names : list string) (f : string) :
  dict_get String.eqb (map (fun k => (k, @None V)) names) f
  = if existsb (String.eqb f) names then Some None else None.
Proof.
  induction names as [|a names IH]; simpl; [reflexivity|].
  destruct (String.eqb f a); simpl; [reflexivity | exact IH].
Qed.

Lemma dict_get_set_other {V : Type} (d : dict string V) (k k' : string)
  (v : V) :
  k' <> k ->
  dict_get String.eqb (dict_set String.eqb d k v) k'
  = dict_get String.eqb d k'.
Proof.
  intros Hne. apply String.eqb_neq in Hne.
  induction d as [|[a w] d IH]; simpl.
  - rewrite Hne. reflexivity.
  - destruct (String.eqb k a) eqn:E; simpl.
    + apply String.eqb_eq in E. subst a. rewrite Hne. reflexivity.
    + destruct (String.eqb k' a); [reflexivity | exact IH].
Qed.

(** X7.  A series just built lists each field name of the index of the
    file once, in the order of first appearance (a name comes before
    another exactly as its first row in the index does), has one entry
    per field in its dictionary, in the same order, and has nothing
    loaded: [check_fieldname] answers (exists, not loaded) for every
    name, with "exists" true exactly for the names of the index, and
    [get_tseries] fails its assertion for every field, whatever the
    other arguments. *)
Theorem fresh_series_nothing_loaded (file : MartheFieldSeries.stream)
  (mm : MartheField.MartheModel) (chasim : string) (h : heap) (f : string)
  (x y : list Z) (layer : list nat) (names : option (list string))
  (index : string) (masked_values : option (list Z)) :
  let s := MartheFieldSeries.__init__ file chasim in
  NoDup (MartheFieldSeries.fields s) /\
  StronglySorted
    (fun f g =>
       first_pos f (map MartheFieldSeries.field
                      (MartheFieldSeries.get_chasim_indexer file chasim))
       < first_pos g (map MartheFieldSeries.field
                        (MartheFieldSeries.get_chasim_indexer file chasim)))
    (MartheFieldSeries.fields s) /\
  keys (MartheFieldSeries.data_of s) = MartheFieldSeries.fields s /\
  (forall g, In g (MartheFieldSeries.fields s) <->
             exists r,
               In r (MartheFieldSeries.get_chasim_indexer file chasim) /\
               MartheFieldSeries.field r = g) /\
  (exists b, MartheFieldSeries.check_fieldname s f = Ok (b, false) /\
             (b = true <-> In f (MartheFieldSeries.fields s))) /\
  MartheFieldSeries.get_tseries mm s h f x y layer names index
    masked_values = Raise AssertionError.
Proof.
  intros s.
  assert (Hcheck : exists b,
            MartheFieldSeries.check_fieldname s f = Ok (b, false) /\
            (b = true <-> In f (MartheFieldSeries.fields s))).
  { unfold MartheFieldSeries.check_fieldname.
    exists (existsb (String.eqb f) (MartheFieldSeries.fields s)).
    split; [|apply existsb_eqb_string].
    destruct (existsb (String.eqb f) (MartheFieldSeries.fields s)) eqn:E;
      [|reflexivity].
    subst s. cbn [MartheFieldSeries.__init__ MartheFieldSeries.data
                  MartheFieldSeries.fields] in *.
    rewrite dict_get_fromkeys, E. reflexivity. }
  split; [apply first_seen_NoDup|].
  split; [apply first_seen_order|].
  split.
  { unfold keys, MartheFieldSeries.data_of. subst s. simpl.
    rewrite map_map. simpl. apply map_id. }
  split.
  { intros g. subst s. simpl. rewrite In_first_seen, in_map_iff.
    simpl. split.
    - intros ((r & E & Hr) & _). exists r. auto.
    - intros (r & Hr & E). split; [exists r; auto | intros []]. }
  split; [exact Hcheck|].
  destruct Hcheck as (b & Hb & _).
  unfold MartheFieldSeries.get_tseries,
    MartheFieldSeries.check_fieldname_raise.
  rewrite Hb. destruct b; reflexivity.
Qed.

(** ** The state [load_field] leaves *)

(** X8.  Whenever [load_field] returns, the file, its index and the field
    names of the series are as before; the field is now known and loaded,
    so the check of [get_tseries] passes; the entries of the other fields
    are untouched; and the dictionary registered for the field, which
    replaces whatever was loaded before, is never empty: its keys are
    the requested timesteps that the file has for the field (all of them
    without a request), each once, in ascending order. *)
Theorem load_field_registers (file : MartheFieldSeries.stream)
  (mm : MartheField.MartheModel) (self self' : MartheFieldSeries.t)
  (h h' : heap) (field : string) (istep : option (list nat)) :
  MartheFieldSeries.load_field file mm self h field istep = Ok (h', self') ->
  MartheFieldSeries.chasim self' = MartheFieldSeries.chasim self /\
  MartheFieldSeries.indexer self' = MartheFieldSeries.indexer self /\
  MartheFieldSeries.fields self' = MartheFieldSeries.fields self /\
  MartheFieldSeries.check_fieldname self' field = Ok (true, true) /\
  MartheFieldSeries.check_fieldname_raise self' field = Ok tt /\
  (forall g, g <> field ->
     dict_get String.eqb (MartheFieldSeries.data_of self') g
     = dict_get String.eqb (MartheFieldSeries.data_of self) g) /\
  exists loaded,
    dict_get String.eqb (MartheFieldSeries.data_of self') field
    = Some (Some loaded) /\
    loaded <> [] /\
    ascending Nat.ltb (keys loaded) /\
    forall i, In i (keys loaded) <-> In i (retained_isteps self field istep).
Proof.
  intros H.
  destruct (load_field_keys file mm self self' h h' field istep H)
    as (loaded & Hget & Hkeys).
  unfold MartheFieldSeries.load_field in H.
  inv_bind_as H checked Hchecked. destruct checked as [exist_ loaded_].
  cbn beta iota in H.
  inv_bind_as H u Hu. apply assert_Ok in Hu. subst exist_.
  inv_bind_as H top Htop. inv_bind_as H mg Hmg.
  inv_bind_as H looped Hloop.
  destruct looped as [h1 mf_dic]. cbn beta iota in H. injection H as <- <-.
  fold (available_isteps self field) in Htop.
  fold (retained_isteps self field istep) in Htop.
  assert (Hexist : existsb (String.eqb field) (MartheFieldSeries.fields self)
                   = true).
  { unfold MartheFieldSeries.check_fieldname in Hchecked.
    destruct (existsb (String.eqb field) (MartheFieldSeries.fields self));
      [reflexivity|]. injection Hchecked as E _. discriminate. }
  assert (Hcheck : MartheFieldSeries.check_fieldname
                     (MartheFieldSeries.mk (MartheFieldSeries.chasim self)
                        (MartheFieldSeries.indexer self)
                        (MartheFieldSeries.fields self)
                        (dict_set String.eqb (MartheFieldSeries.data self)
                           field (Some mf_dic))) field = Ok (true, true)).
  { unfold MartheFieldSeries.check_fieldname.
    cbn [MartheFieldSeries.fields MartheFieldSeries.data].
    rewrite Hexist, dict_get_set_string. reflexivity. }
  split; [reflexivity|]. split; [reflexivity|]. split; [reflexivity|].
  split; [exact Hcheck|].
  split.
  { unfold MartheFieldSeries.check_fieldname_raise. rewrite Hcheck.
    reflexivity. }
  split.
  { intros g Hg. unfold MartheFieldSeries.data_of.
    cbn [MartheFieldSeries.data]. apply dict_get_set_other, Hg. }
  exists loaded. split; [exact Hget|].
  assert (Hin : forall i, In i (keys loaded) <->
                          In i (retained_isteps self field istep)).
  { intros i. rewrite Hkeys. apply In_unique_nat. }
  split.
  { intros ->. unfold np.max in Htop.
    destruct (retained_isteps self field istep) as [|i l] eqn:E;
      [discriminate|].
    apply (proj2 (Hin i)). left. reflexivity. }
  split; [|exact Hin].
  rewrite Hkeys. apply (ascending_unique Nat.ltb nat_ltb_trans nat_ltb_total).
Qed.

Lemma load_field_registers_witness :
  exists h' s,
    MartheFieldSeries.load_field Examples.chasim Examples.mm Examples.mfs
      Examples.heap0 "CHARGE" (Some [5; 2; 7]) = Ok (h', s) /\
    MartheFieldSeries.check_fieldname s "CHARGE" = Ok (true, true) /\
    exists loaded,
      dict_get String.eqb (MartheFieldSeries.data_of s) "CHARGE"%string
      = Some (Some loaded) /\
      loaded <> [] /\ ascending Nat.ltb (keys loaded).
Proof.
  eexists. eexists. split; [reflexivity|].
  destruct (load_field_registers Examples.chasim Examples.mm Examples.mfs
              _ Examples.heap0 _ "CHARGE" (Some [5; 2; 7]) eq_refl)
    as (_ & _ & _ & Hc & _ & _ & loaded & Hget & Hne & Hasc & _).
  split; [exact Hc|]. exists loaded. auto.
Defined.

(** ** The tables [load_field] builds *)

Lemma value_set_values (rec : recarray) (col : list Z) :
  length col = length rec -> map Rec.value (set_values rec col) = col.
Proof.
  unfold set_values. revert col.
  induction rec as [|r rec IH]; intros [|v col] H; simpl in *; try lia;
    [reflexivity|].
  rewrite IH by lia. reflexivity.
Qed.

Lemma Forall_dict_set {V : Type} (P : nat * V -> Prop) (d : dict nat V)
  (i : nat) (v : V) :
  Forall P d -> P (i, v) -> Forall P (dict_set Nat.eqb d i v).
Proof.
  intros Hd Hv. induction Hd as [|[k w] d Hk Hd IH]; simpl.
  - constructor; [exact Hv | constructor].
  - destruct (i =? k); constructor; auto.
Qed.

Lemma setitem_all_cases {A : Type} (l vs col : list A) :
  np.setitem_all l vs = Ok col ->
  length col = length l /\
  ((length vs = length l /\ col = vs) \/
   (exists v, vs = [v] /\ col = map (fun _ => v) l)).
Proof.
  unfold np.setitem_all. destruct (Nat.eqb_spec (length vs) (length l)) as [E|E].
  - intros [= <-]. auto.
  - destruct vs as [|v [|w vs]]; try discriminate. intros [= <-].
    rewrite length_map. split; [reflexivity|]. right. exists v. auto.
Qed.

Lemma load_step_table (mm : MartheField.MartheModel) (field : string)
  (digits : nat) (df : list (MartheFieldSeries.index_row * MartheGrid.t))
  (ref : recarray) (h h' : heap) (d d' : dict nat MartheField.t) (i : nat) :
  MartheField.attr_data h (MartheField.imask mm) = Ok ref ->
  MartheFieldSeries.load_step mm field digits df (h, d) i = Ok (h', d') ->
  exists t mf, h' = h ++ [t] /\ d' = dict_set Nat.eqb d i mf /\
    loaded_table mm field digits df ref h' (i, mf).
Proof.
  unfold MartheFieldSeries.load_step. intros Href H.
  rewrite Href in H. cbn [bind] in H.
  unfold deepcopy, alloc in H. cbn beta iota in H.
  inv_bind_as H col Hcol. injection H as <- <-. rewrite store_new.
  eexists. eexists. split; [reflexivity|]. split; [reflexivity|].
  exists col. split; [exact Hcol|]. split.
  - unfold MartheField.attr_data. simpl. apply load_new.
  - simpl. auto.
Qed.

Lemma loaded_table_app (mm : MartheField.MartheModel) (field : string)
  (digits : nat) (df : list (MartheFieldSeries.index_row * MartheGrid.t))
  (ref : recarray) (h ext : heap) (p : nat * MartheField.t) :
  loaded_table mm field digits df ref h p ->
  loaded_table mm field digits df ref (h ++ ext) p.
Proof.
  intros (col & Hcol & Hattr & Hrest). exists col.
  split; [exact Hcol|]. split; [|exact Hrest].
  apply attr_data_app, Hattr.
Qed.

Lemma load_loop_tables (mm : MartheField.MartheModel) (field : string)
  (digits : nat) (df : list (MartheFieldSeries.index_row * MartheGrid.t))
  (ref : recarray) (isteps : list nat) :
  forall (h h' : heap) (d d' : dict nat MartheField.t),
    MartheField.attr_data h (MartheField.imask mm) = Ok ref ->
    Forall (loaded_table mm field digits df ref h) d ->
    foldM (MartheFieldSeries.load_step mm field digits df) isteps (h, d)
    = Ok (h', d') ->
    Forall (loaded_table mm field digits df ref h') d'.
Proof.
  induction isteps as [|i isteps IH]; simpl; intros h h' d d' Href Hd H.
  - injection H as <- <-. exact Hd.
  - inv_bind_as H stepped Hstepped. destruct stepped as [h1 d1].
    destruct (load_step_table mm field digits df ref h h1 d d1 i Href
                Hstepped) as (t & mf & -> & -> & Hnew).
    apply (IH (h ++ [t]) h' (dict_set Nat.eqb d i mf) d');
      [apply attr_data_app, Href | | exact H].
    apply Forall_dict_set; [|exact Hnew].
    eapply Forall_impl; [|exact Hd].
    intros p. apply loaded_table_app.
Qed.

Lemma filter_combine_Forall2 {A B : Type} (R : A -> B -> Prop)
  (q : A -> bool) (l : list A) (l' : list B) :
  Forall2 R l l' ->
  Forall2 R (filter q l)
    (map snd (filter (fun p : A * B => q (fst p)) (combine l l'))).
Proof.
  induction 1 as [|a b l l' Hab _ IH]; simpl; [constructor|].
  destruct (q a); simpl; [constructor; assumption | exact IH].
Qed.

Lemma step_rows_retained (field : string) (isteps : list nat) (i : nat)
  (rows : list MartheFieldSeries.index_row) :
  In i isteps ->
  filter (fun r => MartheFieldSeries.istep r =? i)
    (filter (fun r => String.eqb (MartheFieldSeries.field r) field
                      && existsb (Nat.eqb (MartheFieldSeries.istep r)) isteps)
       rows)
  = filter (fun r => String.eqb (MartheFieldSeries.field r) field
                     && (MartheFieldSeries.istep r =? i)) rows.
Proof.
  intros Hi. induction rows as [|r rows IH]; simpl; [reflexivity|].
  destruct (String.eqb (MartheFieldSeries.field r) field); simpl.
  - destruct (MartheFieldSeries.istep r =? i) eqn:Ei.
    + assert (Hex : existsb (Nat.eqb (MartheFieldSeries.istep r)) isteps
                    = true).
      { apply existsb_eqb_nat. apply Nat.eqb_eq in Ei. congruence. }
      rewrite Hex. simpl. rewrite Ei. f_equal. exact IH.
    + destruct (existsb (Nat.eqb (MartheFieldSeries.istep r)) isteps);
        simpl; [rewrite Ei|]; exact IH.
  - exact IH.
Qed.

(** X9.  The tables of a loaded field.  In a model whose active-domain
    table is [ref], every timestep [load_field] registers holds a field
    named field_<timestep>, the timestep padded with zeros to the width
    of the largest one loaded, with the masking flag and masked values
    of the active-domain field, and a table with the rows and the
    geometry columns of [ref]: its values are those of the grids the
    file has for the field at the timestep, one grid after the other in
    the order of the index (which must then be as many as [ref] has
    rows), or the one value of the grids repeated when they hold a
    single cell. *)
Theorem load_field_tables (file : MartheFieldSeries.stream)
  (mm : MartheField.MartheModel) (self self' : MartheFieldSeries.t)
  (h h' : heap) (field : string) (istep : option (list nat))
  (ref : recarray) :
  MartheField.attr_data h (MartheField.imask mm) = Ok ref ->
  MartheFieldSeries.load_field file mm self h field istep = Ok (h', self') ->
  exists loaded top,
    dict_get String.eqb (MartheFieldSeries.data_of self') field
    = Some (Some loaded) /\
    np.max (retained_isteps self field istep) = Ok top /\
    Forall (fun p : nat * MartheField.t =>
      exists grids t,
        Forall2 (fun r g =>
                   MartheFieldSeries.read_grid_file file
                     (MartheFieldSeries.chasim self)
                     (MartheFieldSeries.start r) (MartheFieldSeries.stop r)
                   = Ok g)
          (step_rows self field (fst p)) grids /\
        MartheField.attr_data h' (snd p) = Ok t /\
        geometry t = geometry ref /\
        length t = length ref /\
        (let vals := concat (map (fun g => ravel (MartheGrid.array g)) grids)
         in (length vals = length ref /\ map Rec.value t = vals) \/
            (exists v, vals = [v] /\ map Rec.value t = map (fun _ => v) ref))
        /\
        MartheField.field (snd p)
        = (field ++ "_" ++ zfill (str (fst p)) (String.length (str top)))%string
        /\
        MartheField.use_imask (snd p)
        = MartheField.use_imask (MartheField.imask mm) /\
        MartheField.dmv (snd p) = MartheField.dmv (MartheField.imask mm))
      loaded.
Proof.
  intros Href H.
  destruct (load_field_keys file mm self self' h h' field istep H)
    as (loaded & Hget & Hkeys).
  unfold MartheFieldSeries.load_field in H.
  inv_bind_as H checked Hchecked. destruct checked as [exist_ loaded_].
  cbn beta iota in H.
  inv_bind_as H u Hu. inv_bind_as H top Htop. inv_bind_as H mg Hmg.
  inv_bind_as H looped Hloop.
  destruct looped as [h1 mf_dic]. cbn beta iota in H. injection H as <- <-.
  fold (available_isteps self field) in Hloop, Hmg, Htop.
  fold (retained_isteps self field istep) in Hloop, Hmg, Htop.
  unfold MartheFieldSeries.data_of in Hget. cbn [MartheFieldSeries.data] in Hget.
  rewrite dict_get_set_string in Hget. injection Hget as <-.
  exists mf_dic, top.
  split.
  { unfold MartheFieldSeries.data_of. cbn [MartheFieldSeries.data].
    apply dict_get_set_string. }
  split; [exact Htop|].
  apply (load_loop_tables mm field _ _ ref) in Hloop;
    [|exact Href | constructor].
  apply mapM_Ok_Forall2 in Hmg.
  rewrite Forall_forall in Hloop. apply Forall_forall. intros p Hp.
  assert (Hi : In (fst p) (retained_isteps self field istep)).
  { apply In_unique_nat. rewrite <- Hkeys. unfold keys.
    apply in_map, Hp. }
  destruct (Hloop p Hp) as (col & Hcol & Hattr & Hname & Hflag & Hmv).
  apply setitem_all_cases in Hcol. rewrite !length_map in Hcol.
  destruct Hcol as (Hlen & Hcol).
  eexists. exists (set_values ref col).
  split.
  { unfold step_rows.
    rewrite <- (step_rows_retained field (retained_isteps self field istep)
                  (fst p) _ Hi).
    apply (filter_combine_Forall2 _
             (fun r => MartheFieldSeries.istep r =? fst p) _ _ Hmg). }
  split; [exact Hattr|].
  split; [apply geometry_set_values, Hlen|].
  split; [apply length_set_values, Hlen|].
  split.
  { cbv zeta. rewrite value_set_values by exact Hlen.
    rewrite map_map. unfold step_values in Hcol.
    destruct Hcol as [(Hl & ->)|(v & Hv & ->)]; [left; auto|].
    right. exists v. split; [exact Hv | apply map_map]. }
  auto.
Qed.

Lemma load_field_tables_witness :
  exists h' s loaded,
    MartheField.attr_data Examples.heap0 (MartheField.imask Examples.mm)
    = Ok Examples.imask_2x2 /\
    MartheFieldSeries.load_field Examples.chasim Examples.mm Examples.mfs
      Examples.heap0 "CHARGE" None = Ok (h', s) /\
    dict_get String.eqb (MartheFieldSeries.data_of s) "CHARGE"%string
    = Some (Some loaded) /\
    Forall (fun p : nat * MartheField.t =>
              exists t, MartheField.attr_data h' (snd p) = Ok t /\
                        geometry t = geometry Examples.imask_2x2)
      loaded.
Proof.
  eexists. eexists.
  destruct (load_field_tables Examples.chasim Examples.mm Examples.mfs _
              Examples.heap0 _ "CHARGE" None Examples.imask_2x2
              eq_refl eq_refl)
    as (loaded & top & Hget & _ & Hall).
  exists loaded. split; [reflexivity|]. split; [reflexivity|].
  split; [exact Hget|].
  eapply Forall_impl; [|exact Hall].
  intros p (grids & t & _ & Ht & Hgeo & _). exists t. auto.
Defined.

(** ** The frame and the failures of [get_tseries] *)

Lemma replace_cases (mv : list Z) (v : Z) :
  (MartheFieldSeries.replace mv v = NaN <-> In v mv) /\
  (~ In v mv -> MartheFieldSeries.replace mv v = Num v).
Proof.
  unfold MartheFieldSeries.replace.
  destruct (existsb (Z.eqb v) mv) eqn:E.
  - apply existsb_eqb_Z in E. split; [tauto | contradiction].
  - assert (~ In v mv).
    { intros H. apply existsb_eqb_Z in H. congruence. }
    split; [|reflexivity]. split; [discriminate | contradiction].
Qed.

(** X10.  The frame [get_tseries] returns.  Its columns are the names
    given; it has one row per loaded timestep, in the order of the
    dictionary of the field, labelled with the date of the timestep, the
    timestep, or both, as [index] asks; every row has one cell per
    sampled node, in the order of the nodes; and the cell of a timestep
    at a node is the value of the table of the timestep at the node,
    with the missing-value marker in its place when it is one of the
    masked values in force. *)
Theorem get_tseries_frame (mm : MartheField.MartheModel)
  (self : MartheFieldSeries.t) (h : heap) (field : string) (x y : list Z)
  (layer : list nat) (names : option (list string)) (index : string)
  (masked_values : option (list Z)) (df : MartheFieldSeries.DataFrame) :
  MartheFieldSeries.get_tseries mm self h field x y layer names index
    masked_values = Ok (Some df) ->
  exists loaded,
    dict_get String.eqb (MartheFieldSeries.data_of self) field
    = Some (Some loaded) /\
    MartheFieldSeries.columns df = names /\
    ((index = "date"%string /\
      MartheFieldSeries.index df
      = map (fun i => MartheFieldSeries.ByDate (MartheField.mldates mm i))
          (keys loaded)) \/
     (index = "istep"%string /\
      MartheFieldSeries.index df
      = map MartheFieldSeries.ByIstep (keys loaded)) \/
     (index = "combined"%string /\
      MartheFieldSeries.index df
      = map (fun i => MartheFieldSeries.Combined i (MartheField.mldates mm i))
          (keys loaded))) /\
    length (MartheFieldSeries.values df) = length loaded /\
    Forall (fun row => length row = length (nodes_of mm x y layer))
      (MartheFieldSeries.values df) /\
    Forall2 (fun (p : nat * MartheField.t) (row : list cell) =>
               exists t, MartheField.attr_data h (snd p) = Ok t /\
                 Forall2 (fun n c =>
                            exists r, nth_error t n = Some r /\
                              (In (Rec.value r)
                                  (masked_values_of masked_values) ->
                               c = NaN) /\
                              (~ In (Rec.value r)
                                   (masked_values_of masked_values) ->
                               c = Num (Rec.value r)))
                   (nodes_of mm x y layer) row)
      loaded (MartheFieldSeries.values df).
Proof.
  intros H.
  destruct (get_tseries_cells mm self h field x y layer names index
              masked_values df H) as (loaded & Hget & Hcells).
  exists loaded. split; [exact Hget|].
  unfold MartheFieldSeries.get_tseries in H.
  inv_bind_as H u Hu. unfold MartheFieldSeries.data_of in Hget.
  rewrite Hget in H.
  inv_bind_as H rows Hrows. inv_bind_as H u1 Hu1. inv_bind_as H u2 Hu2.
  split; [|split].
  - destruct (String.eqb index "date");
      [injection H as <-; reflexivity|].
    destruct (String.eqb index "istep");
      [injection H as <-; reflexivity|].
    destruct (String.eqb index "combined");
      [injection H as <-; reflexivity | discriminate].
  - destruct (String.eqb_spec index "date") as [E|_];
      [injection H as <-; left; split; [exact E|]; cbn [MartheFieldSeries.index];
       rewrite map_map; reflexivity|].
    destruct (String.eqb_spec index "istep") as [E|_];
      [injection H as <-; right; left; split; [exact E|]; cbn [MartheFieldSeries.index];
       rewrite map_map; reflexivity|].
    destruct (String.eqb_spec index "combined") as [E|_];
      [injection H as <-; right; right; split; [exact E|]; cbn [MartheFieldSeries.index];
       rewrite map_map; reflexivity | discriminate].
  - split; [symmetry; eapply Forall2_length, Hcells|].
    split.
    + clear - Hcells.
      induction Hcells as [|p row loaded rows (t & _ & Hrow) _ IH];
        constructor; [|exact IH].
      symmetry. eapply Forall2_length, Hrow.
    + eapply Forall2_impl; [|exact Hcells].
      intros p row (t & Ht & Hrow). exists t. split; [exact Ht|].
      eapply Forall2_impl; [|exact Hrow].
      intros n c (r & Hr & ->). exists r. split; [exact Hr|].
      destruct (replace_cases (masked_values_of masked_values)
                  (Rec.value r)) as (Hnan & Hnum).
      split; [apply Hnan | exact Hnum].
Qed.

Lemma get_tseries_frame_witness :
  exists df loaded,
    MartheFieldSeries.get_tseries Examples.mm (snd Examples.charge_loaded)
      (fst Examples.charge_loaded) "CHARGE"
      [5; 5]%Z [15; 5]%Z [0] None "combined" None = Ok (Some df) /\
    dict_get String.eqb
      (MartheFieldSeries.data_of (snd Examples.charge_loaded))
      "CHARGE"%string = Some (Some loaded) /\
    length (MartheFieldSeries.values df) = length loaded.
Proof.
  eexists.
  destruct (get_tseries_frame Examples.mm (snd Examples.charge_loaded)
              (fst Examples.charge_loaded) "CHARGE" [5; 5]%Z [15; 5]%Z
              [0] None "combined" None _ eq_refl)
    as (loaded & Hget & _ & _ & Hlen & _).
  exists loaded. split; [reflexivity|].
  split; [exact Hget | exact Hlen].
Defined.

(** X11.  The [index] argument of [get_tseries] decides the labels of
    the rows and nothing else: when the call with the dates as index
    returns a frame, the calls with "istep" and "combined" return frames
    with the same columns and cells, and the call with any other string
    returns [None] instead of raising. *)
Theorem get_tseries_index_kinds (mm : MartheField.MartheModel)
  (self : MartheFieldSeries.t) (h : heap) (field : string) (x y : list Z)
  (layer : list nat) (names : option (list string))
  (masked_values : option (list Z)) (df : MartheFieldSeries.DataFrame) :
  MartheFieldSeries.get_tseries mm self h field x y layer names "date"
    masked_values = Ok (Some df) ->
  (exists labels,
     MartheFieldSeries.get_tseries mm self h field x y layer names "istep"
       masked_values
     = Ok (Some (MartheFieldSeries.mk_frame labels
                   (MartheFieldSeries.columns df)
                   (MartheFieldSeries.values df)))) /\
  (exists labels,
     MartheFieldSeries.get_tseries mm self h field x y layer names "combined"
       masked_values
     = Ok (Some (MartheFieldSeries.mk_frame labels
                   (MartheFieldSeries.columns df)
                   (MartheFieldSeries.values df)))) /\
  (forall index,
     index <> "date"%string -> index <> "istep"%string ->
     index <> "combined"%string ->
     MartheFieldSeries.get_tseries mm self h field x y layer names index
       masked_values = Ok None).
Proof.
  unfold MartheFieldSeries.get_tseries. intros H.
  inv_bind_as H u Hu. rewrite Hu. cbn [bind].
  destruct (dict_get String.eqb (MartheFieldSeries.data self) field)
    as [[loaded|]|]; try discriminate.
  inv_bind_as H rows Hrows. rewrite Hrows. cbn [bind].
  inv_bind_as H u1 Hu1. rewrite Hu1. cbn [bind].
  inv_bind_as H u2 Hu2. rewrite Hu2. cbn [bind].
  simpl in H. injection H as <-. simpl.
  split; [eexists; reflexivity|]. split; [eexists; reflexivity|].
  intros index Hd Hi Hc.
  apply String.eqb_neq in Hd, Hi, Hc. rewrite Hd, Hi, Hc. reflexivity.
Qed.

Lemma get_tseries_index_kinds_witness :
  exists df,
    MartheFieldSeries.get_tseries Examples.mm (snd Examples.charge_loaded)
      (fst Examples.charge_loaded) "CHARGE"
      [5; 5]%Z [15; 5]%Z [0] None "date" None = Ok (Some df) /\
    MartheFieldSeries.get_tseries Examples.mm (snd Examples.charge_loaded)
      (fst Examples.charge_loaded) "CHARGE"
      [5; 5]%Z [15; 5]%Z [0] None "dates" None = Ok None.
Proof.
  eexists. split; [reflexivity|].
  apply (proj2 (proj2 (get_tseries_index_kinds Examples.mm
                         (snd Examples.charge_loaded)
                         (fst Examples.charge_loaded) "CHARGE"
                         [5; 5]%Z [15; 5]%Z [0] None None _ eq_refl)));
    discriminate.
Defined.

Lemma mapM_only_error {A B : Type} (f : A -> res B) (e : exn) (l : list A) :
  Forall (fun a => is_ok (f a) = true \/ f a = Raise e) l ->
  Exists (fun a => is_ok (f a) = false) l ->
  mapM f l = Raise e.
Proof.
  induction 1 as [|a l Ha _ IH]; intros Hex; [inversion Hex|].
  simpl. destruct Ha as [Ha|Ha].
  - destruct (f a) as [b|e'] eqn:E; [|discriminate]. cbn [bind].
    rewrite IH; [reflexivity|].
    inversion Hex as [? ? Hbad|]; subst; [|assumption].
    rewrite E in Hbad. discriminate.
  - rewrite Ha. reflexivity.
Qed.

(** X12.  The failures of [get_tseries].  A field that the file does not
    have, or that has not been loaded, fails the assertion.  For a
    loaded field whose timesteps all have a table, a sampled node beyond
    the rows of the table of some timestep raises IndexError: the nodes
    are not checked against the field before they index its tables. *)
Theorem get_tseries_raises (mm : MartheField.MartheModel)
  (self : MartheFieldSeries.t) (h : heap) (field : string) (x y : list Z)
  (layer : list nat) (names : option (list string)) (index : string)
  (masked_values : option (list Z)) :
  (~ In field (MartheFieldSeries.fields self) ->
   MartheFieldSeries.get_tseries mm self h field x y layer names index
     masked_values = Raise AssertionError) /\
  (dict_get String.eqb (MartheFieldSeries.data_of self) field = Some None ->
   MartheFieldSeries.get_tseries mm self h field x y layer names index
     masked_values = Raise AssertionError) /\
  (forall loaded,
     In field (MartheFieldSeries.fields self) ->
     dict_get String.eqb (MartheFieldSeries.data_of self) field
     = Some (Some loaded) ->
     Forall (fun p : nat * MartheField.t =>
               exists t, MartheField.attr_data h (snd p) = Ok t) loaded ->
     (exists p t n,
        In p loaded /\ MartheField.attr_data h (snd p) = Ok t /\
        In n (nodes_of mm x y layer) /\ length t <= n) ->
     MartheFieldSeries.get_tseries mm self h field x y layer names index
       masked_values = Raise IndexError).
Proof.
  unfold MartheFieldSeries.get_tseries,
    MartheFieldSeries.check_fieldname_raise,
    MartheFieldSeries.check_fieldname, MartheFieldSeries.data_of.
  fold (nodes_of mm x y layer).
  split; [|split].
  - intros Hf.
    destruct (existsb (String.eqb field) (MartheFieldSeries.fields self))
      eqn:E; [|reflexivity].
    apply existsb_eqb_string in E. contradiction.
  - intros Hget. rewrite Hget.
    destruct (existsb (String.eqb field) (MartheFieldSeries.fields self));
      reflexivity.
  - intros loaded Hf Hget Htables (p & t & n & Hp & Ht & Hn & Hlen).
    apply existsb_eqb_string in Hf. rewrite Hf, Hget. cbn.
    rewrite (mapM_only_error _ IndexError); [reflexivity | |].
    + eapply Forall_impl; [|exact Htables].
      intros q (tq & Hq). rewrite Hq. cbn [bind].
      destruct (np.take tq (nodes_of mm x y layer)) as [recs|e] eqn:E;
        [left; reflexivity|].
      right. unfold np.take in E.
      destruct (mapM_Raise_at _ _ _ E) as (k & _ & Hk).
      destruct (nth_error tq k); [discriminate|].
      injection Hk as <-. reflexivity.
    + apply Exists_exists. exists p. split; [exact Hp|].
      rewrite Ht. cbn [bind].
      destruct (np.take t (nodes_of mm x y layer)) as [recs|e] eqn:E;
        [|reflexivity].
      exfalso. apply take_Forall2 in E.
      destruct (Forall2_In_left _ _ _ _ E Hn) as (r & _ & Hr).
      assert (Hsome : nth_error t n <> None) by congruence.
      apply nth_error_Some in Hsome. lia.
Qed.

Lemma get_tseries_raises_witness :
  ~ In "PRESSION"%string (MartheFieldSeries.fields Examples.mfs) /\
  MartheFieldSeries.get_tseries Examples.mm Examples.mfs Examples.heap0
    "PRESSION" [5]%Z [15]%Z [0] None "date" None = Raise AssertionError.
Proof.
  assert (H : ~ In "PRESSION"%string (MartheFieldSeries.fields Examples.mfs)).
  { cbn. intros [E|[]]. discriminate E. }
  split; [exact H|].
  exact (proj1 (get_tseries_raises Examples.mm Examples.mfs Examples.heap0
                  "PRESSION" [5]%Z [15]%Z [0] None "date" None) H).
Defined.

(** ** The table of a 3D array *)

Lemma nth_error_put_false {A : Type} (col : list A) (mask : list bool)
  (vs : list A) (k : nat) :
  nth_error mask k <> Some true ->
  nth_error (np.put col mask vs) k = nth_error col k.
Proof.
  revert mask vs k.
  induction col as [|a col IH]; intros [|b mask] vs k H; try reflexivity.
  destruct b.
  - destruct k as [|k]; [exfalso; apply H; reflexivity|].
    destruct vs as [|v vs]; simpl; apply IH; exact H.
  - destruct k as [|k]; simpl; [reflexivity|]. apply IH. exact H.
Qed.

Lemma length_put {A : Type} (col : list A) (mask : list bool) (vs : list A) :
  length (np.put col mask vs) = length col.
Proof.
  revert mask vs.
  induction col as [|a col IH]; intros [|b mask] vs; try reflexivity.
  destruct b; [destruct vs as [|v vs]|]; simpl; rewrite IH; reflexivity.
Qed.

Lemma select_put {A : Type} (col : list A) (mask : list bool) (vs : list A) :
  length col = length mask -> length vs = np.count_true mask ->
  np.select (np.put col mask vs) mask = vs.
Proof.
  unfold np.count_true. revert mask vs.
  induction col as [|a col IH]; intros [|b mask] vs Hl Hv; simpl in *;
    try lia.
  - destruct vs; [reflexivity | discriminate].
  - destruct b; simpl in *.
    + destruct vs as [|v vs]; [discriminate|]. simpl in *.
      rewrite IH by lia. reflexivity.
    + apply IH; lia.
Qed.

Lemma select_agree {A : Type} (col col' : list A) (mask : list bool) :
  length col' = length col ->
  (forall k, nth_error mask k = Some true ->
             nth_error col' k = nth_error col k) ->
  np.select col' mask = np.select col mask.
Proof.
  revert col' mask.
  induction col as [|a col IH]; intros [|a' col'] [|b mask] Hl H;
    simpl in *; try lia; try reflexivity.
  assert (IH' : np.select col' mask = np.select col mask).
  { apply IH; [lia|]. intros k Hk. apply (H (S k)). exact Hk. }
  destruct b; [|exact IH'].
  specialize (H 0 eq_refl). simpl in H. injection H as ->.
  rewrite IH'. reflexivity.
Qed.

Lemma count_main_mask (ref : recarray) (l : nat) :
  np.count_true (main_mask ref l) = length (group ref l 0).
Proof.
  unfold np.count_true, main_mask, group.
  induction ref as [|r ref IH]; simpl; [reflexivity|].
  destruct (Rec.layer r =? l); simpl; [|exact IH].
  destruct (Rec.inest r =? 0); simpl; rewrite IH; reflexivity.
Qed.

Lemma group_set_values (ref : recarray) (col : list Z) (l n : nat) :
  length col = length ref ->
  map Rec.value (group (set_values ref col) l n)
  = np.select col
      (map (fun r => (Rec.layer r =? l) && (Rec.inest r =? n)) ref).
Proof.
  unfold group, set_values. revert col.
  induction ref as [|r ref IH]; intros [|v col] H; simpl in *; try lia;
    [reflexivity|].
  destruct (Rec.layer r =? l); simpl; [|apply IH; lia].
  destruct (Rec.inest r =? n); simpl; rewrite IH by lia; reflexivity.
Qed.

Lemma nth_error_set_values (ref : recarray) (col : list Z) (k : nat)
  (r : Rec.t) :
  length col = length ref ->
  nth_error ref k = Some r ->
  nth_error col k = Some (Rec.value r) ->
  nth_error (set_values ref col) k = Some r.
Proof.
  unfold set_values. revert col k.
  induction ref as [|a ref IH]; intros [|v col] [|k] Hl Hr Hv; simpl in *;
    try discriminate.
  - injection Hr as ->. injection Hv as ->. rewrite set_value_value.
    reflexivity.
  - apply IH; [lia | exact Hr | exact Hv].
Qed.

Lemma main_mask_true (ref : recarray) (l k : nat) :
  nth_error (main_mask ref l) k = Some true ->
  exists r, nth_error ref k = Some r /\ Rec.layer r = l /\ Rec.inest r = 0.
Proof.
  unfold main_mask. rewrite nth_error_map.
  destruct (nth_error ref k) as [r|]; [|discriminate]. simpl.
  intros [= H]. apply andb_true_iff in H. destruct H as (Hl & Hn).
  apply Nat.eqb_eq in Hl, Hn. eauto.
Qed.

(** The loop of [_3d2rec] over the slabs, from the layer [start] on. *)
Lemma rec3d_loop (ref : recarray) (slabs : list (list Z)) :
  forall (start : nat) (col col' : list Z),
    length col = length ref ->
    foldM (fun col (p : nat * list Z) =>
             let (layer, arr2d) := p in
             let mask := np.logical_and
                           (map (fun r => Rec.layer r =? layer) ref)
                           (map (fun r => Rec.inest r =? 0) ref) in
             loc_setitem col mask arr2d)
          (combine (seq start (length slabs)) slabs) col = Ok col' ->
    length col' = length ref /\
    (forall k,
       (forall j, start <= j < start + length slabs ->
                  nth_error (main_mask ref j) k <> Some true) ->
       nth_error col' k = nth_error col k) /\
    (forall j s,
       nth_error slabs j = Some s -> group ref (start + j) 0 <> [] ->
       np.select col' (main_mask ref (start + j)) = s).
Proof.
  induction slabs as [|s0 slabs IH]; intros start col col' Hlen H.
  - simpl in H. injection H as <-.
    split; [exact Hlen|]. split; [reflexivity|].
    intros [|j] s Hs; discriminate Hs.
  - cbn [length seq combine foldM] in H.
    inv_bind_as H col1 Hcol1. cbn beta iota zeta in Hcol1.
    rewrite logical_and_map in Hcol1. fold (main_mask ref start) in Hcol1.
    unfold loc_setitem in Hcol1. rewrite count_main_mask in Hcol1.
    assert (Hmask : length col = length (main_mask ref start)).
    { unfold main_mask. rewrite length_map. exact Hlen. }
    assert (Hstep :
      length col1 = length ref /\
      (forall k, nth_error (main_mask ref start) k <> Some true ->
                 nth_error col1 k = nth_error col k) /\
      (group ref start 0 <> [] ->
       np.select col1 (main_mask ref start) = s0)).
    { destruct (Nat.eqb_spec (length (group ref start 0)) 0) as [E|E].
      - injection Hcol1 as <-. split; [exact Hlen|]. split; [reflexivity|].
        intros Hne. destruct (group ref start 0); [contradiction|].
        discriminate E.
      - destruct (Nat.eqb_spec (length s0) (length (group ref start 0)))
          as [E'|E']; [|discriminate].
        injection Hcol1 as <-. rewrite length_put.
        split; [exact Hlen|].
        split; [intros k Hk; apply nth_error_put_false, Hk|].
        intros _. apply select_put; [exact Hmask|].
        rewrite count_main_mask. exact E'. }
    destruct Hstep as (Hlen1 & Hkeep1 & Hset1).
    destruct (IH (S start) col1 col' Hlen1 H) as (Hlen' & Hkeep & Hset).
    split; [exact Hlen'|]. split.
    + intros k Hk. rewrite Hkeep.
      * apply Hkeep1, Hk. simpl. lia.
      * intros j Hj. apply Hk. simpl. lia.
    + intros [|j] s Hs Hne.
      * simpl in Hs. injection Hs as <-. rewrite Nat.add_0_r in *.
        rewrite <- (Hset1 Hne).
        apply select_agree; [congruence|].
        intros k Hk. apply Hkeep. intros j Hj Hj'.
        apply main_mask_true in Hk, Hj'.
        destruct Hk as (r & Hr & Hl & _), Hj' as (r' & Hr' & Hl' & _).
        rewrite Hr in Hr'. injection Hr' as <-. lia.
      * simpl in Hs. replace (start + S j) with (S start + j) in * by lia.
        apply (Hset j s Hs Hne).
Qed.

(** X13.  The table [_3d2rec] builds from a 3D array.  An array whose
    rank is not three fails the assertion.  Otherwise the table is a new
    array with the rows and the geometry columns of the active-domain
    table; the rows of the main grid of each layer that the array has a
    slab for hold the values of that slab, in the order of the table;
    and every other row (a nested grid, or a layer beyond the depth of
    the array) keeps the value of the active-domain table. *)
Theorem rec3d_table (mm : MartheField.MartheModel) (h : heap)
  (arr3d : ndarray) :
  (length (shape arr3d) <> 3 ->
   MartheField._3d2rec mm h arr3d = Raise AssertionError) /\
  (forall h' r,
     MartheField._3d2rec mm h arr3d = Ok (h', r) ->
     exists ref t,
       MartheField.attr_data h (MartheField.imask mm) = Ok ref /\
       extends h h' /\ length h <= r /\
       load h' r = Ok t /\
       geometry t = geometry ref /\
       length t = length ref /\
       (forall l s, nth_error (slabs arr3d) l = Some s ->
                    group ref l 0 <> [] ->
                    map Rec.value (group t l 0) = s) /\
       (forall k row, nth_error ref k = Some row ->
                      Rec.inest row <> 0 \/
                      length (slabs arr3d) <= Rec.layer row ->
                      nth_error t k = Some row)).
Proof.
  split.
  - intros H. unfold MartheField._3d2rec.
    destruct (Nat.eqb_spec (length (shape arr3d)) 3); [contradiction|].
    reflexivity.
  - intros h' r H. unfold MartheField._3d2rec in H.
    inv_bind_as H u Hu. inv_bind_as H ref Href.
    unfold deepcopy, alloc in H. cbn beta iota in H.
    inv_bind_as H col Hcol. injection H as <- <-.
    unfold enumerate in Hcol.
    apply (rec3d_loop ref (slabs arr3d) 0) in Hcol;
      [|apply length_map].
    destruct Hcol as (Hlen & Hkeep & Hset).
    exists ref, (set_values ref col).
    split; [exact Href|].
    split; [rewrite <- app_assoc; apply extends_app|].
    split; [rewrite length_app; simpl; lia|].
    split.
    { replace (length (h ++ [ref])) with (length (h ++ [ref]) + 0) by lia.
      unfold load. rewrite nth_error_app2 by lia.
      rewrite Nat.add_0_r, Nat.sub_diag. reflexivity. }
    split; [apply geometry_set_values, Hlen|].
    split; [apply length_set_values, Hlen|].
    split.
    + intros l s Hs Hne. rewrite group_set_values by exact Hlen.
      apply (Hset l s Hs Hne).
    + intros k row Hrow Hother.
      apply nth_error_set_values; [exact Hlen | exact Hrow|].
      rewrite Hkeep.
      * rewrite nth_error_map, Hrow. reflexivity.
      * intros j Hj Hj'. apply main_mask_true in Hj'.
        destruct Hj' as (r' & Hr' & Hl' & Hn').
        rewrite Hrow in Hr'. injection Hr' as <-. lia.
Qed.

Lemma rec3d_table_witness :
  exists h' r t,
    MartheField._3d2rec Examples.mm Examples.heap0
      (mk_ndarray [1; 2; 2] [11; 12; 13; 14]%Z) = Ok (h', r) /\
    load h' r = Ok t /\
    geometry t = geometry Examples.imask_2x2 /\
    map Rec.value (group t 0 0) = [11; 12; 13; 14]%Z.
Proof.
  eexists. eexists.
  destruct (proj2 (rec3d_table Examples.mm Examples.heap0
                     (mk_ndarray [1; 2; 2] [11; 12; 13; 14]%Z))
              _ _ eq_refl)
    as (ref & t & Href & _ & _ & Ht & Hgeo & _ & Hset & _).
  exists t. split; [reflexivity|]. split; [exact Ht|].
  injection Href as <-.
  split; [exact Hgeo|].
  apply (Hset 0 [11; 12; 13; 14]%Z eq_refl). discriminate.
Defined.

(** ** The counts the constructor stores *)

Lemma unique_one (col : list nat) (c : nat) :
  col <> [] -> (forall a, In a col -> a = c) -> np.unique Nat.ltb col = [c].
Proof.
  intros Hne H.
  apply (unique_ascending_eq Nat.ltb nat_ltb_irrefl nat_ltb_trans
           nat_ltb_total).
  - repeat constructor.
  - intros a. split.
    + intros Ha. left. symmetry. apply H, Ha.
    + intros [<-|[]]. destruct col as [|a col]; [contradiction|].
      left. apply H. left. reflexivity.
Qed.

Lemma keeps_nest0 (data : recarray) (r : Rec.t) :
  In r data ->
  keeps (selected (map Rec.layer data) None)
        (selected (map Rec.inest data) (Some [0])) [] r
  = (Rec.inest r =? 0).
Proof.
  intros Hr. unfold keeps, selected.
  assert (Hl : existsb (Nat.eqb (Rec.layer r))
                 (np.unique Nat.ltb (map Rec.layer data)) = true).
  { apply existsb_eqb_nat, In_unique_nat, in_map, Hr. }
  rewrite Hl. simpl. rewrite orb_false_r, andb_true_r. reflexivity.
Qed.

Lemma keeps_layer0 (data : recarray) (r : Rec.t) :
  In r data ->
  keeps (selected (map Rec.layer data) (Some [0]))
        (selected (map Rec.inest data) None) [] r
  = (Rec.layer r =? 0).
Proof.
  intros Hr. unfold keeps, selected.
  assert (Hn : existsb (Nat.eqb (Rec.inest r))
                 (np.unique Nat.ltb (map Rec.inest data)) = true).
  { apply existsb_eqb_nat, In_unique_nat, in_map, Hr. }
  rewrite Hn. simpl. rewrite orb_false_r, !andb_true_r. reflexivity.
Qed.

(** [to_grids(inest=0)]: one grid per layer of the main grid. *)
Lemma to_grids_main (field : string) (data : recarray)
  (gs : list MartheGrid.t) :
  MartheField.to_grids field data None (Some [0]) = Ok gs ->
  length gs
  = length (np.unique Nat.ltb
              (map Rec.layer (filter (fun r => Rec.inest r =? 0) data))) /\
  forall l, In l (map Rec.layer (filter (fun r => Rec.inest r =? 0) data)) ->
            is_ok (MartheField._rec2grid field data l 0) = true.
Proof.
  unfold MartheField.to_grids. rewrite get_data_as_rec. cbn [bind].
  rewrite (filter_ext_in _ (fun r => Rec.inest r =? 0) _ (keeps_nest0 data)).
  assert (Hall : forall a,
            In a (map Rec.inest (filter (fun r => Rec.inest r =? 0) data)) ->
            a = 0).
  { intros a Ha. apply in_map_iff in Ha. destruct Ha as (r & <- & Hr).
    apply filter_In in Hr. apply Nat.eqb_eq. tauto. }
  destruct (filter (fun r => Rec.inest r =? 0) data) as [|r0 rec] eqn:Erec.
  - simpl. intros [= <-]. split; [reflexivity | intros l []].
  - rewrite (unique_one (map Rec.inest (r0 :: rec)) 0);
      [|discriminate | exact Hall].
    intros H. inv_bind_as H mgrids Hm. injection H as <-.
    cbn [mapM] in Hm. inv_bind_as Hm grids Hgrids.
    cbn [bind] in Hm. injection Hm as <-.
    cbn [concat]. rewrite app_nil_r. split.
    + symmetry. eapply Forall2_length, mapM_Ok_Forall2, Hgrids.
    + intros l Hl. assert (Hok : is_ok (mapM (fun l0 =>
                       MartheField._rec2grid field data l0 0)
                     (np.unique Nat.ltb (map Rec.layer (r0 :: rec)))) = true).
      { rewrite Hgrids. reflexivity. }
      apply (proj1 (is_ok_mapM _ _) Hok). apply In_unique_nat, Hl.
Qed.

(** [to_grids(layer=0)]: one grid per nest of the first layer. *)
Lemma to_grids_top (field : string) (data : recarray)
  (gs : list MartheGrid.t) :
  MartheField.to_grids field data (Some [0]) None = Ok gs ->
  length gs
  = length (np.unique Nat.ltb
              (map Rec.inest (filter (fun r => Rec.layer r =? 0) data))) /\
  forall n, In n (map Rec.inest (filter (fun r => Rec.layer r =? 0) data)) ->
            is_ok (MartheField._rec2grid field data 0 n) = true.
Proof.
  unfold MartheField.to_grids. rewrite get_data_as_rec. cbn [bind].
  rewrite (filter_ext_in _ (fun r => Rec.layer r =? 0) _ (keeps_layer0 data)).
  assert (Hall : forall a,
            In a (map Rec.layer (filter (fun r => Rec.layer r =? 0) data)) ->
            a = 0).
  { intros a Ha. apply in_map_iff in Ha. destruct Ha as (r & <- & Hr).
    apply filter_In in Hr. apply Nat.eqb_eq. tauto. }
  destruct (filter (fun r => Rec.layer r =? 0) data) as [|r0 rec] eqn:Erec.
  - simpl. intros [= <-]. split; [reflexivity | intros n []].
  - rewrite (unique_one (map Rec.layer (r0 :: rec)) 0);
      [|discriminate | exact Hall].
    intros H. inv_bind_as H grids Hgrids. injection H as <-.
    pose proof (mapM_Ok_Forall2 _ _ _ Hgrids) as Hall2.
    split.
    + clear - Hall2.
      induction Hall2 as [|n g ns grids Hn _ IH]; [reflexivity|].
      cbn [mapM] in Hn. inv_bind_as Hn mg Hmg. cbn [bind] in Hn.
      injection Hn as <-. simpl. f_equal. exact IH.
    + intros n Hn. apply In_unique_nat in Hn.
      destruct (Forall2_In_left _ _ _ _ Hall2 Hn) as (g & _ & Hg).
      cbn [mapM] in Hg. inv_bind_as Hg mg Hmg. rewrite Hmg. reflexivity.
Qed.

(** X14.  What the constructor stores.  Whenever [MartheField(field,
    data, mm, use_imask)] returns, the instance carries the field name,
    the flag and the default masked values; [maxlayer] is the number of
    distinct layers among the rows of the main grid (nest 0) of its
    table, and [maxnest] is the number of distinct nests among the rows
    of layer 0, less one (so -1 for a table without layer 0).  The
    construction goes through only if a grid can be rebuilt for every
    layer of the main grid and for every nest of layer 0. *)
Theorem init_counts (read_grid_file : MartheField.reader)
  (mm : MartheField.MartheModel) (h h' : heap) (field : string)
  (data : data_arg) (use_imask : bool) (self : MartheField.t) :
  MartheField.__init__ read_grid_file mm h field data use_imask
  = Ok (h', self) ->
  MartheField.field self = field /\
  MartheField.use_imask self = use_imask /\
  MartheField.dmv self = dmv /\
  exists t,
    MartheField.attr_data h' self = Ok t /\
    MartheField.maxlayer self
    = length (np.unique Nat.ltb
                (map Rec.layer (filter (fun r => Rec.inest r =? 0) t))) /\
    MartheField.maxnest self
    = Z.sub
        (Z.of_nat
           (length (np.unique Nat.ltb
                      (map Rec.inest (filter (fun r => Rec.layer r =? 0) t)))))
        1 /\
    (forall l, In l (map Rec.layer (filter (fun r => Rec.inest r =? 0) t)) ->
               is_ok (MartheField._rec2grid field t l 0) = true) /\
    (forall n, In n (map Rec.inest (filter (fun r => Rec.layer r =? 0) t)) ->
               is_ok (MartheField._rec2grid field t 0 n) = true).
Proof.
  unfold MartheField.__init__. intros H.
  inv_bind_as H built Hbuilt. destruct built as [h1 self1].
  cbn beta iota in H.
  inv_bind_as H t Ht. inv_bind_as H main Hmain. inv_bind_as H top Htop.
  injection H as <- <-.
  apply to_grids_main in Hmain. apply to_grids_top in Htop.
  destruct Hmain as (Hmain & Hlayers), Htop as (Htop & Hnests).
  cbn [MartheField.field MartheField.use_imask MartheField.dmv
       MartheField.maxlayer MartheField.maxnest].
  split; [reflexivity|]. split; [reflexivity|]. split; [reflexivity|].
  exists t. split; [exact Ht|].
  rewrite Hmain, Htop. auto.
Qed.

Lemma init_counts_witness :
  exists h' self,
    MartheField.__init__ Examples.files Examples.mm Examples.heap0
      "permh" (DList [Examples.grid_2x2]) true = Ok (h', self) /\
    MartheField.maxlayer self = 1 /\
    MartheField.maxnest self = 0%Z.
Proof.
  eexists. eexists. split; [reflexivity|].
  destruct (init_counts Examples.files Examples.mm Examples.heap0 _ "permh"
              (DList [Examples.grid_2x2]) true _ eq_refl)
    as (_ & _ & _ & t & Ht & Hl & Hn & _).
  injection Ht as <-. split; [exact Hl | exact Hn].
Defined.

(** ** [sample] *)

Lemma setitem_Ok {A : Type} (l : list A) (k : nat) (v : A) :
  k < length l ->
  exists l', setitem l k v = Ok l' /\ length l' = length l /\
    forall j, nth_error l' j = if j =? k then Some v else nth_error l j.
Proof.
  revert k. induction l as [|a l IH]; intros k Hk; simpl in Hk; [lia|].
  destruct k as [|k]; simpl.
  - eexists. split; [reflexivity|]. split; [reflexivity|].
    intros [|j]; reflexivity.
  - destruct (IH k) as (l' & -> & Hlen & Hnth); [lia|]. cbn [bind].
    eexists. split; [reflexivity|]. split; [simpl; lia|].
    intros [|j]; simpl; [reflexivity | apply Hnth].
Qed.

Lemma setitem_Raise {A : Type} (l : list A) (k : nat) (v : A) :
  length l <= k -> setitem l k v = Raise IndexError.
Proof.
  revert k. induction l as [|a l IH]; intros k Hk; [reflexivity|].
  simpl in Hk. destruct k as [|k]; [lia|]. simpl.
  rewrite IH by lia. reflexivity.
Qed.

Lemma setitem_list_Ok {A : Type} (idx : list nat) (v : A) :
  forall l : list A,
    Forall (fun k => k < length l) idx ->
    exists l', setitem_list l idx v = Ok l' /\ length l' = length l /\
      forall j, nth_error l' j
                = if existsb (Nat.eqb j) idx then Some v else nth_error l j.
Proof.
  unfold setitem_list.
  induction idx as [|k idx IH]; intros l Hall; simpl.
  - exists l. auto.
  - inversion Hall as [|? ? Hk Hidx]; subst.
    destruct (setitem_Ok l k v Hk) as (l1 & -> & Hlen1 & Hnth1).
    cbn [bind].
    destruct (IH l1) as (l' & -> & Hlen' & Hnth').
    { rewrite Hlen1. exact Hidx. }
    exists l'. split; [reflexivity|]. split; [congruence|].
    intros j. rewrite Hnth', Hnth1.
    destruct (j =? k); simpl; [|reflexivity].
    destruct (existsb (Nat.eqb j) idx); reflexivity.
Qed.

Lemma setitem_list_Raise {A : Type} (idx : list nat) (v : A) :
  forall l : list A,
    Exists (fun k => length l <= k) idx ->
    setitem_list l idx v = Raise IndexError.
Proof.
  unfold setitem_list.
  induction idx as [|k idx IH]; intros l Hex; [inversion Hex|].
  simpl. destruct (Nat.lt_ge_cases k (length l)) as [Hk|Hk].
  - destruct (setitem_Ok l k v Hk) as (l1 & -> & Hlen1 & _). cbn [bind].
    apply IH. rewrite Hlen1.
    inversion Hex as [? ? Hbad|]; subst; [lia | assumption].
  - rewrite setitem_Raise by exact Hk. reflexivity.
Qed.

Lemma nth_error_seq_map {B : Type} (f : nat -> B) (n j : nat) :
  nth_error (map f (seq 0 n)) j = if j <? n then Some (f j) else None.
Proof.
  rewrite nth_error_map.
  destruct (Nat.ltb_spec j n) as [H|H].
  - rewrite nth_error_seq. destruct (Nat.ltb_spec j n); [|lia]. reflexivity.
  - assert (E : nth_error (seq 0 n) j = None).
    { apply nth_error_None. rewrite length_seq. exact H. }
    rewrite E. reflexivity.
Qed.

(** The mask [sample] builds: true exactly at the nodes found. *)
Lemma sample_mask (n : nat) (idx : list nat) (mask : list bool) :
  setitem_list (repeat false n) idx true = Ok mask ->
  Forall (fun k => k < n) idx /\
  mask = map (fun k => existsb (Nat.eqb k) idx) (seq 0 n).
Proof.
  intros H.
  assert (Hall : Forall (fun k => k < n) idx).
  { apply Forall_forall. intros k Hk.
    destruct (Nat.lt_ge_cases k n) as [Hlt|Hge]; [exact Hlt|].
    rewrite setitem_list_Raise in H; [discriminate|].
    apply Exists_exists. exists k. rewrite repeat_length. auto. }
  split; [exact Hall|].
  destruct (setitem_list_Ok idx true (repeat false n)) as (m & Hm & _ & Hnth).
  { rewrite repeat_length. exact Hall. }
  rewrite Hm in H. injection H as <-.
  apply nth_error_ext. intros j. rewrite Hnth, nth_error_seq_map.
  destruct (existsb (Nat.eqb j) idx) eqn:E.
  - apply existsb_eqb_nat in E. rewrite Forall_forall in Hall.
    apply Hall in E. destruct (Nat.ltb_spec j n); [reflexivity | lia].
  - destruct (Nat.ltb_spec j n) as [Hj|Hj].
    + rewrite nth_error_repeat by exact Hj. reflexivity.
    + apply nth_error_None. rewrite repeat_length. exact Hj.
Qed.

Lemma take_positions {A : Type} (f : nat -> bool) (l : list A) :
  forall pre : list A,
    np.take (pre ++ l) (filter f (seq (length pre) (length l)))
    = Ok (np.select l (map f (seq (length pre) (length l)))).
Proof.
  unfold np.take.
  induction l as [|a l IH]; intros pre; [reflexivity|].
  cbn [length seq filter map np.select].
  specialize (IH (pre ++ [a])).
  rewrite <- app_assoc, length_app, Nat.add_1_r in IH. cbn [app] in IH.
  destruct (f (length pre)).
  - cbn [mapM]. rewrite nth_error_app2 by lia. rewrite Nat.sub_diag.
    cbn [nth_error bind]. rewrite IH. reflexivity.
  - exact IH.
Qed.

Lemma ascending_seq (s n : nat) : ascending Nat.ltb (seq s n).
Proof.
  revert s. induction n as [|n IH]; intros s; simpl; constructor.
  - apply IH.
  - apply Forall_forall. intros k Hk. apply in_seq in Hk.
    apply Nat.ltb_lt. lia.
Qed.

Lemma ascending_filter {A : Type} (ltb : A -> A -> bool) (f : A -> bool)
  (l : list A) : ascending ltb l -> ascending ltb (filter f l).
Proof.
  induction 1 as [|a l Hl IH Ha]; simpl; [constructor|].
  destruct (f a); [|exact IH]. constructor; [exact IH|].
  rewrite Forall_forall in *. intros b Hb. apply filter_In in Hb.
  apply Ha. tauto.
Qed.

(** The rows under the mask of [sample] are the rows at the distinct
    nodes found, by ascending node. *)
Lemma sample_rows (data : recarray) (idx : list nat) :
  Forall (fun k => k < length data) idx ->
  np.take data (np.unique Nat.ltb idx)
  = Ok (np.select data
          (map (fun k => existsb (Nat.eqb k) idx) (seq 0 (length data)))).
Proof.
  intros Hall.
  pose proof (take_positions (fun k => existsb (Nat.eqb k) idx) data [])
    as Hpos.
  cbn [app length] in Hpos. rewrite <- Hpos. f_equal.
  apply (unique_ascending_eq Nat.ltb nat_ltb_irrefl nat_ltb_trans
           nat_ltb_total).
  - apply ascending_filter, ascending_seq.
  - intros k. rewrite filter_In, in_seq, existsb_eqb_nat.
    rewrite Forall_forall in Hall. split; [|tauto].
    intros Hk. split; [|exact Hk]. apply Hall in Hk. lia.
Qed.

(** X15.  What [sample] returns.  Whenever it returns, the points have
    as many x as y as layers, and every node found is a row of the
    table.  With [as_idx] the result is the list of the nodes found, in
    the order of the points, duplicates kept; with [as_mask] it is the
    mask over the table that is true exactly at the nodes found;
    otherwise it is the rows of the table at the distinct nodes found,
    by ascending node, however often and in whatever order the points
    hit them. *)
Theorem sample_result (index : spatial_index) (data : recarray)
  (x y : list Z) (layer : list nat) (masked_values : option (list Z))
  (as_mask as_idx : bool) (out : sampled) :
  MartheField.sample index data x y layer masked_values as_mask as_idx
  = Ok out ->
  length x = length y /\
  length y = length (point_layers x layer) /\
  Forall (fun k => k < length data)
    (sample_hits index x y layer masked_values) /\
  match out with
  | AsIdx idx =>
      as_idx = true /\ idx = sample_hits index x y layer masked_values
  | SampledMask mask =>
      as_idx = false /\ as_mask = true /\
      mask = map (fun k => existsb (Nat.eqb k)
                             (sample_hits index x y layer masked_values))
               (seq 0 (length data))
  | SampledRec rec =>
      as_idx = false /\ as_mask = false /\
      np.take data
        (np.unique Nat.ltb (sample_hits index x y layer masked_values))
      = Ok rec
  end.
Proof.
  unfold MartheField.sample.
  fold (point_layers x layer).
  change (concat (map _ (combine (combine x y) (point_layers x layer))))
    with (sample_hits index x y layer masked_values).
  intros H. inv_bind_as H u Hu. apply assert_Ok in Hu.
  apply andb_true_iff in Hu. destruct Hu as (Hxy & Hyl).
  apply Nat.eqb_eq in Hxy, Hyl.
  inv_bind_as H mask Hmask. apply sample_mask in Hmask.
  destruct Hmask as (Hall & ->).
  split; [exact Hxy|]. split; [exact Hyl|]. split; [exact Hall|].
  destruct as_idx; [injection H as <-; auto|].
  destruct as_mask; [injection H as <-; auto|].
  inv_bind_as H rec Hrec. injection H as <-.
  split; [reflexivity|]. split; [reflexivity|].
  rewrite (sample_rows data _ Hall).
  unfold np.getitem_mask in Hrec.
  rewrite length_map, length_seq, Nat.eqb_refl in Hrec. exact Hrec.
Qed.

Lemma sample_result_witness :
  exists rec,
    MartheField.sample Examples.index_2x2 Examples.table_2x2
      [15; 5; 15]%Z [5; 15; 15]%Z [0] None false false
    = Ok (SampledRec rec) /\
    np.take Examples.table_2x2
      (np.unique Nat.ltb
         (sample_hits Examples.index_2x2 [15; 5; 15]%Z [5; 15; 15]%Z [0]
            None)) = Ok rec /\
    length rec = 2.
Proof.
  eexists. split; [reflexivity|].
  destruct (sample_result Examples.index_2x2 Examples.table_2x2
              [15; 5; 15]%Z [5; 15; 15]%Z [0] None false false _ eq_refl)
    as (_ & _ & _ & _ & _ & Hrec).
  split; [exact Hrec | reflexivity].
Defined.

(** X16.  The failures of [sample].  Points that do not have as many x
    as y as layers (a single layer standing for all the points) fail the
    assertion.  Otherwise [sample] returns exactly when every node found
    is a row of the table, and raises IndexError when one is not: with
    [as_idx] too, since the mask is built before the flags are read. *)
Theorem sample_errors (index : spatial_index) (data : recarray)
  (x y : list Z) (layer : list nat) (masked_values : option (list Z))
  (as_mask as_idx : bool) :
  (length x <> length y \/ length y <> length (point_layers x layer) ->
   MartheField.sample index data x y layer masked_values as_mask as_idx
   = Raise AssertionError) /\
  (length x = length y -> length y = length (point_layers x layer) ->
   (Exists (fun k => length data <= k)
      (sample_hits index x y layer masked_values) ->
    MartheField.sample index data x y layer masked_values as_mask as_idx
    = Raise IndexError) /\
   (Forall (fun k => k < length data)
      (sample_hits index x y layer masked_values) ->
    is_ok (MartheField.sample index data x y layer masked_values
             as_mask as_idx) = true)).
Proof.
  unfold MartheField.sample.
  fold (point_layers x layer).
  change (concat (map _ (combine (combine x y) (point_layers x layer))))
    with (sample_hits index x y layer masked_values).
  split.
  - intros H.
    destruct (Nat.eqb_spec (length x) (length y)) as [Hxy|Hxy];
      [|reflexivity].
    destruct (Nat.eqb_spec (length y) (length (point_layers x layer)))
      as [Hyl|Hyl]; [|reflexivity].
    tauto.
  - intros Hxy Hyl.
    rewrite Hxy, Hyl, !Nat.eqb_refl. cbn [andb assert bind].
    split.
    + intros Hex. rewrite setitem_list_Raise; [reflexivity|].
      rewrite repeat_length. exact Hex.
    + intros Hall.
      destruct (setitem_list_Ok (sample_hits index x y layer masked_values)
                  true (repeat false (length data)))
        as (mask & -> & Hlen & _).
      { rewrite repeat_length. exact Hall. }
      cbn [bind]. destruct as_idx; [reflexivity|].
      destruct as_mask; [reflexivity|].
      unfold np.getitem_mask. rewrite Hlen, repeat_length, Nat.eqb_refl.
      reflexivity.
Qed.

Lemma sample_errors_witness :
  length [5; 15]%Z = length [15; 15]%Z /\
  Exists (fun k => length Examples.table_1 <= k)
    (sample_hits Examples.index_2x2 [5; 15]%Z [15; 15]%Z [0] None) /\
  MartheField.sample Examples.index_2x2 Examples.table_1
    [5; 15]%Z [15; 15]%Z [0] None false true = Raise IndexError.
Proof.
  assert (Hex : Exists (fun k => length Examples.table_1 <= k)
                  (sample_hits Examples.index_2x2 [5; 15]%Z [15; 15]%Z [0]
                     None)).
  { left. cbn. lia. }
  split; [reflexivity|]. split; [exact Hex|].
  exact (proj1 (proj2 (sample_errors Examples.index_2x2 Examples.table_1
                         [5; 15]%Z [15; 15]%Z [0] None false true)
                  eq_refl eq_refl) Hex).
Defined.

(** ** [set_data_from_parfile] *)

Lemma store_store (h : heap) (l : loc) (a b : recarray) :
  store (store h l a) l b = store h l b.
Proof.
  revert l; induction h as [|c h IH]; intros [|l]; simpl; congruence.
Qed.

Lemma load_store_other (h : heap) (l k : loc) (rec : recarray) :
  k <> l -> load (store h l rec) k = load h k.
Proof.
  intros H. unfold load. rewrite nth_error_store_other by exact H.
  reflexivity.
Qed.

Lemma zone_keeps (t : recarray) (l : nat) (r : Rec.t) :
  In r t ->
  keeps (selected (map Rec.layer t) (Some [l]))
        (selected (map Rec.inest t) None) dmv r
  = (Rec.layer r =? l) && negb (existsb (Z.eqb (Rec.value r)) dmv).
Proof.
  intros Hr. unfold keeps, selected.
  assert (Hn : existsb (Nat.eqb (Rec.inest r))
                 (np.unique Nat.ltb (map Rec.inest t)) = true).
  { apply existsb_eqb_nat, In_unique_nat, in_map, Hr. }
  rewrite Hn. cbn [existsb]. rewrite orb_false_r, andb_true_r.
  reflexivity.
Qed.

Lemma zone_table (t zt : recarray) (l : nat) (z v : Z) :
  length zt = length t ->
  set_values t
    (map (fun p : Z * bool => if snd p then v else fst p)
       (combine (map Rec.value t)
          (np.logical_and
             (map (fun r => (Rec.layer r =? l)
                            && negb (existsb (Z.eqb (Rec.value r)) dmv)) t)
             (map (fun r => (Rec.value r =? z)%Z) zt))))
  = map (fun p : Rec.t * Rec.t => zone_step l z v (fst p) (snd p))
      (combine t zt).
Proof.
  unfold set_values, np.logical_and, zone_step. revert zt.
  induction t as [|r t IH]; intros [|zr zt] H; simpl in H; try lia;
    [reflexivity|].
  cbn [map combine fst snd]. rewrite IH by lia. f_equal.
  destruct ((Rec.layer r =? l)
            && negb (existsb (Z.eqb (Rec.value r)) dmv)
            && (Rec.value zr =? z)%Z); [reflexivity|].
  apply set_value_value.
Qed.

Lemma zoned_combine (F G : Rec.t -> Rec.t -> Rec.t) (t zt : recarray) :
  map (fun p : Rec.t * Rec.t => F (fst p) (snd p))
    (combine (map (fun p : Rec.t * Rec.t => G (fst p) (snd p))
                (combine t zt)) zt)
  = map (fun p : Rec.t * Rec.t => F (G (fst p) (snd p)) (snd p))
      (combine t zt).
Proof.
  revert zt. induction t as [|r t IH]; intros [|zr zt]; simpl;
    [reflexivity.. |]. rewrite IH. reflexivity.
Qed.

(** The loop of [set_data_from_parfile] over the records of a zone
    file, for a zone field whose table is another array than the table
    of the field. *)
Lemma zpc_loop (self izone : MartheField.t) (ref zref : loc)
  (zt : recarray) (rows : list (nat * Z * Z)) :
  MartheField.data_ref self = Some ref ->
  MartheField.data_ref izone = Some zref ->
  ref <> zref ->
  forall (h : heap) (t : recarray),
    load h ref = Ok t -> load h zref = Ok zt -> length zt = length t ->
    foldM (fun h (e : nat * Z * Z) =>
             '(ref, self_data, mask) <-
               MartheField.zone_mask h self izone [fst (fst e)]
                 (snd (fst e)) ;;
             col <- np.setitem_mask_scalar
                      (map Rec.value self_data) mask (snd e) ;;
             Ok (store h ref (set_values self_data col)))
          rows h
    = Ok (store h ref
            (map (fun p : Rec.t * Rec.t => zoned rows (fst p) (snd p))
               (combine t zt))).
Proof.
  intros Hself Hzone Hne.
  induction rows as [|[[l z] v] rows IH]; intros h t Ht Hzt Hlen.
  - cbn [foldM]. f_equal. unfold zoned. cbn [fold_left].
    assert (E : map (fun p : Rec.t * Rec.t => fst p) (combine t zt) = t).
    { clear - Hlen. revert zt Hlen.
      induction t as [|r t IH]; intros [|zr zt] H; simpl in *; try lia;
        [reflexivity|]. rewrite IH by lia. reflexivity. }
    rewrite E. clear - Ht. unfold load in Ht.
    destruct (nth_error h ref) as [a|] eqn:E; [|discriminate].
    injection Ht as ->. revert ref E.
    induction h as [|c h IH]; intros [|k] E; simpl in *; try discriminate.
    + congruence.
    + rewrite <- (IH k E) at 1. reflexivity.
  - cbn [foldM fst snd].
    unfold MartheField.zone_mask at 1. rewrite Hself, Ht. cbn [bind].
    unfold MartheField.module_dmv.
    rewrite get_data_as_mask. cbn [bind].
    rewrite (map_ext_in _ _ _ (zone_keeps t l)).
    unfold MartheField.attr_data. change (MartheField.data izone)
      with (MartheField.data_ref izone). rewrite Hzone, Hzt. cbn [bind].
    unfold logical_and_pair. rewrite !length_map, Hlen, Nat.eqb_refl.
    cbn [bind]. unfold np.setitem_mask_scalar.
    assert (Hmask :
      length (map Rec.value t)
      = length (np.logical_and
                  (map (fun r => (Rec.layer r =? l)
                                 && negb (existsb (Z.eqb (Rec.value r)) dmv))
                     t)
                  (map (fun r => (Rec.value r =? z)%Z) zt))).
    { unfold np.logical_and.
      rewrite !length_map, length_combine, !length_map. lia. }
    rewrite Hmask, Nat.eqb_refl. cbn [bind].
    rewrite (zone_table t zt l z v Hlen).
    rewrite (IH (store h ref _)
               (map (fun p : Rec.t * Rec.t => zone_step l z v (fst p) (snd p))
                  (combine t zt))).
    + rewrite store_store. f_equal. f_equal.
      rewrite (zoned_combine (zoned rows) (zone_step l z v)). reflexivity.
    + apply load_store_same. eapply load_Ok_lt, Ht.
    + rewrite load_store_other by congruence. exact Hzt.
    + rewrite length_map, length_combine. lia.
Qed.

Lemma zone_step_masked (l : nat) (z v : Z) (r zr : Rec.t) :
  In (Rec.value r) dmv -> zone_step l z v r zr = r.
Proof.
  intros H. unfold zone_step. apply existsb_eqb_Z in H. rewrite H.
  rewrite andb_false_r. reflexivity.
Qed.

Lemma zone_step_geometry (l : nat) (z v : Z) (r zr : Rec.t) :
  Rec.geometry (zone_step l z v r zr) = Rec.geometry r.
Proof. unfold zone_step. destruct (_ && _); reflexivity. Qed.

(** X17.  A zone file applied to a field.  For a field with a table [t]
    and a zone field whose table [zt] is another array with as many
    rows, [set_data_from_parfile] with a file of zones of piecewise
    constancy returns, and changes nothing but the table of the field,
    in place: every cell becomes the cell its records yield, applied in
    the order of the file, a record (layer, zone, value) giving its
    value to a cell of the layer and the zone whose current value is not
    one of -9999, 0, 9999.  So the geometry of a cell never changes, a
    cell that holds a default masked value keeps it, and a cell in no
    record's layer and zone is left as it was. *)
Theorem set_data_from_parfile_zpc (parse : parser)
  (self izone : MartheField.t) (h : heap) (parfile btrans : string)
  (fmt_lite : bool) (rows : list (nat * Z * Z)) (ref zref : loc)
  (t zt : recarray) :
  parse parfile btrans fmt_lite = Ok (Zpc rows) ->
  MartheField.data_ref self = Some ref ->
  MartheField.data_ref izone = Some zref ->
  ref <> zref ->
  load h ref = Ok t -> load h zref = Ok zt -> length zt = length t ->
  MartheField.set_data_from_parfile parse self izone h parfile btrans
    fmt_lite
  = Ok (store h ref
          (map (fun p : Rec.t * Rec.t => zoned rows (fst p) (snd p))
             (combine t zt))) /\
  (forall r zr,
     Rec.geometry (zoned rows r zr) = Rec.geometry r /\
     (In (Rec.value r) dmv -> zoned rows r zr = r) /\
     ((forall e, In e rows ->
                 fst (fst e) <> Rec.layer r \/ snd (fst e) <> Rec.value zr) ->
      zoned rows r zr = r)).
Proof.
  intros Hparse Hself Hzone Hne Ht Hzt Hlen. split.
  - unfold MartheField.set_data_from_parfile. rewrite Hparse. cbn [bind].
    apply (zpc_loop self izone ref zref zt rows Hself Hzone Hne h t Ht Hzt
             Hlen).
  - clear. intros r zr. unfold zoned. split; [|split].
    + revert r. induction rows as [|e rows IH]; intros r; [reflexivity|].
      cbn [fold_left]. rewrite IH. apply zone_step_geometry.
    + revert r. induction rows as [|e rows IH]; intros r Hr;
        [reflexivity|].
      cbn [fold_left]. rewrite zone_step_masked by exact Hr.
      apply IH, Hr.
    + revert r. induction rows as [|e rows IH]; intros r Hr;
        [reflexivity|].
      cbn [fold_left].
      assert (E : zone_step (fst (fst e)) (snd (fst e)) (snd e) r zr = r).
      { unfold zone_step.
        destruct (Hr e (or_introl eq_refl)) as [Hl|Hz].
        - destruct (Nat.eqb_spec (Rec.layer r) (fst (fst e)));
            [congruence | reflexivity].
        - destruct (Z.eqb_spec (Rec.value zr) (snd (fst e)));
            [congruence|]. rewrite andb_false_r. reflexivity. }
      rewrite E. apply IH. intros e' He'. apply Hr. right. exact He'.
Qed.

Lemma set_data_from_parfile_zpc_witness :
  Examples.parse_zones "hk_zpc.dat"%string "none"%string false = Ok (Zpc [(0, 1%Z, 50%Z)]) /\
  MartheField.set_data_from_parfile Examples.parse_zones Examples.permh_loaded
    Examples.imask_field Examples.heap0 "hk_zpc.dat"%string "none"%string
    false
  = Ok [Examples.imask_2x2;
        [Examples.R 0 0 0 0 5 15 50; Examples.R 0 0 0 1 15 15 9999;
         Examples.R 0 0 1 0 5 5 7; Examples.R 0 0 1 1 15 5 50]%Z;
        Examples.table_1].
Proof.
  split; [reflexivity|].
  exact (proj1 (set_data_from_parfile_zpc Examples.parse_zones Examples.permh_loaded
                  Examples.imask_field Examples.heap0 "hk_zpc.dat"%string
                  "none"%string false [(0, 1%Z, 50%Z)] 1 0 Examples.table_2x2
                  Examples.imask_2x2 eq_refl eq_refl eq_refl
                  (fun E => O_S 0 (eq_sym E)) eq_refl eq_refl eq_refl)).
Defined.

(** ** [as_3darray] *)

Lemma list_prod_single {A B : Type} (l : list A) (b : B) :
  list_prod l [b] = map (fun a => (a, b)) l.
Proof. induction l as [|a l IH]; simpl; congruence. Qed.

(** Whenever [as_3darray] returns: one dense array per layer of the
    table, for its main grid, all of one shape. *)
Lemma as_3darray_stacked (nnest : option nat) (data : recarray)
  (sel : selection) :
  MartheField.as_3darray nnest data = Ok sel ->
  exists arrays, sel = AsArray arrays /\
    Forall2 (fun l a =>
               MartheField.dense (filter (fun r => Rec.layer r =? l) data) 0
               = Ok a)
      (np.unique Nat.ltb (map Rec.layer data)) arrays /\
    forall a b, In a arrays -> In b arrays ->
      a_nrow a = a_nrow b /\ a_ncol a = a_ncol b.
Proof.
  unfold MartheField.as_3darray. intros H. inv_bind_as H u Hu.
  apply get_data_as_array_stacked in H.
  destruct H as (arrays & -> & Hall & Hshape).
  exists arrays. split; [reflexivity|]. split; [|exact Hshape].
  cbn [selected] in Hall. rewrite list_prod_single in Hall.
  clear Hshape.
  remember (np.unique Nat.ltb (map Rec.layer data)) as layers eqn:E.
  clear E. revert arrays Hall.
  induction layers as [|l layers IH]; intros arrays Hall;
    inversion Hall; subst; constructor; auto.
Qed.

Lemma as_3darray_arrays (nnest : option nat) (data : recarray)
  (sel : selection) :
  MartheField.as_3darray nnest data = Ok sel ->
  exists arrays, sel = AsArray arrays /\
    Forall2 (fun l a =>
               MartheField.dense (filter (fun r => Rec.layer r =? l) data) 0
               = Ok a)
      (np.unique Nat.ltb (map Rec.layer data)) arrays.
Proof.
  intros H. apply as_3darray_stacked in H.
  destruct H as (arrays & E & H & _). eauto.
Qed.

Lemma forallb_false_exists {A : Type} (f : A -> bool) (l : list A) :
  forallb f l = false -> exists a, In a l /\ f a = false.
Proof.
  induction l as [|a l IH]; simpl; [discriminate|].
  destruct (f a) eqn:E; simpl.
  - intros H. destruct (IH H) as (b & Hb & Hf). exists b. auto.
  - intros _. exists a. auto.
Qed.

(** X18.  [as_3darray] fails its assertion exactly for a nested model
    or, for a field without a model, for a table that has a row of a
    nested grid: with a model, the nests of the table itself are not
    looked at.  It raises nothing but AssertionError and ValueError.
    Whenever it returns, it returns one array per layer of the table,
    by ascending layer, all of one shape: the rows of the main grid of
    the layer, which must exist, in the order of the table and in the
    shape (max row + 1, max col + 1). *)
Theorem as_3darray_layers (nnest : option nat) (data : recarray) :
  (MartheField.as_3darray nnest data = Raise AssertionError <->
   match nnest with
   | Some n => n <> 0
   | None => exists r, In r data /\ Rec.inest r <> 0
   end) /\
  (forall e, MartheField.as_3darray nnest data = Raise e ->
             e = AssertionError \/ e = ValueError) /\
  (forall sel,
     MartheField.as_3darray nnest data = Ok sel ->
     exists arrays, sel = AsArray arrays /\
       Forall2 (fun l a => group data l 0 <> [] /\
                           reshaped (group data l 0) a)
         (np.unique Nat.ltb (map Rec.layer data)) arrays /\
       forall a b, In a arrays -> In b arrays ->
         a_nrow a = a_nrow b /\ a_ncol a = a_ncol b).
Proof.
  split; [|split].
  - unfold MartheField.as_3darray. destruct nnest as [n|].
    + destruct (Nat.eqb_spec n 0) as [->|Hn]; cbn [assert bind].
      * split; [|intros H; contradiction].
        intros H. apply get_data_as_array_Raise in H. discriminate.
      * split; auto.
    + destruct (forallb (fun n => n =? 0) (map Rec.inest data)) eqn:E;
        cbn [assert bind].
      * split.
        -- intros H. apply get_data_as_array_Raise in H. discriminate.
        -- intros (r & Hr & Hn). exfalso. apply Hn.
           rewrite forallb_forall in E. apply Nat.eqb_eq, E, in_map, Hr.
      * split; [|reflexivity]. intros _.
        apply forallb_false_exists in E. destruct E as (n & Hn & E).
        apply in_map_iff in Hn. destruct Hn as (r & <- & Hr).
        exists r. split; [exact Hr|]. apply Nat.eqb_neq, E.
  - intros e. unfold MartheField.as_3darray.
    destruct (assert _) as [u|e0] eqn:E; cbn [bind].
    + intros H. right. eapply get_data_as_array_Raise, H.
    + intros [= <-]. left. unfold assert in E.
      destruct (match nnest with
                | Some n => n =? 0
                | None => forallb (fun n => n =? 0) (map Rec.inest data)
                end); [discriminate|]. injection E as <-. reflexivity.
  - intros sel H. apply as_3darray_stacked in H.
    destruct H as (arrays & -> & Hall & Hshape). exists arrays.
    split; [reflexivity|]. split; [|exact Hshape].
    eapply Forall2_impl; [|exact Hall].
    intros l a Ha. split; [|apply (dense_Ok data l 0 a Ha)].
    assert (Hok : is_ok (MartheField.dense
                           (filter (fun r => Rec.layer r =? l) data) 0)
                  = true) by (rewrite Ha; reflexivity).
    apply is_ok_dense in Hok. tauto.
Qed.

Lemma as_3darray_layers_witness :
  (exists r, In r Examples.table_diag /\ Rec.inest r <> 0) /\
  MartheField.as_3darray None Examples.table_diag = Raise AssertionError /\
  MartheField.as_3darray (Some 0) Examples.table_diag
  <> Raise AssertionError.
Proof.
  assert (H : exists r, In r Examples.table_diag /\ Rec.inest r <> 0).
  { exists (Examples.R 1 1 0 0 5 15 5).
    split; [do 4 right; left; reflexivity | cbn; discriminate]. }
  split; [exact H|]. split.
  - exact (proj2 (proj1 (as_3darray_layers None Examples.table_diag)) H).
  - intros E.
    exact (proj1 (proj1 (as_3darray_layers (Some 0) Examples.table_diag)) E
             eq_refl).
Defined.

Lemma rec3d_built (mm : MartheField.MartheModel) (h h' : heap)
  (arr3d : ndarray) (r : loc) :
  MartheField._3d2rec mm h arr3d = Ok (h', r) ->
  exists ref col,
    MartheField.attr_data h (MartheField.imask mm) = Ok ref /\
    load h' r = Ok (set_values ref col) /\
    length col = length ref /\
    forall l s, nth_error (slabs arr3d) l = Some s ->
                group ref l 0 <> [] ->
                np.select col (main_mask ref l) = s.
Proof.
  intros H. unfold MartheField._3d2rec in H.
  inv_bind_as H u Hu. inv_bind_as H ref Href.
  unfold deepcopy, alloc in H. cbn beta iota in H.
  inv_bind_as H col Hcol. injection H as <- <-.
  unfold enumerate in Hcol.
  apply (rec3d_loop ref (slabs arr3d) 0) in Hcol; [|apply length_map].
  destruct Hcol as (Hlen & _ & Hset).
  exists ref, col. split; [exact Href|]. split; [|split].
  - unfold load. rewrite nth_error_app2 by lia.
    rewrite Nat.sub_diag. reflexivity.
  - exact Hlen.
  - intros l s Hs Hne. apply (Hset l s Hs Hne).
Qed.

(** X19.  A 3D array read back.  Of the table [_3d2rec] builds from an
    array, [as_3darray] returns, for every layer the array has a slab
    for, an array whose values are those of the slab: what is set from a
    3D array is what is read back as one, layer by layer. *)
Theorem as_3darray_of_3d2rec (mm : MartheField.MartheModel) (h h' : heap)
  (arr3d : ndarray) (r : loc) (t : recarray) (nnest : option nat)
  (sel : selection) :
  MartheField._3d2rec mm h arr3d = Ok (h', r) ->
  load h' r = Ok t ->
  MartheField.as_3darray nnest t = Ok sel ->
  exists arrays, sel = AsArray arrays /\
    Forall2 (fun l a =>
               forall s, nth_error (slabs arr3d) l = Some s -> ravel a = s)
      (np.unique Nat.ltb (map Rec.layer t)) arrays.
Proof.
  intros Hbuilt Ht Hread.
  destruct (rec3d_built mm h h' arr3d r Hbuilt)
    as (ref & col & _ & Ht' & Hlen & Hset).
  rewrite Ht in Ht'. injection Ht' as ->.
  apply as_3darray_arrays in Hread.
  destruct Hread as (arrays & -> & Hall). exists arrays.
  split; [reflexivity|].
  eapply Forall2_impl; [|exact Hall].
  intros l a Ha s Hs.
  assert (Hok : is_ok (MartheField.dense
                         (filter (fun r => Rec.layer r =? l)
                            (set_values ref col)) 0) = true)
    by (rewrite Ha; reflexivity).
  apply is_ok_dense in Hok. destruct Hok as (Hne & _).
  apply dense_Ok in Ha. destruct Ha as ((_ & _ & ->) & _).
  assert (Hvals : map Rec.value (group (set_values ref col) l 0)
                  = np.select col (main_mask ref l)).
  { apply group_set_values, Hlen. }
  rewrite Hvals. apply (Hset l s Hs).
  intros Hempty. apply Hne.
  apply (f_equal (@length Rec.t)) in Hempty.
  rewrite <- count_main_mask in Hempty.
  rewrite <- (length_select col (main_mask ref l)) in Hempty.
  - rewrite <- Hvals, length_map in Hempty.
    destruct (group (set_values ref col) l 0); [reflexivity|].
    discriminate Hempty.
  - unfold main_mask. rewrite length_map. exact Hlen.
Qed.

Lemma as_3darray_of_3d2rec_witness :
  exists h' r t arrays,
    MartheField._3d2rec Examples.mm Examples.heap0
      (mk_ndarray [1; 2; 2] [11; 12; 13; 14]%Z) = Ok (h', r) /\
    load h' r = Ok t /\
    MartheField.as_3darray (Some 0) t = Ok (AsArray arrays) /\
    Forall2 (fun l a =>
               forall s,
                 nth_error (slabs (mk_ndarray [1; 2; 2] [11; 12; 13; 14]%Z)) l
                 = Some s -> ravel a = s)
      (np.unique Nat.ltb (map Rec.layer t)) arrays.
Proof.
  eexists. eexists. eexists.
  destruct (as_3darray_of_3d2rec Examples.mm Examples.heap0 _
              (mk_ndarray [1; 2; 2] [11; 12; 13; 14]%Z) _ _ (Some 0) _
              eq_refl eq_refl eq_refl)
    as (arrays & Hsel & Hall).
  exists arrays. split; [reflexivity|]. split; [reflexivity|].
  split; [rewrite <- Hsel; reflexivity | exact Hall].
Defined.

(** ** From the file to the frame *)

Lemma load_field_entries (file : MartheFieldSeries.stream)
  (mm : MartheField.MartheModel) (self self' : MartheFieldSeries.t)
  (h h' : heap) (field : string) (istep : option (list nat))
  (ref : recarray) :
  MartheField.attr_data h (MartheField.imask mm) = Ok ref ->
  MartheFieldSeries.load_field file mm self h field istep = Ok (h', self') ->
  exists loaded,
    dict_get String.eqb (MartheFieldSeries.data_of self') field
    = Some (Some loaded) /\
    Forall (fun p : nat * MartheField.t =>
      exists grids col,
        Forall2 (fun r g =>
                   MartheFieldSeries.read_grid_file file
                     (MartheFieldSeries.chasim self)
                     (MartheFieldSeries.start r) (MartheFieldSeries.stop r)
                   = Ok g)
          (step_rows self field (fst p)) grids /\
        np.setitem_all (map Rec.value ref)
          (concat (map (fun g => ravel (MartheGrid.array g)) grids))
        = Ok col /\
        MartheField.attr_data h' (snd p) = Ok (set_values ref col))
      loaded.
Proof.
  intros Href H.
  destruct (load_field_keys file mm self self' h h' field istep H)
    as (loaded & Hget & Hkeys).
  unfold MartheFieldSeries.load_field in H.
  inv_bind_as H checked Hchecked. destruct checked as [exist_ loaded_].
  cbn beta iota in H.
  inv_bind_as H u Hu. inv_bind_as H top Htop. inv_bind_as H mg Hmg.
  inv_bind_as H looped Hloop.
  destruct looped as [h1 mf_dic]. cbn beta iota in H. injection H as <- <-.
  fold (available_isteps self field) in Hloop, Hmg.
  fold (retained_isteps self field istep) in Hloop, Hmg.
  unfold MartheFieldSeries.data_of in Hget. cbn [MartheFieldSeries.data] in Hget.
  rewrite dict_get_set_string in Hget. injection Hget as <-.
  exists mf_dic. split.
  { unfold MartheFieldSeries.data_of. cbn [MartheFieldSeries.data].
    apply dict_get_set_string. }
  apply (load_loop_tables mm field _ _ ref) in Hloop;
    [|exact Href | constructor].
  apply mapM_Ok_Forall2 in Hmg.
  rewrite Forall_forall in Hloop. apply Forall_forall. intros p Hp.
  assert (Hi : In (fst p) (retained_isteps self field istep)).
  { apply In_unique_nat. rewrite <- Hkeys. unfold keys. apply in_map, Hp. }
  destruct (Hloop p Hp) as (col & Hcol & Hattr & _).
  eexists. exists col. split; [|split; [|exact Hattr]].
  - unfold step_rows.
    rewrite <- (step_rows_retained field (retained_isteps self field istep)
                  (fst p) _ Hi).
    apply (filter_combine_Forall2 _
             (fun r => MartheFieldSeries.istep r =? fst p) _ _ Hmg).
  - rewrite map_map. exact Hcol.
Qed.

Lemma Forall2_with_left {A B : Type} (P : A -> Prop) (R : A -> B -> Prop)
  (l : list A) (l' : list B) :
  Forall P l -> Forall2 R l l' -> Forall2 (fun a b => P a /\ R a b) l l'.
Proof.
  intros HP HR. induction HR as [|a b l l' Hab _ IH]; constructor.
  - inversion HP; subst. auto.
  - apply IH. inversion HP; subst. assumption.
Qed.

Lemma nth_error_value_set_values (ref : recarray) (col : list Z) (n : nat)
  (r : Rec.t) :
  length col = length ref ->
  nth_error (set_values ref col) n = Some r ->
  nth_error col n = Some (Rec.value r).
Proof.
  intros Hlen Hr. rewrite <- (value_set_values ref col Hlen).
  rewrite nth_error_map, Hr. reflexivity.
Qed.

(** X20.  From the file to the frame.  When [load_field] has loaded a
    field in a model whose active-domain table is [ref], the frame
    [get_tseries] then returns has, for every loaded timestep and every
    sampled node [n], the [n]-th value of the grids that the file has
    for the field at the timestep, raveled one after the other in the
    order of the index (or their single value, when they hold one cell
    in all), with the missing-value marker in place of a masked value:
    the node number of a cell is its position in the file. *)
Theorem get_tseries_of_load_field (file : MartheFieldSeries.stream)
  (mm : MartheField.MartheModel) (self self' : MartheFieldSeries.t)
  (h h' : heap) (field : string) (istep : option (list nat))
  (ref : recarray) (x y : list Z) (layer : list nat)
  (names : option (list string)) (index : string)
  (masked_values : option (list Z)) (df : MartheFieldSeries.DataFrame) :
  MartheField.attr_data h (MartheField.imask mm) = Ok ref ->
  MartheFieldSeries.load_field file mm self h field istep = Ok (h', self') ->
  MartheFieldSeries.get_tseries mm self' h' field x y layer names index
    masked_values = Ok (Some df) ->
  exists loaded,
    dict_get String.eqb (MartheFieldSeries.data_of self') field
    = Some (Some loaded) /\
    Forall2 (fun (p : nat * MartheField.t) (row : list cell) =>
      exists grids,
        Forall2 (fun r g =>
                   MartheFieldSeries.read_grid_file file
                     (MartheFieldSeries.chasim self)
                     (MartheFieldSeries.start r) (MartheFieldSeries.stop r)
                   = Ok g)
          (step_rows self field (fst p)) grids /\
        Forall2 (fun n c =>
                   exists v,
                     c = MartheFieldSeries.replace
                           (masked_values_of masked_values) v /\
                     let vals :=
                       concat (map (fun g => ravel (MartheGrid.array g))
                                 grids) in
                     (length vals = length ref /\
                      nth_error vals n = Some v) \/
                     (vals = [v] /\ n < length ref))
          (nodes_of mm x y layer) row)
      loaded (MartheFieldSeries.values df).
Proof.
  intros Href Hload Hframe.
  destruct (load_field_entries file mm self self' h h' field istep ref
              Href Hload) as (loaded & Hget & Hentries).
  destruct (get_tseries_cells mm self' h' field x y layer names index
              masked_values df Hframe) as (loaded' & Hget' & Hcells).
  rewrite Hget in Hget'. injection Hget' as <-.
  exists loaded. split; [exact Hget|].
  pose proof (Forall2_with_left _ _ _ _ Hentries Hcells) as Hboth.
  eapply Forall2_impl; [|exact Hboth].
  intros p row ((grids & col & Hgrids & Hcol & Ht) & (t & Ht' & Hrow)).
  rewrite Ht in Ht'. injection Ht' as <-.
  exists grids. split; [exact Hgrids|].
  apply setitem_all_cases in Hcol. rewrite length_map in Hcol.
  destruct Hcol as (Hlen & Hcol).
  eapply Forall2_impl; [|exact Hrow].
  intros n c (r & Hr & ->). exists (Rec.value r).
  split; [reflexivity|]. cbv zeta.
  pose proof (nth_error_value_set_values ref col n r Hlen Hr) as Hv.
  destruct Hcol as [(Hl & ->)|(v & Hvals & ->)].
  - left. rewrite ?length_map in Hl. auto.
  - right. rewrite nth_error_map in Hv.
    destruct (nth_error (map Rec.value ref) n) as [w|] eqn:E;
      [|discriminate].
    injection Hv as <-. split; [exact Hvals|].
    assert (Hsome : nth_error (map Rec.value ref) n <> None) by congruence.
    apply nth_error_Some in Hsome. rewrite length_map in Hsome. exact Hsome.
Qed.

Lemma get_tseries_of_load_field_witness :
  exists df loaded,
    MartheField.attr_data Examples.heap0 (MartheField.imask Examples.mm)
    = Ok Examples.imask_2x2 /\
    MartheFieldSeries.get_tseries Examples.mm (snd Examples.charge_loaded)
      (fst Examples.charge_loaded) "CHARGE"
      [5; 5]%Z [15; 5]%Z [0] None "istep" None = Ok (Some df) /\
    dict_get String.eqb
      (MartheFieldSeries.data_of (snd Examples.charge_loaded))
      "CHARGE"%string = Some (Some loaded) /\
    length (MartheFieldSeries.values df) = length loaded.
Proof.
  eexists.
  destruct (get_tseries_of_load_field Examples.chasim Examples.mm
              Examples.mfs (snd Examples.charge_loaded) Examples.heap0
              (fst Examples.charge_loaded) "CHARGE" None Examples.imask_2x2
              [5; 5]%Z [15; 5]%Z [0] None "istep" None _
              eq_refl eq_refl eq_refl)
    as (loaded & Hget & Hall).
  exists loaded. split; [reflexivity|]. split; [reflexivity|].
  split; [exact Hget|]. symmetry. eapply Forall2_length, Hall.
Defined.

(** ** A masked field set from a 3D array *)

Lemma masked_set_values (mv : list Z) (ref : recarray) (col : list Z) :
  length col = length ref ->
  masked mv ref (set_values ref col)
  = map (fun p : Rec.t * Z =>
           if existsb (Z.eqb (Rec.value (fst p))) mv then fst p
           else Rec.set_value (fst p) (snd p))
      (combine ref col).
Proof.
  unfold masked, set_values. revert col.
  induction ref as [|a ref IH]; intros [|v col] H; simpl in *; try lia;
    [reflexivity|].
  rewrite IH by lia. reflexivity.
Qed.

Lemma group_overlay (mv : list Z) (ref : recarray) (col : list Z)
  (l n : nat) :
  length col = length ref ->
  map Rec.value
    (group (map (fun p : Rec.t * Z =>
                   if existsb (Z.eqb (Rec.value (fst p))) mv then fst p
                   else Rec.set_value (fst p) (snd p))
              (combine ref col)) l n)
  = map (fun p : Rec.t * Z =>
           if existsb (Z.eqb (Rec.value (fst p))) mv
           then Rec.value (fst p) else snd p)
      (combine (group ref l n)
         (np.select col
            (map (fun r => (Rec.layer r =? l) && (Rec.inest r =? n)) ref))).
Proof.
  unfold group. revert col.
  induction ref as [|a ref IH]; intros [|v col] H; simpl in *; try lia;
    [reflexivity|].
  specialize (IH col).
  destruct (existsb (Z.eqb (Rec.value a)) mv) eqn:E; simpl;
    destruct (Rec.layer a =? l); simpl; try (apply IH; lia);
    destruct (Rec.inest a =? n); simpl; try (apply IH; lia);
    rewrite ?E; rewrite IH by lia; reflexivity.
Qed.

(** X21.  A field masked by the active domain, set from a 3D array.
    Whenever [set_data] returns for such a field and a 3D array, the
    table of the field is a new array with the geometry of the
    active-domain table [ref]; a cell that is not active (whose value in
    [ref] is one of the masked values of the field) is the cell of
    [ref], whatever the array holds for it; and in every layer the array
    has a slab for, the active main-grid cells hold the values of the
    slab at their positions. *)
Theorem set_data_3darray_masked (read_grid_file : MartheField.reader)
  (mm : MartheField.MartheModel) (self self' : MartheField.t)
  (h h' : heap) (arr3d : ndarray) :
  MartheField.model_dependent self = true ->
  MartheField.set_data read_grid_file mm self h (DArr arr3d) None None
  = Ok (h', self') ->
  exists ref t,
    MartheField.attr_data h (MartheField.imask mm) = Ok ref /\
    extends h h' /\
    (exists l, MartheField.data_ref self' = Some l /\ length h <= l) /\
    MartheField.attr_data h' self' = Ok t /\
    geometry t = geometry ref /\
    (forall k row, nth_error ref k = Some row ->
                   In (Rec.value row) (MartheField.dmv self) ->
                   nth_error t k = Some row) /\
    (forall l s, nth_error (slabs arr3d) l = Some s ->
                 group ref l 0 <> [] ->
                 map Rec.value (group t l 0)
                 = map (fun p : Rec.t * Z =>
                          if existsb (Z.eqb (Rec.value (fst p)))
                               (MartheField.dmv self)
                          then Rec.value (fst p) else snd p)
                     (combine (group ref l 0) s)).
Proof.
  intros Hdep H. unfold MartheField.set_data in H. cbn [is_none andb] in H.
  inv_bind_as H u Hu. inv_bind_as H built Hbuilt.
  destruct built as [h1 r]. cbn beta iota in H.
  inv_bind_as H got Hgot. destruct got as [h2 m]. cbn beta iota in H.
  injection H as <- <-.
  destruct (rec3d_shape mm h h1 arr3d r Hbuilt) as (a & b & Hh1 & Hr).
  destruct (rec3d_built mm h h1 arr3d r Hbuilt)
    as (ref & col & Href & Hload & Hlen & Hset).
  assert (Href1 : MartheField.attr_data h1 (MartheField.imask mm) = Ok ref).
  { rewrite Hh1. apply attr_data_app, Href. }
  rewrite (get_masked_dependent mm self h1 r ref Hdep Href1) in Hgot.
  rewrite load_app in Hgot by (eapply load_Ok_lt, Hload).
  rewrite Hload in Hgot.
  rewrite (length_set_values ref col Hlen), Nat.eqb_refl in Hgot.
  injection Hgot as <- <-.
  exists ref, (masked (MartheField.dmv self) ref (set_values ref col)).
  split; [exact Href|].
  split.
  { rewrite Hh1, <- app_assoc. apply extends_app. }
  split.
  { exists (length h1). split; [reflexivity|].
    rewrite Hh1, length_app. lia. }
  split.
  { unfold MartheField.attr_data. cbn. apply load_new. }
  split; [apply geometry_masked, length_set_values, Hlen|].
  split.
  - intros k row Hrow Hmasked.
    assert (Hk : k < length (set_values ref col)).
    { rewrite (length_set_values ref col Hlen).
      apply nth_error_Some. congruence. }
    apply nth_error_Some in Hk.
    destruct (nth_error (set_values ref col) k) as [w|] eqn:Ew;
      [|contradiction].
    rewrite (nth_error_masked _ ref (set_values ref col) k row w Hrow Ew).
    apply existsb_eqb_Z in Hmasked. rewrite Hmasked. reflexivity.
  - intros l s Hs Hne.
    rewrite (masked_set_values _ ref col Hlen).
    rewrite (group_overlay _ ref col l 0 Hlen).
    fold (main_mask ref l). rewrite (Hset l s Hs Hne). reflexivity.
Qed.

Lemma set_data_3darray_masked_witness :
  exists h' self' t,
    MartheField.model_dependent Examples.permh = true /\
    MartheField.set_data Examples.files Examples.mm Examples.permh
      Examples.heap0 (DArr (mk_ndarray [1; 2; 2] [11; 12; 13; 14]%Z))
      None None = Ok (h', self') /\
    MartheField.attr_data h' self' = Ok t /\
    map Rec.value (group t 0 0) = [11; 12; 0; 14]%Z.
Proof.
  eexists. eexists.
  destruct (set_data_3darray_masked Examples.files Examples.mm Examples.permh
              _ Examples.heap0 _ (mk_ndarray [1; 2; 2] [11; 12; 13; 14]%Z)
              eq_refl eq_refl)
    as (ref & t & Href & _ & _ & Ht & _ & _ & Hvals).
  exists t. split; [reflexivity|]. split; [reflexivity|].
  split; [exact Ht|].
  injection Href as <-.
  apply (Hvals 0 [11; 12; 13; 14]%Z eq_refl). discriminate.
Defined.
